(** * Scheduler driver and common validation: a shallow embedding

    Two source files are embedded here:

    - [src/common/validation.cpp]: [validateID] and [validateSecret]
      (module [Validation]);
    - [src/nexus_sched.cpp]: the [SchedulerProcess] actor, its
      [TimeoutListener], and the [NexusSchedulerDriver] facade
      (module [Sched]).

    C++ [std::string] is [string]; [unordered_map] is stdpp's [gmap];
    [Option<Error>] is [option Error]. *)

From Stdlib Require Import Ascii PrimFloat.
From stdpp Require Import gmap strings list fin_maps pretty.

Local Open Scope string_scope.

(* ===================================================================== *)
(** * common/validation.cpp *)
(* ===================================================================== *)

Module Validation.

(** [Error] of stout: an error carries its message. *)
Record Error := mkError { message : string }.

(** [iscntrl] of <cctype> in the "C" locale: the codes 0..31 and 127
    (no byte above 127 is a control character there). *)
Definition iscntrl (c : ascii) : bool :=
  (nat_of_ascii c <? 32)%nat || (nat_of_ascii c =? 127)%nat.

(** [os::POSIX_PATH_SEPARATOR] and [os::WINDOWS_PATH_SEPARATOR] of
    stout/os/constants.hpp. *)
Definition POSIX_PATH_SEPARATOR : ascii := "/"%char.
Definition WINDOWS_PATH_SEPARATOR : ascii := "\"%char.

(** The lambda [invalidCharacter] of [validateID]. *)
Definition invalidCharacter (c : ascii) : bool :=
  iscntrl c
  || Ascii.eqb c POSIX_PATH_SEPARATOR
  || Ascii.eqb c WINDOWS_PATH_SEPARATOR.

(** [std::any_of(id.begin(), id.end(), pred)]. *)
Fixpoint any_of (pred : ascii → bool) (s : string) : bool :=
  match s with
  | EmptyString => false
  | String c s' => pred c || any_of pred s'
  end.

Section WithNameMax.

(** [NAME_MAX] comes from the platform's <limits.h>. *)
Variable NAME_MAX : nat.

Definition validateID (id : string) : option Error :=
  if String.eqb id "" then
    Some (mkError "ID must not be empty")
  else if (NAME_MAX <? String.length id)%nat then
    Some (mkError ("ID must not be greater than " +:+
                   pretty NAME_MAX +:+ " characters"))
  else if String.eqb id "." || String.eqb id ".." then
    Some (mkError ("'" +:+ id +:+ "' is disallowed"))
  else if any_of invalidCharacter id then
    Some (mkError ("'" +:+ id +:+ "' contains invalid characters"))
  else
    None.

End WithNameMax.

(** The rule on the characters of an ID, as the specification words it:
    no control character and no path separator. *)
Definition valid_characters (id : string) : Prop :=
  ∀ c, In c (String.list_ascii_of_string id) →
       iscntrl c = false ∧ c ≠ "/"%char ∧ c ≠ "\"%char.

(** The protobuf message [Secret]: an enum [Type] and two optional
    sub-messages; [has_reference()] and [has_value()] are [is_Some]. *)
Module Secret.
Inductive Type_ := UNKNOWN | REFERENCE | VALUE.
Record Reference := mkReference { name : string; key : option string }.
Record Value := mkValue { data : string }.
Record t := mk {
  type : Type_;
  reference : option Reference;
  value : option Value
}.
Definition has_reference (s : t) : bool := bool_decide (is_Some (reference s)).
Definition has_value (s : t) : bool := bool_decide (is_Some (value s)).
(** A protobuf getter on an unset sub-message yields the default
    instance, whose string fields are empty. *)
Definition reference_name (s : t) : string :=
  match reference s with Some r => name r | None => "" end.
End Secret.

Definition validateSecret (secret : Secret.t) : option Error :=
  match Secret.type secret with
  | Secret.REFERENCE =>
      if negb (Secret.has_reference secret) then
        Some (mkError
          "Secret of type REFERENCE must have the 'reference' field set")
      else if Secret.has_value secret then
        Some (mkError
          ("Secret '" +:+ Secret.reference_name secret +:+ "' of type REFERENCE " +:+
           "must not have the 'value' field set"))
      else None
  | Secret.VALUE =>
      if negb (Secret.has_value secret) then
        Some (mkError "Secret of type VALUE must have the 'value' field set")
      else if Secret.has_reference secret then
        Some (mkError
          "Secret of type VALUE must not have the 'reference' field set")
      else None
  | Secret.UNKNOWN => None
  end.

(** ** The other validators of common/validation.cpp *)

(** A [foreach] whose body returns from the function at the first
    error. *)
Fixpoint first_error {A} (body : A → option Error) (l : list A) : option Error :=
  match l with
  | [] => None
  | x :: l' =>
      match body x with
      | Some e => Some e
      | None => first_error body l'
      end
  end.

(** [secret.value().data()]: the getter of an unset sub-message yields
    the default instance, whose [data] is empty. *)
Definition secret_value_data (s : Secret.t) : string :=
  match Secret.value s with Some v => Secret.data v | None => "" end.

(** [data.find('\0') != string::npos]. *)
Definition has_null_byte (data : string) : bool :=
  any_of (Ascii.eqb "000"%char) data.

(** The protobuf message [Environment].  [type] is what the getter
    [type()] returns ([VALUE] when the field is unset). *)
Module Environment.
Inductive Type_ := UNKNOWN | VALUE | SECRET.
Record Variable_ := mkVariable {
  name : string;
  type : Type_;
  value : option string;
  secret : option Secret.t
}.
Record t := mk { variables : list Variable_ }.
(** [variable.secret()], the default instance when the field is unset. *)
Definition secret_of (v : Variable_) : Secret.t :=
  default (Secret.mk Secret.UNKNOWN None None) (secret v).
End Environment.

(** The body of the [foreach] of [validateEnvironment]. *)
Definition validateEnvironment_variable (variable : Environment.Variable_)
  : option Error :=
  match Environment.type variable with
  | Environment.SECRET =>
      if negb (bool_decide (is_Some (Environment.secret variable))) then
        Some (mkError ("Environment variable '" +:+ Environment.name variable +:+
                       "' of type 'SECRET' must have a secret set"))
      else if bool_decide (is_Some (Environment.value variable)) then
        Some (mkError ("Environment variable '" +:+ Environment.name variable +:+
                       "' of type 'SECRET' must not have a value set"))
      else
        match validateSecret (Environment.secret_of variable) with
        | Some error =>
            Some (mkError ("Environment variable '" +:+ Environment.name variable +:+
                           "' specifies an " +:+ "invalid secret: " +:+
                           message error))
        | None =>
            if has_null_byte (secret_value_data (Environment.secret_of variable))
            then
              Some (mkError ("Environment variable '" +:+
                             Environment.name variable +:+ "' specifies a " +:+
                             "secret containing null bytes, which is not allowed in the " +:+
                             "environment"))
            else None
        end
  | Environment.VALUE =>
      if negb (bool_decide (is_Some (Environment.value variable))) then
        Some (mkError ("Environment variable '" +:+ Environment.name variable +:+
                       "' of type 'VALUE' must have a value set"))
      else if bool_decide (is_Some (Environment.secret variable)) then
        Some (mkError ("Environment variable '" +:+ Environment.name variable +:+
                       "' of type 'VALUE' must not have a secret set"))
      else None
  | Environment.UNKNOWN =>
      Some (mkError "Environment variable of type 'UNKNOWN' is not allowed")
  end.

Definition validateEnvironment (environment : Environment.t) : option Error :=
  first_error validateEnvironment_variable (Environment.variables environment).

(** The protobuf message [CommandInfo], with the fields the validators
    read.  [shell()] is true when the field is unset. *)
Module CommandInfo.
Record t := mk {
  environment : option Environment.t;
  shell : option bool;
  value : option string
}.
Definition environment_of (c : t) : Environment.t :=
  default (Environment.mk []) (environment c).
Definition shell_of (c : t) : bool := default true (shell c).
End CommandInfo.

Definition validateCommandInfo (command : CommandInfo.t) : option Error :=
  validateEnvironment (CommandInfo.environment_of command).

(** The protobuf message [Volume].  A sub-message whose content no
    validator reads is kept as its bytes. *)
Module Volume.
Inductive SourceType := UNKNOWN | DOCKER_VOLUME | HOST_PATH | SANDBOX_PATH | SECRET.
Record Source := mkSource {
  type : SourceType;
  docker_volume : option string;
  source_host_path : option string;
  sandbox_path : option string;
  secret : option Secret.t
}.
Record t := mk {
  host_path : option string;
  image : option string;
  source : option Source
}.
End Volume.

Definition validateVolume (volume : Volume.t) : option Error :=
  let count := 0%nat in
  let count := if bool_decide (is_Some (Volume.host_path volume))
               then S count else count in
  let count := if bool_decide (is_Some (Volume.image volume))
               then S count else count in
  let count := if bool_decide (is_Some (Volume.source volume))
               then S count else count in
  if negb (count =? 1)%nat then
    Some (mkError ("Only one of them should be set: " +:+
                   "'host_path', 'image' and 'source'"))
  else
    match Volume.source volume with
    | Some source =>
        match Volume.type source with
        | Volume.DOCKER_VOLUME =>
            if negb (bool_decide (is_Some (Volume.docker_volume source))) then
              Some (mkError
                "'source.docker_volume' is not set for DOCKER_VOLUME volume")
            else None
        | Volume.HOST_PATH =>
            if negb (bool_decide (is_Some (Volume.source_host_path source))) then
              Some (mkError "'source.host_path' is not set for HOST_PATH volume")
            else None
        | Volume.SANDBOX_PATH =>
            if negb (bool_decide (is_Some (Volume.sandbox_path source))) then
              Some (mkError
                "'source.sandbox_path' is not set for SANDBOX_PATH volume")
            else None
        | Volume.SECRET =>
            if negb (bool_decide (is_Some (Volume.secret source))) then
              Some (mkError "'source.secret' is not set for SECRET volume")
            else None
        | Volume.UNKNOWN => Some (mkError "'source.type' is unknown")
        end
    | None => None
    end.

(** The protobuf message [ContainerInfo] with its [DockerInfo]. *)
Module ContainerInfo.
Inductive Type_ := DOCKER | MESOS.
Record Parameter_ := mkParameter { key : string; value : string }.
Record DockerInfo := mkDockerInfo { parameters : list Parameter_ }.
Record t := mk {
  type : Type_;
  volumes : list Volume.t;
  docker : option DockerInfo
}.
Definition docker_parameters (c : t) : list Parameter_ :=
  match docker c with Some d => parameters d | None => [] end.
End ContainerInfo.

Definition validateContainerInfo (containerInfo : ContainerInfo.t)
  : option Error :=
  match first_error
          (λ volume,
             match validateVolume volume with
             | Some error => Some (mkError ("Invalid volume: " +:+ message error))
             | None => None
             end)
          (ContainerInfo.volumes containerInfo) with
  | Some e => Some e
  | None =>
      match ContainerInfo.type containerInfo with
      | ContainerInfo.DOCKER =>
          if negb (bool_decide (is_Some (ContainerInfo.docker containerInfo))) then
            Some (mkError
              "DockerInfo 'docker' is not set for DOCKER typed ContainerInfo")
          else
            first_error
              (λ parameter,
                 if String.eqb (ContainerInfo.key parameter) "name" then
                   Some (mkError "Parameter in DockerInfo must not be 'name'")
                 else None)
              (ContainerInfo.docker_parameters containerInfo)
      | ContainerInfo.MESOS => None
      end
  end.

(** [strings::startsWith(s, c)] of stout. *)
Definition startsWith (s : string) (c : ascii) : bool :=
  match s with
  | String c' _ => Ascii.eqb c' c
  | EmptyString => false
  end.

(** [has_x() && x() < 0.0] for an optional [double] field. *)
Definition negative (x : option float) : bool :=
  match x with
  | Some d => PrimFloat.ltb d 0%float
  | None => false
  end.

(** The enum [CheckInfo::Type]; [HealthCheck::Type] has the same
    values.  [Type_Name] is only called on [UNKNOWN]. *)
Module CheckType.
Inductive t := UNKNOWN | COMMAND | HTTP | TCP.
Definition Type_Name (ty : t) : string :=
  match ty with
  | UNKNOWN => "UNKNOWN"
  | COMMAND => "COMMAND"
  | HTTP => "HTTP"
  | TCP => "TCP"
  end.
End CheckType.

(** The protobuf message [HealthCheck]. *)
Module HealthCheck.
Record HTTPCheckInfo := mkHTTP {
  scheme : option string;
  path : option string
}.
(** The getters [scheme()] and [path()], empty when the field is unset. *)
Definition scheme_of (h : HTTPCheckInfo) : string := default "" (scheme h).
Definition path_of (h : HTTPCheckInfo) : string := default "" (path h).
Record t := mk {
  type : option CheckType.t;
  command : option CommandInfo.t;
  http : option HTTPCheckInfo;
  tcp : option string;
  delay_seconds : option float;
  grace_period_seconds : option float;
  interval_seconds : option float;
  timeout_seconds : option float
}.
End HealthCheck.

Definition validateHealthCheck (healthCheck : HealthCheck.t) : option Error :=
  match HealthCheck.type healthCheck with
  | None => Some (mkError "HealthCheck must specify 'type'")
  | Some type =>
      let by_type :=
        match type with
        | CheckType.COMMAND =>
            match HealthCheck.command healthCheck with
            | None =>
                Some (mkError
                  "Expecting 'command' to be set for COMMAND health check")
            | Some command =>
                if negb (bool_decide (is_Some (CommandInfo.value command))) then
                  let commandType :=
                    if CommandInfo.shell_of command then "'shell command'"
                    else "'executable path'" in
                  Some (mkError
                    ("Command health check must contain " +:+ commandType))
                else
                  match validateCommandInfo command with
                  | Some error =>
                      Some (mkError
                        ("Health check's `CommandInfo` is invalid: " +:+
                         message error))
                  | None => None
                  end
            end
        | CheckType.HTTP =>
            match HealthCheck.http healthCheck with
            | None =>
                Some (mkError "Expecting 'http' to be set for HTTP health check")
            | Some http =>
                if bool_decide (is_Some (HealthCheck.scheme http)) &&
                   negb (String.eqb (HealthCheck.scheme_of http) "http") &&
                   negb (String.eqb (HealthCheck.scheme_of http) "https") then
                  Some (mkError
                    ("Unsupported HTTP health check scheme: '" +:+
                     HealthCheck.scheme_of http +:+ "'"))
                else if bool_decide (is_Some (HealthCheck.path http)) &&
                        negb (startsWith (HealthCheck.path_of http) "/"%char) then
                  Some (mkError
                    ("The path '" +:+ HealthCheck.path_of http +:+
                     "' of HTTP health check must start with '/'"))
                else None
            end
        | CheckType.TCP =>
            if negb (bool_decide (is_Some (HealthCheck.tcp healthCheck))) then
              Some (mkError "Expecting 'tcp' to be set for TCP health check")
            else None
        | CheckType.UNKNOWN =>
            Some (mkError
              ("'" +:+ CheckType.Type_Name type +:+ "'" +:+
               " is not a valid health check type"))
        end in
      match by_type with
      | Some e => Some e
      | None =>
          if negative (HealthCheck.delay_seconds healthCheck) then
            Some (mkError "Expecting 'delay_seconds' to be non-negative")
          else if negative (HealthCheck.grace_period_seconds healthCheck) then
            Some (mkError "Expecting 'grace_period_seconds' to be non-negative")
          else if negative (HealthCheck.interval_seconds healthCheck) then
            Some (mkError "Expecting 'interval_seconds' to be non-negative")
          else if negative (HealthCheck.timeout_seconds healthCheck) then
            Some (mkError "Expecting 'timeout_seconds' to be non-negative")
          else None
      end
  end.

(** The protobuf message [CheckInfo]; the [CommandInfo] of a command
    check sits in a nested message with one required field. *)
Module CheckInfo.
Record Command := mkCommand { command_info : CommandInfo.t }.
Record Http := mkHttp { path : option string }.
(** The getter [path()], empty when the field is unset. *)
Definition path_of (h : Http) : string := default "" (path h).
Record t := mk {
  type : option CheckType.t;
  command : option Command;
  http : option Http;
  tcp : option string;
  delay_seconds : option float;
  interval_seconds : option float;
  timeout_seconds : option float
}.
End CheckInfo.

Definition validateCheckInfo (checkInfo : CheckInfo.t) : option Error :=
  match CheckInfo.type checkInfo with
  | None => Some (mkError "CheckInfo must specify 'type'")
  | Some type =>
      let by_type :=
        match type with
        | CheckType.COMMAND =>
            match CheckInfo.command checkInfo with
            | None =>
                Some (mkError "Expecting 'command' to be set for COMMAND check")
            | Some c =>
                let command := CheckInfo.command_info c in
                if negb (bool_decide (is_Some (CommandInfo.value command))) then
                  let commandType :=
                    if CommandInfo.shell_of command then "'shell command'"
                    else "'executable path'" in
                  Some (mkError ("Command check must contain " +:+ commandType))
                else
                  match validateCommandInfo command with
                  | Some error =>
                      Some (mkError
                        ("Check's `CommandInfo` is invalid: " +:+ message error))
                  | None => None
                  end
            end
        | CheckType.HTTP =>
            match CheckInfo.http checkInfo with
            | None => Some (mkError "Expecting 'http' to be set for HTTP check")
            | Some http =>
                if bool_decide (is_Some (CheckInfo.path http)) &&
                   negb (startsWith (CheckInfo.path_of http) "/"%char) then
                  Some (mkError
                    ("The path '" +:+ CheckInfo.path_of http +:+
                     "' of HTTP check must start with '/'"))
                else None
            end
        | CheckType.TCP =>
            if negb (bool_decide (is_Some (CheckInfo.tcp checkInfo))) then
              Some (mkError "Expecting 'tcp' to be set for TCP check")
            else None
        | CheckType.UNKNOWN =>
            Some (mkError
              ("'" +:+ CheckType.Type_Name type +:+ "'" +:+
               " is not a valid check type"))
        end in
      match by_type with
      | Some e => Some e
      | None =>
          if negative (CheckInfo.delay_seconds checkInfo) then
            Some (mkError "Expecting 'delay_seconds' to be non-negative")
          else if negative (CheckInfo.interval_seconds checkInfo) then
            Some (mkError "Expecting 'interval_seconds' to be non-negative")
          else if negative (CheckInfo.timeout_seconds checkInfo) then
            Some (mkError "Expecting 'timeout_seconds' to be non-negative")
          else None
      end
  end.

(** The protobuf message [CheckStatusInfo]. *)
Module CheckStatusInfo.
Record t := mk {
  type : option CheckType.t;
  command : option string;
  http : option string;
  tcp : option string
}.
End CheckStatusInfo.

Definition validateCheckStatusInfo (checkStatusInfo : CheckStatusInfo.t)
  : option Error :=
  match CheckStatusInfo.type checkStatusInfo with
  | None => Some (mkError "CheckStatusInfo must specify 'type'")
  | Some type =>
      match type with
      | CheckType.COMMAND =>
          if negb (bool_decide (is_Some (CheckStatusInfo.command checkStatusInfo)))
          then Some (mkError
                 "Expecting 'command' to be set for COMMAND check's status")
          else None
      | CheckType.HTTP =>
          if negb (bool_decide (is_Some (CheckStatusInfo.http checkStatusInfo)))
          then Some (mkError "Expecting 'http' to be set for HTTP check's status")
          else None
      | CheckType.TCP =>
          if negb (bool_decide (is_Some (CheckStatusInfo.tcp checkStatusInfo)))
          then Some (mkError "Expecting 'tcp' to be set for TCP check's status")
          else None
      | CheckType.UNKNOWN =>
          Some (mkError
            ("'" +:+ CheckType.Type_Name type +:+ "'" +:+
             " is not a valid check's status type"))
      end
  end.

(** The four ID validators, each [validateID] of the value of the ID. *)
Section WithNameMaxIDs.
Variable NAME_MAX : nat.
Definition validateTaskID (taskId : string) : option Error :=
  validateID NAME_MAX taskId.
Definition validateExecutorID (executorId : string) : option Error :=
  validateID NAME_MAX executorId.
Definition validateSlaveID (slaveId : string) : option Error :=
  validateID NAME_MAX slaveId.
Definition validateFrameworkID (frameworkId : string) : option Error :=
  validateID NAME_MAX frameworkId.
End WithNameMaxIDs.

(** ** What the other validators let pass *)

(** An environment variable is well formed: of type SECRET with a valid
    secret free of null bytes and no value, or of type VALUE with a value
    and no secret. *)
Definition variable_ok (v : Environment.Variable_) : Prop :=
  match Environment.type v with
  | Environment.SECRET =>
      ∃ s, Environment.secret v = Some s ∧ Environment.value v = None ∧
           validateSecret s = None ∧ has_null_byte (secret_value_data s) = false
  | Environment.VALUE =>
      is_Some (Environment.value v) ∧ Environment.secret v = None
  | Environment.UNKNOWN => False
  end.

(** The source of a volume carries the field its type names. *)
Definition source_ok (s : Volume.Source) : Prop :=
  match Volume.type s with
  | Volume.DOCKER_VOLUME => is_Some (Volume.docker_volume s)
  | Volume.HOST_PATH => is_Some (Volume.source_host_path s)
  | Volume.SANDBOX_PATH => is_Some (Volume.sandbox_path s)
  | Volume.SECRET => is_Some (Volume.secret s)
  | Volume.UNKNOWN => False
  end.

(** Exactly one of [host_path], [image] and [source] is set, and a
    source is well formed. *)
Definition volume_ok (v : Volume.t) : Prop :=
  match Volume.host_path v, Volume.image v, Volume.source v with
  | Some _, None, None => True
  | None, Some _, None => True
  | None, None, Some s => source_ok s
  | _, _, _ => False
  end.

(** The part of a health check or check that depends on its type. *)
Definition command_ok (c : CommandInfo.t) : Prop :=
  is_Some (CommandInfo.value c) ∧
  Forall variable_ok (Environment.variables (CommandInfo.environment_of c)).

Definition path_ok (path : option string) : Prop :=
  ∀ p, path = Some p → ∃ rest, p = String "/"%char rest.

Definition health_check_ok (h : HealthCheck.t) : Prop :=
  match HealthCheck.type h with
  | Some CheckType.COMMAND =>
      ∃ c, HealthCheck.command h = Some c ∧ command_ok c
  | Some CheckType.HTTP =>
      ∃ http, HealthCheck.http h = Some http ∧
        (∀ s, HealthCheck.scheme http = Some s → s = "http" ∨ s = "https") ∧
        path_ok (HealthCheck.path http)
  | Some CheckType.TCP => is_Some (HealthCheck.tcp h)
  | Some CheckType.UNKNOWN | None => False
  end
  ∧ negative (HealthCheck.delay_seconds h) = false
  ∧ negative (HealthCheck.grace_period_seconds h) = false
  ∧ negative (HealthCheck.interval_seconds h) = false
  ∧ negative (HealthCheck.timeout_seconds h) = false.

Definition check_info_ok (c : CheckInfo.t) : Prop :=
  match CheckInfo.type c with
  | Some CheckType.COMMAND =>
      ∃ cmd, CheckInfo.command c = Some cmd ∧
             command_ok (CheckInfo.command_info cmd)
  | Some CheckType.HTTP =>
      ∃ http, CheckInfo.http c = Some http ∧ path_ok (CheckInfo.path http)
  | Some CheckType.TCP => is_Some (CheckInfo.tcp c)
  | Some CheckType.UNKNOWN | None => False
  end
  ∧ negative (CheckInfo.delay_seconds c) = false
  ∧ negative (CheckInfo.interval_seconds c) = false
  ∧ negative (CheckInfo.timeout_seconds c) = false.

(** A check written as a health check: the same type and fields, no
    scheme and no grace period. *)
Definition health_check_of (c : CheckInfo.t) : HealthCheck.t :=
  HealthCheck.mk (CheckInfo.type c)
    (CheckInfo.command_info <$> CheckInfo.command c)
    ((λ h, HealthCheck.mkHTTP None (CheckInfo.path h)) <$> CheckInfo.http c)
    (CheckInfo.tcp c)
    (CheckInfo.delay_seconds c) None (CheckInfo.interval_seconds c)
    (CheckInfo.timeout_seconds c).

(** The statuses [validateCheckStatusInfo] is to accept. *)
Definition check_status_ok (st : CheckStatusInfo.t) : Prop :=
  match CheckStatusInfo.type st with
  | Some CheckType.COMMAND => is_Some (CheckStatusInfo.command st)
  | Some CheckType.HTTP => is_Some (CheckStatusInfo.http st)
  | Some CheckType.TCP => is_Some (CheckStatusInfo.tcp st)
  | Some CheckType.UNKNOWN | None => False
  end.

(** A status for a check: the same type, and a status field for every
    field of the check that is set. *)
Definition status_of (c : CheckInfo.t) : CheckStatusInfo.t :=
  CheckStatusInfo.mk (CheckInfo.type c)
    ((λ _, "") <$> CheckInfo.command c)
    ((λ _, "") <$> CheckInfo.http c)
    ((λ _, "") <$> CheckInfo.tcp c).

End Validation.

(* ===================================================================== *)
(** * nexus_sched.cpp *)
(* ===================================================================== *)

Module Sched.

(** ** Identifiers and wire data

    [FrameworkID], [OfferID] and [SlaveID] are [std::string] (the source
    calls [.empty()] and [.c_str()] on them); [TaskID] is numeric (it is
    passed to the C API as it is). *)
Abbreviation FrameworkID := string (only parsing).
Abbreviation OfferID := string (only parsing).
Abbreviation SlaveID := string (only parsing).
Abbreviation TaskID := N (only parsing).

(** Modelled from the spec: the endpoint address [PID] is declared in
    libprocess (process.hpp), which is not part of the sources.  It is an
    opaque locator (logical id, host, port), comparable for equality; a
    default-constructed [PID()] is the null address, and [!pid] tests for
    it. *)
Record PID := mkPID { pid_id : N; pid_ip : N; pid_port : N }.

Definition PID_default : PID := mkPID 0 0 0.

#[global] Instance PID_eq_dec : EqDecision PID.
Proof. solve_decision. Defined.

Definition PID_bool (p : PID) : bool := bool_decide (p ≠ PID_default).

Abbreviation Params := (gmap string string) (only parsing).

Inductive TaskState :=
  TASK_STARTING | TASK_RUNNING | TASK_FINISHED | TASK_FAILED | TASK_KILLED | TASK_LOST.

Record ExecutorInfo := mkExecutorInfo { uri : string; initArg : string }.

Module SlaveOffer.
Record t := mk {
  slaveId : SlaveID;
  host : string;
  params : Params;
  slavePid : PID
}.
End SlaveOffer.

Module TaskDescription.
Record t := mk {
  taskId : TaskID;
  slaveId : SlaveID;
  name : string;
  params : Params;
  arg : string
}.
End TaskDescription.

Module TaskStatus.
Record t := mk { taskId : TaskID; state : TaskState; data : string }.
End TaskStatus.

Module FrameworkMessage.
Record t := mk { slaveId : SlaveID; taskId : TaskID; data : string }.
End FrameworkMessage.

(** The message tags of messages.hpp that the scheduler sends or
    receives, each with the tuple it packs.  [OTHER] stands for every tag
    the scheduler's switch has no case for. *)
Inductive Msg :=
| F2M_REGISTER_FRAMEWORK (name user : string) (execInfo : ExecutorInfo)
| F2M_REREGISTER_FRAMEWORK (fid : FrameworkID) (name user : string)
    (execInfo : ExecutorInfo)
| F2M_UNREGISTER_FRAMEWORK (fid : FrameworkID)
| F2M_SLOT_OFFER_REPLY (fid : FrameworkID) (oid : OfferID)
    (tasks : list TaskDescription.t) (params : Params)
| F2M_FT_SLOT_OFFER_REPLY (ftId : string) (origPid : PID) (fid : FrameworkID)
    (oid : OfferID) (tasks : list TaskDescription.t) (params : Params)
| F2M_KILL_TASK (fid : FrameworkID) (tid : TaskID)
| F2M_REVIVE_OFFERS (fid : FrameworkID)
| F2F_SLOT_OFFER_REPLY (oid : OfferID) (tasks : list TaskDescription.t)
    (params : Params)
| F2F_FRAMEWORK_MESSAGE (msg : FrameworkMessage.t)
| M2F_REGISTER_REPLY (fid : FrameworkID)
| M2F_SLOT_OFFER (oid : OfferID) (offs : list SlaveOffer.t)
| M2F_RESCIND_OFFER (oid : OfferID)
| M2F_STATUS_UPDATE (tid : TaskID) (state : TaskState) (data : string)
| M2F_FT_STATUS_UPDATE (ftId origPid : string) (tid : TaskID)
    (state : TaskState) (data : string)
| M2F_FRAMEWORK_MESSAGE (msg : FrameworkMessage.t)
| M2F_FT_FRAMEWORK_MESSAGE (ftId origPid : string) (msg : FrameworkMessage.t)
| M2F_LOST_SLAVE (sid : SlaveID)
| M2F_ERROR (code : Z) (message : string)
| M2S_FRAMEWORK_MESSAGE (fid : FrameworkID) (msg : FrameworkMessage.t)
| NEW_MASTER_DETECTED (masterSeq : string) (masterPid : PID)
| NO_MASTER_DETECTED
| FT_RELAY_ACK (ftId senderStr : string)
| PROCESS_EXIT
| PROCESS_TIMEOUT
| OTHER (tag : N).

(** The virtual methods of [Scheduler] that the actor invokes. *)
Inductive Callback :=
| registered (fid : FrameworkID)
| resourceOffer (oid : OfferID) (offs : list SlaveOffer.t)
| offerRescinded (oid : OfferID)
| statusUpdate (status : TaskStatus.t)
| frameworkMessage (msg : FrameworkMessage.t)
| slaveLost (sid : SlaveID)
| error (code : Z) (message : string).

(** What a piece of code does to the outside: [send(dst, m)] to another
    endpoint, [send(self(), m)] of the process at heap index [who] (into
    its own mailbox), [link(p)], and [invoke] of a user callback. *)
Inductive Effect :=
| Send (dst : PID) (m : Msg)
| Post (who : nat) (m : Msg)
| Link (p : PID)
| Invoke (c : Callback).

(** ** Collaborators that are not part of the sources *)

Inductive URLType := ZOO | NEXUS | UNKNOWN.

(** Modelled from the spec: what the actor and the facade use of
    url_processor.hpp, libprocess, nexus_local.hpp, the C library and the
    constants of ft_messaging.hpp, none of which is under src/. *)
Record Env := mkEnv {
  (** [UrlProcessor::process]: the kind of a master string and its payload *)
  UrlProcessor_process : string → URLType * string;
  (** [make_pid]: parse an address; the null [PID] when it does not resolve *)
  make_pid : string → PID;
  (** [run_nexus(slaves, cpus, mem, initLogging, quiet)]: start the
      in-process cluster and return the address of its master *)
  run_nexus : nat → nat → N → bool → bool → string;
  (** [getpwuid(getuid())->pw_name], [None] when the lookup fails *)
  pw_name : option string;
  (** the address libprocess gives to the n-th spawned process *)
  spawn_pid : nat → PID;
  (** [operator<<] on a [PID] *)
  PID_print : PID → string;
  (** [msgid()] of a received message: the value of its tag in the enum
      of messages.hpp *)
  msgid : Msg → N;
  (** reliable-delivery cadence: first backoff, backoff cap, total deadline *)
  FT_BACKOFF : N;
  FT_BACKOFF_CAP : N;
  FT_DEADLINE : N
}.

(** ** TimeoutListener (nexus_sched.cpp, lines 87-102) *)

(** [parent] is the [SchedulerProcess*], here the index of the process in
    the heap of spawned processes. *)
Record TimeoutListener := mkTimeoutListener {
  parent : nat;
  tasks : list TaskDescription.t
}.

Definition TimeoutListener_timeout (l : TimeoutListener) : list Effect :=
  map (λ t, Post (parent l)
                 (M2F_STATUS_UPDATE (TaskDescription.taskId t) TASK_LOST ""))
      (tasks l).

(** ** The reliable-delivery overlay, FTMessaging *)

(** Modelled from the spec: the class [FTMessaging] (ft_messaging.hpp) is
    not under src/; section 4.4 of the specification describes it.  An
    outstanding reliable send. *)
Record Outstanding := mkOutstanding {
  o_payload : Msg;
  o_dst : PID;
  o_attempts : nat;
  o_next_retry_at : N;
  o_deadline : N;
  o_on_timeout : TimeoutListener
}.

(** Modelled from the spec: the state of [FTMessaging]: the outstanding
    sends by message id (in the order they were stored), the current known
    master endpoint, the counter behind [next_id], and the [(id, origin)]
    pairs recorded by [accept]. *)
Record FTMessaging := mkFTMessaging {
  ft_outstanding : list (string * Outstanding);
  ft_master : PID;
  ft_next : N;
  ft_accepted : gset (string * string)
}.

Definition FTMessaging_initial : FTMessaging :=
  mkFTMessaging [] PID_default 0 ∅.

(** Modelled from the spec: tell the overlay the new master. *)
Definition setMasterPid (ft : FTMessaging) (m : PID) : FTMessaging :=
  mkFTMessaging (ft_outstanding ft) m (ft_next ft) (ft_accepted ft).

(** Modelled from the spec: [next_id() → MsgId], monotonic, unique for the
    lifetime of the driver. *)
Definition getNextId (ft : FTMessaging) : string * FTMessaging :=
  (pretty (ft_next ft),
   mkFTMessaging (ft_outstanding ft) (ft_master ft) (ft_next ft + 1)%N
                 (ft_accepted ft)).

(** Modelled from the spec: [accept(id, origin) → bool]: the first call for
    a given [(id, origin)] returns true and records dedup, subsequent calls
    return false; in all cases an ack [FT_RelayAck(id, origin)] is sent
    back to [origin]. *)
Definition acceptMessageAck (env : Env) (ft : FTMessaging) (ftId origPid : string)
  : bool * FTMessaging * list Effect :=
  (bool_decide ((ftId, origPid) ∉ ft_accepted ft),
   mkFTMessaging (ft_outstanding ft) (ft_master ft) (ft_next ft)
                 ({[ (ftId, origPid) ]} ∪ ft_accepted ft),
   [Send (make_pid env origPid) (FT_RELAY_ACK ftId origPid)]).

(** Modelled from the spec: [ack(id)]: remove from outstanding. *)
Definition gotAck (ft : FTMessaging) (ftId : string) : FTMessaging :=
  mkFTMessaging (filter (λ e, e.1 ≠ ftId) (ft_outstanding ft))
                (ft_master ft) (ft_next ft) (ft_accepted ft).

(** Modelled from the spec: [reliable_send(id, payload, on_timeout)]: store
    the entry, transmit once immediately, arm retries. *)
Definition reliableSend (env : Env) (now : N) (ft : FTMessaging)
    (ftId : string) (payload : Msg) (cb : TimeoutListener)
  : FTMessaging * list Effect :=
  let o := mkOutstanding payload (ft_master ft) 1
             (now + FT_BACKOFF env)%N (now + FT_DEADLINE env)%N cb in
  (mkFTMessaging (ft_outstanding ft ++ [(ftId, o)])%list (ft_master ft) (ft_next ft)
                 (ft_accepted ft),
   [Send (ft_master ft) payload]).

(** Modelled from the spec: the backoff before the next retry grows
    exponentially with the attempts made, up to a cap. *)
Definition backoff (env : Env) (attempts : nat) : N :=
  N.min (FT_BACKOFF_CAP env) (FT_BACKOFF env * 2 ^ N.of_nat attempts)%N.

(** Modelled from the spec: [tick()], one outstanding entry: if its next
    retry time has passed, either retransmit (incrementing attempts and
    backoff) or, if the total deadline is exceeded, remove the entry and
    invoke [on_timeout()].  The result is the entry to keep, if any, and
    the effects. *)
Definition tick_entry (env : Env) (now : N) (m : PID) (e : string * Outstanding)
  : option (string * Outstanding) * list Effect :=
  let o := e.2 in
  if (o_next_retry_at o <=? now)%N then
    if (o_deadline o <=? now)%N then
      (None, TimeoutListener_timeout (o_on_timeout o))
    else
      (Some (e.1, mkOutstanding (o_payload o) m (S (o_attempts o))
                    (now + backoff env (o_attempts o))%N (o_deadline o)
                    (o_on_timeout o)),
       [Send m (o_payload o)])
  else (Some e, []).

(** Modelled from the spec: [tick()], called on [ProcessTimeout], over
    every outstanding entry. *)
Definition sendOutstanding (env : Env) (now : N) (ft : FTMessaging)
  : FTMessaging * list Effect :=
  let rs := map (tick_entry env now (ft_master ft)) (ft_outstanding ft) in
  (mkFTMessaging (omap fst rs) (ft_master ft) (ft_next ft) (ft_accepted ft),
   concat (map snd rs)).

(** ** SchedulerProcess (nexus_sched.cpp, lines 62-384) *)

(** Where the thread of an actor stands in [operator()]: before the
    preamble, at the head of the loop (about to read [terminate]), inside
    [receive], or returned. *)
Inductive Pc := PcStart | PcLoop | PcReceive | PcDone.

(** The members of the class, preceded by what libprocess keeps for the
    process ([self()], the mailbox of [(from, message)] pairs, the program
    point) and the local [user] of [operator()].  [masterDetector] records
    whether the pointer is non-NULL.  The [driver] and [sched] pointers do
    not change and are left out; [ftMsg] points to the singleton, which
    lives in the system state. *)
Record SchedulerProcess := mkSchedulerProcess {
  self : PID;
  mailbox : list (PID * Msg);
  pc : Pc;
  user : string;
  master : PID;
  fid : FrameworkID;
  frameworkName : string;
  execInfo : ExecutorInfo;
  isFT : bool;
  zkServers : string;
  masterDetector : bool;
  savedOffers : gmap OfferID (gmap SlaveID PID);
  savedSlavePids : gmap SlaveID PID;
  terminate : bool
}.

Definition set_self (v : PID) (p : SchedulerProcess) : SchedulerProcess :=
  mkSchedulerProcess v (mailbox p) (pc p) (user p) (master p) (fid p)
    (frameworkName p) (execInfo p) (isFT p) (zkServers p) (masterDetector p)
    (savedOffers p) (savedSlavePids p) (terminate p).

Definition set_mailbox (v : list (PID * Msg)) (p : SchedulerProcess) : SchedulerProcess :=
  mkSchedulerProcess (self p) v (pc p) (user p) (master p) (fid p)
    (frameworkName p) (execInfo p) (isFT p) (zkServers p) (masterDetector p)
    (savedOffers p) (savedSlavePids p) (terminate p).

Definition set_pc (v : Pc) (p : SchedulerProcess) : SchedulerProcess :=
  mkSchedulerProcess (self p) (mailbox p) v (user p) (master p) (fid p)
    (frameworkName p) (execInfo p) (isFT p) (zkServers p) (masterDetector p)
    (savedOffers p) (savedSlavePids p) (terminate p).

Definition set_user (v : string) (p : SchedulerProcess) : SchedulerProcess :=
  mkSchedulerProcess (self p) (mailbox p) (pc p) v (master p) (fid p)
    (frameworkName p) (execInfo p) (isFT p) (zkServers p) (masterDetector p)
    (savedOffers p) (savedSlavePids p) (terminate p).

Definition set_master (v : PID) (p : SchedulerProcess) : SchedulerProcess :=
  mkSchedulerProcess (self p) (mailbox p) (pc p) (user p) v (fid p)
    (frameworkName p) (execInfo p) (isFT p) (zkServers p) (masterDetector p)
    (savedOffers p) (savedSlavePids p) (terminate p).

Definition set_fid (v : FrameworkID) (p : SchedulerProcess) : SchedulerProcess :=
  mkSchedulerProcess (self p) (mailbox p) (pc p) (user p) (master p) v
    (frameworkName p) (execInfo p) (isFT p) (zkServers p) (masterDetector p)
    (savedOffers p) (savedSlavePids p) (terminate p).

Definition set_masterDetector (v : bool) (p : SchedulerProcess) : SchedulerProcess :=
  mkSchedulerProcess (self p) (mailbox p) (pc p) (user p) (master p) (fid p)
    (frameworkName p) (execInfo p) (isFT p) (zkServers p) v (savedOffers p)
    (savedSlavePids p) (terminate p).

Definition set_savedOffers (v : gmap OfferID (gmap SlaveID PID)) (p : SchedulerProcess) : SchedulerProcess :=
  mkSchedulerProcess (self p) (mailbox p) (pc p) (user p) (master p) (fid p)
    (frameworkName p) (execInfo p) (isFT p) (zkServers p) (masterDetector p) v
    (savedSlavePids p) (terminate p).

Definition set_savedSlavePids (v : gmap SlaveID PID) (p : SchedulerProcess) : SchedulerProcess :=
  mkSchedulerProcess (self p) (mailbox p) (pc p) (user p) (master p) (fid p)
    (frameworkName p) (execInfo p) (isFT p) (zkServers p) (masterDetector p)
    (savedOffers p) v (terminate p).

Definition set_terminate (v : bool) (p : SchedulerProcess) : SchedulerProcess :=
  mkSchedulerProcess (self p) (mailbox p) (pc p) (user p) (master p) (fid p)
    (frameworkName p) (execInfo p) (isFT p) (zkServers p) (masterDetector p)
    (savedOffers p) (savedSlavePids p) v.

(** The constructor.  [None] is [exit(1)] when the master does not
    resolve.  [self()] is assigned when the process is spawned. *)
Definition SchedulerProcess_new (env : Env) (_master : string)
    (_frameworkName : string) (_execInfo : ExecutorInfo)
  : option SchedulerProcess :=
  let urlPair := UrlProcessor_process env _master in
  let mk isFT zkServers master :=
    mkSchedulerProcess PID_default [] PcStart "" master "" _frameworkName
      _execInfo isFT zkServers false ∅ ∅ false in
  let static master :=
    if negb (PID_bool master) then None else Some (mk false "" master) in
  match urlPair.1 with
  | ZOO => Some (mk true urlPair.2 PID_default)
  | NEXUS => static (make_pid env urlPair.2)
  | UNKNOWN => static (make_pid env _master)
  end.

(** [m[k]] of [unordered_map]: a missing key is first inserted with a
    value-initialised element; the result is the element and the map. *)
Definition subscript `{Countable K} {V} (d : V) (m : gmap K V) (k : K)
  : V * gmap K V :=
  match m !! k with
  | Some v => (v, m)
  | None => (d, <[k := d]> m)
  end.

(** [savedOffers[oid][slaveId] = slavePid], the body of the loop of case
    M2F_SLOT_OFFER. *)
Definition save_offer (oid : OfferID)
    (so : gmap OfferID (gmap SlaveID PID)) (offer : SlaveOffer.t)
  : gmap OfferID (gmap SlaveID PID) :=
  let '(inner, so) := subscript ∅ so oid in
  <[oid := <[SlaveOffer.slaveId offer := SlaveOffer.slavePid offer]> inner]> so.

(** [savedSlavePids[task.slaveId] = savedOffers[oid][task.slaveId]], the
    body of the loop of case F2F_SLOT_OFFER_REPLY, on the pair of maps. *)
Definition keep_slave_pid (oid : OfferID)
    (st : gmap OfferID (gmap SlaveID PID) * gmap SlaveID PID)
    (task : TaskDescription.t)
  : gmap OfferID (gmap SlaveID PID) * gmap SlaveID PID :=
  let '(inner, so) := subscript ∅ st.1 oid in
  let '(pid, inner) := subscript PID_default inner (TaskDescription.slaveId task) in
  (<[oid := inner]> so, <[TaskDescription.slaveId task := pid]> st.2).

(** The body of the [switch] of [operator()] for one received message:
    [this] is the index of the process in the heap, [now] the clock the
    overlay reads, [from] the sender ([from()]).  The result is the new
    overlay state, the new process state, and the effects in program
    order. *)
Definition dispatch (env : Env) (this : nat) (now : N) (from : PID) (m : Msg)
    (ft : FTMessaging) (p : SchedulerProcess)
  : FTMessaging * SchedulerProcess * list Effect :=
  match m with
  | NEW_MASTER_DETECTED masterSeq masterPid =>
      let p := set_master masterPid p in
      let ft := setMasterPid ft (master p) in
      (ft, p,
       [Link (master p);
        if String.eqb (fid p) "" then
          Send (master p)
               (F2M_REGISTER_FRAMEWORK (frameworkName p) (user p) (execInfo p))
        else
          Send (master p)
               (F2M_REREGISTER_FRAMEWORK (fid p) (frameworkName p) (user p)
                                         (execInfo p))])
  | NO_MASTER_DETECTED => (ft, p, [])
  | M2F_REGISTER_REPLY fid' =>
      let p := set_fid fid' p in
      (ft, p, [Invoke (registered (fid p))])
  | M2F_SLOT_OFFER oid offs =>
      let p := set_savedOffers (foldl (save_offer oid) (savedOffers p) offs) p in
      (ft, p, [Invoke (resourceOffer oid offs)])
  | F2F_SLOT_OFFER_REPLY oid tasks params =>
      let st := foldl (keep_slave_pid oid) (savedOffers p, savedSlavePids p) tasks in
      let p := set_savedSlavePids st.2 (set_savedOffers st.1 p) in
      let p := set_savedOffers (delete oid (savedOffers p)) p in
      if isFT p then
        let tListener := mkTimeoutListener this tasks in
        let '(ftId, ft) := getNextId ft in
        let '(ft, effs) :=
          reliableSend env now ft ftId
            (F2M_FT_SLOT_OFFER_REPLY ftId (self p) (fid p) oid tasks params)
            tListener in
        (ft, p, effs)
      else
        (ft, p, [Send (master p) (F2M_SLOT_OFFER_REPLY (fid p) oid tasks params)])
  | F2F_FRAMEWORK_MESSAGE msg =>
      let '(pid, pids) :=
        subscript PID_default (savedSlavePids p) (FrameworkMessage.slaveId msg) in
      let p := set_savedSlavePids pids p in
      (ft, p, [Send pid (M2S_FRAMEWORK_MESSAGE (fid p) msg)])
  | M2F_RESCIND_OFFER oid =>
      let p := set_savedOffers (delete oid (savedOffers p)) p in
      (ft, p, [Invoke (offerRescinded oid)])
  | M2F_FT_STATUS_UPDATE ftId origPid tid state data =>
      let '(accepted, ft, effs) := acceptMessageAck env ft ftId origPid in
      if negb accepted then (ft, p, effs)
      else
        let status := TaskStatus.mk tid state data in
        (ft, p, (effs ++ [Invoke (statusUpdate status)])%list)
  | M2F_STATUS_UPDATE tid state data =>
      let status := TaskStatus.mk tid state data in
      (ft, p, [Invoke (statusUpdate status)])
  | M2F_FT_FRAMEWORK_MESSAGE ftId origPid msg =>
      let '(accepted, ft, effs) := acceptMessageAck env ft ftId origPid in
      if negb accepted then (ft, p, effs)
      else (ft, p, (effs ++ [Invoke (frameworkMessage msg)])%list)
  | M2F_FRAMEWORK_MESSAGE msg =>
      (ft, p, [Invoke (frameworkMessage msg)])
  | M2F_LOST_SLAVE sid =>
      let p := set_savedSlavePids (delete sid (savedSlavePids p)) p in
      (ft, p, [Invoke (slaveLost sid)])
  | M2F_ERROR code message =>
      (ft, p, [Invoke (error code message)])
  | PROCESS_EXIT =>
      if isFT p then (ft, p, [])
      else (ft, p, [Invoke (error (-1) "Connection to master failed")])
  | FT_RELAY_ACK ftId senderStr =>
      (gotAck ft ftId, p, [])
  | PROCESS_TIMEOUT =>
      let '(ft, effs) := sendOutstanding env now ft in
      (ft, p, effs)
  | _ =>
      (ft, p,
       [Invoke (error (-1)
          ("SchedulerProcess received unknown message " +:+ pretty (msgid env m) +:+
           " from " +:+ PID_print env from +:+ String "010"%char ""))])
  end.

(** ** NexusSchedulerDriver (nexus_sched.cpp, lines 433-630) *)

(** The user's [Scheduler] object as far as the facade reads it: what its
    two getters return.  Its other virtual methods are the [Callback]s. *)
Record Scheduler := mkScheduler {
  getFrameworkName : string;
  getExecutorInfo : ExecutorInfo
}.

(** The default implementations of the two getters. *)
Definition Scheduler_default : Scheduler :=
  mkScheduler "Unnamed Framework" (mkExecutorInfo "" "").

(** The members of the driver; [process] is the [SchedulerProcess*], an
    index into the heap of processes, [None] for NULL. *)
Module Driver.
Record t := mk {
  master : string;
  running : bool;
  process : option nat
}.
End Driver.

(** The program state: the driver, the user's scheduler, every
    [SchedulerProcess] allocated so far (none is deleted before the driver
    is), the [FTMessaging] singleton, and whether the program has exited
    ([exit(1)] or [fatal]). *)
Record System := mkSystem {
  driver : Driver.t;
  sched : Scheduler;
  heap : list SchedulerProcess;
  ftMsg : FTMessaging;
  exited : bool
}.

(** The constructor [NexusSchedulerDriver(_sched, _master)]. *)
Definition NexusSchedulerDriver_new (_sched : Scheduler) (_master : string)
  : System :=
  mkSystem (Driver.mk _master false None) _sched [] FTMessaging_initial false.

Definition set_driver (d : Driver.t) (s : System) : System :=
  mkSystem d (sched s) (heap s) (ftMsg s) (exited s).

Definition set_heap (h : list SchedulerProcess) (s : System) : System :=
  mkSystem (driver s) (sched s) h (ftMsg s) (exited s).

Definition set_ftMsg (ft : FTMessaging) (s : System) : System :=
  mkSystem (driver s) (sched s) (heap s) ft (exited s).

Definition set_exited (s : System) : System :=
  mkSystem (driver s) (sched s) (heap s) (ftMsg s) true.

(** A driver method returns the new state, the effects it performed, and
    its return value; [None] when it does not return (the program
    exited). *)
Abbreviation Outcome := (System * list Effect * option Z)%type (only parsing).

Definition NexusSchedulerDriver_start (env : Env) (s : System) : Outcome :=
  let d := driver s in
  if Driver.running d then (s, [], Some (-1)%Z)
  else
    let master :=
      if String.eqb (Driver.master d) "localquiet" then
        run_nexus env 1 1 1073741824 true true
      else if String.eqb (Driver.master d) "local" then
        run_nexus env 1 1 1073741824 true false
      else Driver.master d in
    let frameworkName := getFrameworkName (sched s) in
    let executorInfo := getExecutorInfo (sched s) in
    match SchedulerProcess_new env master frameworkName executorInfo with
    | None =>
        (set_exited (set_driver (Driver.mk master false (Driver.process d)) s),
         [], None)
    | Some p =>
        let process := length (heap s) in
        let p := set_self (spawn_pid env process) p in
        (set_heap (heap s ++ [p])%list
           (set_driver (Driver.mk master true (Some process)) s),
         [], Some 0%Z)
    end.

(** The methods below dereference [process]; on NULL, or on a pointer
    outside the heap, the program crashes.  [start] sets [process] before
    [running], so this does not happen to a running driver. *)
Definition deref (s : System) : option (nat * SchedulerProcess) :=
  i ← Driver.process (driver s); p ← heap s !! i; Some (i, p).

Definition NexusSchedulerDriver_stop (s : System) : Outcome :=
  let d := driver s in
  if negb (Driver.running d) then (s, [], Some (-1)%Z)
  else
    match deref s with
    | None => (set_exited s, [], None)
    | Some (i, p) =>
        (set_driver (Driver.mk (Driver.master d) false (Driver.process d))
           (set_heap (<[i := set_terminate true p]> (heap s)) s),
         [Send (master p) (F2M_UNREGISTER_FRAMEWORK (fid p))],
         Some 0%Z)
    end.

Definition NexusSchedulerDriver_killTask (tid : TaskID) (s : System) : Outcome :=
  if negb (Driver.running (driver s)) then (s, [], Some (-1)%Z)
  else
    match deref s with
    | None => (set_exited s, [], None)
    | Some (i, p) =>
        (s, [Send (master p) (F2M_KILL_TASK (fid p) tid)], Some 0%Z)
    end.

Definition NexusSchedulerDriver_replyToOffer (offerId : OfferID)
    (tasks : list TaskDescription.t) (params : Params) (s : System) : Outcome :=
  if negb (Driver.running (driver s)) then (s, [], Some (-1)%Z)
  else
    match deref s with
    | None => (set_exited s, [], None)
    | Some (i, p) =>
        (s, [Post i (F2F_SLOT_OFFER_REPLY offerId tasks params)], Some 0%Z)
    end.

Definition NexusSchedulerDriver_reviveOffers (s : System) : Outcome :=
  if negb (Driver.running (driver s)) then (s, [], Some (-1)%Z)
  else
    match deref s with
    | None => (set_exited s, [], None)
    | Some (i, p) =>
        (s, [Send (master p) (F2M_REVIVE_OFFERS (fid p))], Some 0%Z)
    end.

Definition NexusSchedulerDriver_sendFrameworkMessage
    (message : FrameworkMessage.t) (s : System) : Outcome :=
  if negb (Driver.running (driver s)) then (s, [], Some (-1)%Z)
  else
    match deref s with
    | None => (set_exited s, [], None)
    | Some (i, p) =>
        (s, [Post i (F2F_FRAMEWORK_MESSAGE message)], Some 0%Z)
    end.

(** ** The program as a transition system

    The user threads call the facade; every spawned actor runs
    [operator()] on a thread of its own; the network and the master
    detector put messages into mailboxes.  One step is one of these. *)

Inductive ApiCall :=
| start
| stop
| killTask (tid : TaskID)
| replyToOffer (offerId : OfferID) (tasks : list TaskDescription.t)
    (params : Params)
| reviveOffers
| sendFrameworkMessage (message : FrameworkMessage.t).

Inductive Action :=
(** a thread calls a method of the driver *)
| Api (c : ApiCall)
(** a message from [from] arrives in the mailbox of process [i] *)
| Deliver (i : nat) (from : PID) (m : Msg)
(** process [i] runs the preamble of [operator()], up to the loop *)
| Run (i : nat)
(** process [i], at the head of the loop, reads [terminate] *)
| Check (i : nat)
(** process [i] returns from [receive(FT_TIMEOUT)] at time [now] and runs
    the [switch] *)
| Receive (i : nat) (now : N).

(** What an observer sees of a step: the message an actor dequeued, the
    effects performed (by an actor, or by a caller of the facade), and
    the value a method of the facade returned. *)
Inductive Obs :=
| Received (i : nat) (from : PID) (m : Msg)
| Did (who : option nat) (e : Effect)
| Returned (c : ApiCall) (r : Z).

(** [send(self(), m)] of the process at [who]: append to its mailbox. *)
Definition post (who : nat) (m : Msg) (h : list SchedulerProcess)
  : list SchedulerProcess :=
  alter (λ p, set_mailbox (mailbox p ++ [(self p, m)])%list p) who h.

Definition perform (h : list SchedulerProcess) (e : Effect)
  : list SchedulerProcess :=
  match e with
  | Post who m => post who m h
  | _ => h
  end.

Definition api (env : Env) (c : ApiCall) (s : System) : Outcome :=
  match c with
  | start => NexusSchedulerDriver_start env s
  | stop => NexusSchedulerDriver_stop s
  | killTask tid => NexusSchedulerDriver_killTask tid s
  | replyToOffer offerId tasks params =>
      NexusSchedulerDriver_replyToOffer offerId tasks params s
  | reviveOffers => NexusSchedulerDriver_reviveOffers s
  | sendFrameworkMessage message =>
      NexusSchedulerDriver_sendFrameworkMessage message s
  end.

(** Lines 150-161: the preamble of [operator()]. *)
Definition actor_run (env : Env) (i : nat) (p : SchedulerProcess)
  : option (SchedulerProcess * list Effect) :=
  match pw_name env with
  | None => None
  | Some user =>
      let p := set_user user p in
      if isFT p then
        Some (set_pc PcLoop (set_masterDetector true p), [])
      else
        Some (set_pc PcLoop p, [Post i (NEW_MASTER_DETECTED "0" (master p))])
  end.

(** Lines 176-177: [if (terminate) return;]. *)
Definition actor_check (p : SchedulerProcess) : SchedulerProcess :=
  if terminate p then set_pc PcDone p else set_pc PcReceive p.

(** [receive(FT_TIMEOUT)]: the oldest message of the mailbox and its
    sender, or PROCESS_TIMEOUT when the mailbox stayed empty. *)
Definition receive (p : SchedulerProcess) : PID * Msg * SchedulerProcess :=
  match mailbox p with
  | [] => (PID_default, PROCESS_TIMEOUT, p)
  | (from, m) :: rest => (from, m, set_mailbox rest p)
  end.

Definition sys_step (env : Env) (s : System) (a : Action) : System * list Obs :=
  if exited s then (s, [])
  else
    match a with
    | Api c =>
        let '(s, effs, r) := api env c s in
        (set_heap (foldl perform (heap s) effs) s,
         (map (Did None) effs ++
          match r with Some r => [Returned c r] | None => [] end)%list)
    | Deliver i from m =>
        (set_heap
           (alter (λ p, set_mailbox (mailbox p ++ [(from, m)])%list p) i (heap s))
           s,
         [])
    | Run i =>
        match heap s !! i with
        | Some p =>
            match pc p with
            | PcStart =>
                match actor_run env i p with
                | None => (set_exited s, [])
                | Some (p, effs) =>
                    (set_heap (foldl perform (<[i := p]> (heap s)) effs) s,
                     map (Did (Some i)) effs)
                end
            | _ => (s, [])
            end
        | None => (s, [])
        end
    | Check i =>
        match heap s !! i with
        | Some p =>
            match pc p with
            | PcLoop => (set_heap (<[i := actor_check p]> (heap s)) s, [])
            | _ => (s, [])
            end
        | None => (s, [])
        end
    | Receive i now =>
        match heap s !! i with
        | Some p =>
            match pc p with
            | PcReceive =>
                let '(from, m, p) := receive p in
                let '(ft, p, effs) := dispatch env i now from m (ftMsg s) p in
                (set_ftMsg ft
                   (set_heap
                      (foldl perform (<[i := set_pc PcLoop p]> (heap s)) effs) s),
                 Received i from m :: map (Did (Some i)) effs)
            | _ => (s, [])
            end
        | None => (s, [])
        end
    end.

(** A schedule, step by step, with what each step showed. *)
Fixpoint sys_run (env : Env) (s : System) (acts : list Action)
  : System * list (list Obs) :=
  match acts with
  | [] => (s, [])
  | a :: acts =>
      let '(s, o) := sys_step env s a in
      let '(s, os) := sys_run env s acts in
      (s, o :: os)
  end.

(** ** A concrete environment, for the examples

    Master strings [zoo://servers] select the coordinated mode and
    [nexus://address] a static master; an address resolves unless it is
    empty; the in-process cluster answers at [local-master]. *)
Definition example_make_pid (a : string) : PID :=
  if String.eqb a "" then PID_default
  else mkPID 1 (N.of_nat (String.length a)) 5050.

Definition example_url (a : string) : URLType * string :=
  if String.prefix "zoo://" a then (ZOO, String.substring 6 (String.length a - 6) a)
  else if String.prefix "nexus://" a then
    (NEXUS, String.substring 8 (String.length a - 8) a)
  else (UNKNOWN, a).

Definition example_env : Env :=
  {| UrlProcessor_process := example_url;
     make_pid := example_make_pid;
     run_nexus := λ _ _ _ _ _, "local-master";
     pw_name := Some "u";
     spawn_pid := λ n, mkPID (N.of_nat (S n)) 127 4040;
     PID_print := λ p, pretty (pid_id p) +:+ "@" +:+ pretty (pid_ip p) +:+ ":" +:+
                       pretty (pid_port p);
     msgid := λ m, match m with OTHER n => n | _ => 0%N end;
     FT_BACKOFF := 1;
     FT_BACKOFF_CAP := 8;
     FT_DEADLINE := 30 |}.

(** ** Reading schedules and traces *)

(** The messages that the effects [effs] post to the mailbox of [j]. *)
Definition posted (j : nat) (effs : list Effect) : list Msg :=
  omap (λ e, match e with
             | Post who m => if decide (who = j) then Some m else None
             | _ => None
             end) effs.

(** The message process [j] dequeued in a step, if the step shows one. *)
Definition received_in (j : nat) (o : Obs) : option Msg :=
  match o with
  | Received i _ m => if decide (i = j) then Some m else None
  | _ => None
  end.

(** The callback the actor [j] invoked, if the observation is one. *)
Definition callback_in (j : nat) (o : Obs) : option Callback :=
  match o with
  | Did (Some i) (Invoke c) => if decide (i = j) then Some c else None
  | _ => None
  end.

(** Every message process [j] dequeued during a run, oldest first. *)
Definition received_by (j : nat) (os : list (list Obs)) : list Msg :=
  omap (received_in j) (concat os).

(** Every user callback the actor [j] invoked during a run, in order. *)
Definition callbacks_of (j : nat) (os : list (list Obs)) : list Callback :=
  omap (callback_in j) (concat os).

(** A step shows nothing of actor [j]: no message dequeued by it and no
    effect performed by it. *)
Definition quiet (j : nat) (o : list Obs) : Prop :=
  Forall (λ x, match x with
               | Received i _ _ => i ≠ j
               | Did (Some i) _ => i ≠ j
               | _ => True
               end) o.

(** How one step of the program changes the process at [j]: others add
    to its mailbox, [stop] sets its [terminate], or its own thread runs
    the preamble, reads [terminate], or dispatches a message. *)
Inductive proc_step (env : Env) (s : System) (a : Action) (j : nat)
    (p : SchedulerProcess) : SchedulerProcess → list Obs → Prop :=
| ps_mail extra o :
    quiet j o →
    proc_step env s a j p (set_mailbox (mailbox p ++ extra)%list p) o
| ps_stop o :
    a = Api stop → quiet j o →
    proc_step env s a j p (set_terminate true p) o
| ps_run p1 effs :
    a = Run j → pc p = PcStart → actor_run env j p = Some (p1, effs) →
    proc_step env s a j p
      (set_mailbox (mailbox p1 ++ map (pair (self p1)) (posted j effs))%list p1)
      (map (Did (Some j)) effs)
| ps_check :
    a = Check j → pc p = PcLoop →
    proc_step env s a j p (actor_check p) []
| ps_receive now from m p1 ft p2 effs :
    a = Receive j now → pc p = PcReceive → exited s = false →
    receive p = (from, m, p1) →
    dispatch env j now from m (ftMsg s) p1 = (ft, p2, effs) →
    proc_step env s a j p
      (set_mailbox (mailbox p2 ++ map (pair (self p2)) (posted j effs))%list
                   (set_pc PcLoop p2))
      (Received j from m :: map (Did (Some j)) effs).

(** ** The offers a framework still holds, read off its history *)

(** A message that ends offer [oid]: the master rescinds it, or the
    framework replies to it. *)
Definition closes (oid : OfferID) (m : Msg) : Prop :=
  match m with
  | M2F_RESCIND_OFFER oid' => oid' = oid
  | F2F_SLOT_OFFER_REPLY oid' _ _ => oid' = oid
  | _ => False
  end.

(** Offer [oid] was delivered with at least one slot, and since its last
    such delivery the framework has neither replied to it nor received a
    rescind for it. *)
Definition offer_open (oid : OfferID) (hist : list Msg) : Prop :=
  ∃ pre offs post,
    hist = (pre ++ M2F_SLOT_OFFER oid offs :: post)%list ∧ offs ≠ [] ∧
    Forall (λ m, ¬ closes oid m) post.

(** ** Example runs *)

Definition example_master : PID := mkPID 9 9 9.

(** A driver for a static master; the actor registers as [fw-1]. *)
Definition example_registration : list Action :=
  [Api start; Run 0; Check 0; Receive 0 0;
   Deliver 0 example_master (M2F_REGISTER_REPLY "fw-1"); Check 0; Receive 0 1].

(** An offer of one slot arrives and the user is told. *)
Definition example_offer : list Action :=
  [Deliver 0 example_master
     (M2F_SLOT_OFFER "o-1" [SlaveOffer.mk "s1" "host1" ∅ (mkPID 2 2 2)]);
   Check 0; Receive 0 2].

Definition example_system : System :=
  NexusSchedulerDriver_new Scheduler_default "nexus://1@h:1".

(** The same for a coordinated master, which the detector announces. *)
Definition example_ft_system : System :=
  NexusSchedulerDriver_new Scheduler_default "zoo://zk1".

Definition example_ft_registration : list Action :=
  [Api start; Run 0;
   Deliver 0 example_master (NEW_MASTER_DETECTED "e1" example_master);
   Check 0; Receive 0 0;
   Deliver 0 example_master (M2F_REGISTER_REPLY "fw-9"); Check 0; Receive 0 1].

Definition example_task (tid : TaskID) (sid : SlaveID) : TaskDescription.t :=
  TaskDescription.mk tid sid "a" ∅ "".

(** The static-master driver after registration and one offer, with a
    rescind of that offer waiting in the mailbox. *)
Definition example_before_rescind : System :=
  (sys_run example_env example_system
     (example_registration ++ example_offer ++
      [Deliver 0 example_master (M2F_RESCIND_OFFER "o-1"); Check 0])).1.

(** The process at index [i] of the heap of [s] (a process that was
    never started when there is none). *)
Definition process_at (s : System) (i : nat) : SchedulerProcess :=
  default (mkSchedulerProcess PID_default [] PcStart "" PID_default ""
             "" (mkExecutorInfo "" "") false "" false ∅ ∅ false)
          (heap s !! i).

(** The process of the static-master driver once registered. *)
Definition example_process : SchedulerProcess :=
  process_at (sys_run example_env example_system example_registration).1 0.

(** The detector announces another master. *)
Definition example_failover : list Action :=
  [Deliver 0 example_master (NEW_MASTER_DETECTED "e2" (mkPID 8 8 8));
   Check 0; Receive 0 3].

(** The new master answers the re-registration with another id. *)
Definition example_second_reply : list Action :=
  [Deliver 0 (mkPID 8 8 8) (M2F_REGISTER_REPLY "fw-2"); Check 0; Receive 0 4].

(** The process of the static-master driver once it holds offer [o-1]. *)
Definition example_offered_process : SchedulerProcess :=
  process_at
    (sys_run example_env example_system (example_registration ++ example_offer)).1
    0.

(** The coordinated-mode driver after a master change, inside [receive]
    with the new master's registration reply in the mailbox. *)
Definition example_before_second_reply : System :=
  (sys_run example_env example_ft_system
     (example_ft_registration ++ example_failover ++
      [Deliver 0 (mkPID 8 8 8) (M2F_REGISTER_REPLY "fw-2"); Check 0])).1.

(** The registered driver is stopped and its actor then reads
    [terminate]. *)
Definition example_stopped : System :=
  (sys_run example_env example_system
     (example_registration ++ [Api stop; Check 0])).1.

(** ** Deliveries of fault-tolerant messages *)

Definition invokes_statusUpdate (o : Obs) : bool :=
  match o with
  | Did _ (Invoke (statusUpdate _)) => true
  | _ => false
  end.

Definition invokes_frameworkMessage (o : Obs) : bool :=
  match o with
  | Did _ (Invoke (frameworkMessage _)) => true
  | _ => false
  end.

(** The step dequeued an M2F_FT_STATUS_UPDATE carrying [(ftId, origPid)]
    and invoked the user's [statusUpdate]. *)
Definition status_update_delivered (ftId origPid : string) (o : list Obs)
  : bool :=
  match o with
  | Received _ _ (M2F_FT_STATUS_UPDATE f g _ _ _) :: rest =>
      String.eqb f ftId && String.eqb g origPid &&
      existsb invokes_statusUpdate rest
  | _ => false
  end.

(** The step dequeued an M2F_FT_FRAMEWORK_MESSAGE carrying
    [(ftId, origPid)] and invoked the user's [frameworkMessage]. *)
Definition framework_message_delivered (ftId origPid : string) (o : list Obs)
  : bool :=
  match o with
  | Received _ _ (M2F_FT_FRAMEWORK_MESSAGE f g _) :: rest =>
      String.eqb f ftId && String.eqb g origPid &&
      existsb invokes_frameworkMessage rest
  | _ => false
  end.

(** How many steps of a run satisfy [f]. *)
Definition count_steps (f : list Obs → bool) (os : list (list Obs)) : nat :=
  length (List.filter f os).

(** Two copies of one fault-tolerant status update arrive. *)
Definition example_duplicates : list Action :=
  [Deliver 0 example_master (M2F_FT_STATUS_UPDATE "42" "h:10" 9 TASK_FINISHED "ok");
   Deliver 0 example_master (M2F_FT_STATUS_UPDATE "42" "h:10" 9 TASK_FINISHED "ok");
   Check 0; Receive 0 5; Check 0; Receive 0 6].

(** ** The timeout of a reliable offer reply *)

(** The synthetic message the timeout posts for a task, and the status
    the user is to see for it. *)
Definition lost_update (t : TaskDescription.t) : Msg :=
  M2F_STATUS_UPDATE (TaskDescription.taskId t) TASK_LOST "".

Definition lost_status (t : TaskDescription.t) : TaskStatus.t :=
  TaskStatus.mk (TaskDescription.taskId t) TASK_LOST "".

(** The schedule of actor [j] alone: it dispatches the offer reply at
    [now0], comes round the loop, finds the mailbox empty at [now1] (the
    tick), and then goes round the loop once for each time of [nows]. *)
Definition timeout_schedule (j : nat) (now0 now1 : N) (nows : list N)
  : list Action :=
  Receive j now0 :: Check j :: Receive j now1 ::
  flat_map (λ now, [Check j; Receive j now]) nows.

(** The coordinated-mode driver, registered, inside [receive] with the
    user's reply to offer [o-5] (tasks 7 and 8) in the mailbox. *)
Definition example_before_reply : System :=
  (sys_run example_env example_ft_system
     (example_ft_registration ++
      [Api (replyToOffer "o-5" [example_task 7 "s1"; example_task 8 "s2"] ∅);
       Check 0])).1.

(** ** More readings of effects, states and histories *)

(** The user callbacks among some effects, in order. *)
Definition invoked (effs : list Effect) : list Callback :=
  omap (λ e, match e with Invoke c => Some c | _ => None end) effs.

(** The messages that do not come from the master: those of the
    detector, of the facade, of the overlay and of libprocess' timer. *)
Definition internal (m : Msg) : bool :=
  match m with
  | NEW_MASTER_DETECTED _ _ | NO_MASTER_DETECTED
  | F2F_SLOT_OFFER_REPLY _ _ _ | F2F_FRAMEWORK_MESSAGE _
  | FT_RELAY_ACK _ _ | PROCESS_TIMEOUT => true
  | _ => false
  end.

(** A schedule in which nobody calls [stop()]. *)
Definition no_stop (acts : list Action) : Prop :=
  Forall (λ a, a ≠ Api stop) acts.

(** The process the driver points to is [j], and the driver is
    running. *)
Definition current (s : System) (j : nat) : Prop :=
  Driver.running (driver s) = true ∧ Driver.process (driver s) = Some j.

(** The registered static-master driver, inside [receive] with a rescind
    in the mailbox, is stopped. *)
Definition example_stopped_in_receive : System :=
  (sys_run example_env example_before_rescind [Api stop]).1.

(** In every state: an actor whose [terminate] is false is the one the
    running driver points to, and the running driver points to such an
    actor. *)
Definition live_invariant (s : System) : Prop :=
  (∀ j p, heap s !! j = Some p → terminate p = false → current s j)
  ∧ (∀ j, current s j → ∃ p, heap s !! j = Some p ∧ terminate p = false)
  ∧ (Driver.running (driver s) = true → is_Some (Driver.process (driver s))).

(** The states a driver constructed for [_sched] and [_master] can
    reach. *)
Definition reachable (env : Env) (s : System) : Prop :=
  ∃ _sched _master acts,
    s = (sys_run env (NexusSchedulerDriver_new _sched _master) acts).1.

(** ** The two maps of slave addresses *)

(** [savedOffers[oid][sid]], read without inserting. *)
Definition offered (so : gmap OfferID (gmap SlaveID PID)) (oid : OfferID)
    (sid : SlaveID) : option PID :=
  so !! oid ≫= (.!! sid).

(** The address in the last slot of an offer that names slave [sid]. *)
Definition last_slot (sid : SlaveID) (offs : list SlaveOffer.t) : option PID :=
  SlaveOffer.slavePid <$>
    last (filter (λ o, SlaveOffer.slaveId o = sid) offs).

(** The slaves on which a reply launches tasks. *)
Definition slaves_of (tasks : list TaskDescription.t) : list SlaveID :=
  map TaskDescription.slaveId tasks.

(** ** The bookkeeping of an actor and its history *)

(** The members the [switch] reads and writes. *)
Definition book (p : SchedulerProcess)
  : PID * FrameworkID * gmap OfferID (gmap SlaveID PID) * gmap SlaveID PID :=
  (master p, fid p, savedOffers p, savedSlavePids p).

(** The [switch] run on a list of messages in a row, at time 0, with the
    null sender and an overlay that has seen nothing. *)
Definition replay (env : Env) (p : SchedulerProcess) (hist : list Msg)
  : SchedulerProcess :=
  foldl (λ p m, (dispatch env 0 0 PID_default m FTMessaging_initial p).1.2)
        p hist.

(** The master of the last NEW_MASTER_DETECTED of a history, and the
    framework id of its last M2F_REGISTER_REPLY. *)
Definition last_master (hist : list Msg) : option PID :=
  last (omap (λ m, match m with
                   | NEW_MASTER_DETECTED _ masterPid => Some masterPid
                   | _ => None
                   end) hist).

Definition last_fid (hist : list Msg) : option FrameworkID :=
  last (omap (λ m, match m with
                   | M2F_REGISTER_REPLY fid => Some fid
                   | _ => None
                   end) hist).

(** A message that makes the actor save an address for slave [sid]: a
    reply that launches a task there, or a framework message for it. *)
Definition names (sid : SlaveID) (m : Msg) : Prop :=
  match m with
  | F2F_SLOT_OFFER_REPLY _ tasks _ => sid ∈ slaves_of tasks
  | F2F_FRAMEWORK_MESSAGE msg => FrameworkMessage.slaveId msg = sid
  | _ => False
  end.

(** Slave [sid] was named, and has not been reported lost since. *)
Definition slave_known (sid : SlaveID) (hist : list Msg) : Prop :=
  ∃ pre m post,
    hist = (pre ++ m :: post)%list ∧ names sid m ∧
    Forall (λ m', m' ≠ M2F_LOST_SLAVE sid) post.

(** The registration a master change makes the actor send, for a
    framework id [id]. *)
Definition registration (id : FrameworkID) (p : SchedulerProcess) : Msg :=
  if String.eqb id "" then
    F2M_REGISTER_FRAMEWORK (frameworkName p) (user p) (execInfo p)
  else
    F2M_REREGISTER_FRAMEWORK id (frameworkName p) (user p) (execInfo p).

(** ** The C API (nexus_sched.cpp, lines 649-1002)

    A C framework describes itself in a [struct nexus_sched] and calls
    the functions below with a pointer to it.  [nexus_sched_reply_to_offer]
    (its arguments go through the parser of [Params], which is not part
    of the sources) and [nexus_sched_join] (it blocks) are left out. *)

(** Pointers are addresses; [NULL] is 0. *)
Definition NULL : N := 0.

(** [EINVAL] of errno.h (its value on Linux). *)
Definition EINVAL : Z := 22.

(** The data members of [struct nexus_sched]; [init_arg] is the
    [init_arg_len] bytes at [init_arg]. *)
Record nexus_sched := mk_nexus_sched {
  framework_name : string;
  executor_name : string;
  init_arg : string
}.

(** [class CScheduler]: the names it copied from the struct, the struct
    it forwards the callbacks to, and the driver it owns ([None] for
    NULL). *)
Module CScheduler.
Record t := mk {
  frameworkName : string;
  execInfo : ExecutorInfo;
  sched : N;
  driver : option Driver.t
}.
End CScheduler.

(** The [Scheduler] a [CScheduler] is: its two getters return the
    copies. *)
Definition CScheduler_getters (cs : CScheduler.t) : Scheduler :=
  mkScheduler (CScheduler.frameworkName cs) (CScheduler.execInfo cs).

(** The C program: the structs of the user by address, the map
    [c_schedulers], every [SchedulerProcess] allocated so far, the
    [FTMessaging] singleton, [errno], and whether the program has
    ended. *)
Record Program := mkProgram {
  c_structs : gmap N nexus_sched;
  c_schedulers : gmap N CScheduler.t;
  c_heap : list SchedulerProcess;
  c_ftMsg : FTMessaging;
  c_errno : Z;
  c_exited : bool
}.

Definition Program_initial (structs : gmap N nexus_sched) : Program :=
  mkProgram structs ∅ [] FTMessaging_initial 0 false.

Definition set_c_schedulers (m : gmap N CScheduler.t) (prog : Program) : Program :=
  mkProgram (c_structs prog) m (c_heap prog) (c_ftMsg prog) (c_errno prog)
            (c_exited prog).

Definition set_c_errno (e : Z) (prog : Program) : Program :=
  mkProgram (c_structs prog) (c_schedulers prog) (c_heap prog) (c_ftMsg prog) e
            (c_exited prog).

Definition set_c_exited (prog : Program) : Program :=
  mkProgram (c_structs prog) (c_schedulers prog) (c_heap prog) (c_ftMsg prog)
            (c_errno prog) true.

(** What a C function does to libprocess: the effects of the driver, and
    the [Process::wait(process)] and [delete process] of the destructor
    of the driver (lines 447-467). *)
Inductive CEffect :=
| Lib (e : Effect)
| Wait (process : option nat)
| Delete (process : option nat).

(** A C function returns the new program state, what it did, and its
    return value; [None] when it does not return (the program ended). *)
Abbreviation COutcome := (Program * list CEffect * option Z)%type (only parsing).

(** Lines 757-778.  [None] is a failed [assert], or the read of a struct
    through a pointer that points to none. *)
Definition lookupCScheduler (sched : N) (prog : Program)
  : option (CScheduler.t * Program) :=
  if (sched =? NULL)%N then None
  else
    match c_schedulers prog !! sched with
    | Some cs => Some (cs, prog)
    | None =>
        st ← c_structs prog !! sched;
        let fw_name := framework_name st in
        let exec_name := executor_name st in
        let cs := CScheduler.mk fw_name (mkExecutorInfo exec_name (init_arg st))
                                sched None in
        Some (cs, set_c_schedulers (<[sched := cs]> (c_schedulers prog)) prog)
    end.

(** Lines 781-795; [delete cs->driver] runs the destructor of the
    driver. *)
Definition removeCScheduler (sched : N) (prog : Program)
  : Program * list CEffect :=
  match c_schedulers prog !! sched with
  | None => (prog, [])
  | Some cs =>
      (set_c_schedulers (delete sched (c_schedulers prog)) prog,
       match CScheduler.driver cs with
       | Some d => [Wait (Driver.process d); Delete (Driver.process d)]
       | None => []
       end)
  end.

(** [cs->driver->method(...)], the result of the method dropped: the
    driver of [cs], the scheduler of the struct at [sched], runs [method]
    on the processes and the overlay of the program. *)
Definition call_driver (method : System → System * list Effect * option Z)
    (sched : N) (cs : CScheduler.t) (d : Driver.t) (prog : Program) : COutcome :=
  let '(s, effs, r) :=
    method (mkSystem d (CScheduler_getters cs) (c_heap prog) (c_ftMsg prog)
                     (c_exited prog)) in
  let cs := CScheduler.mk (CScheduler.frameworkName cs) (CScheduler.execInfo cs)
                          (CScheduler.sched cs) (Some (driver s)) in
  (mkProgram (c_structs prog) (<[sched := cs]> (c_schedulers prog))
             (heap s) (ftMsg s) (c_errno prog) (exited s),
   map Lib effs,
   match r with Some _ => Some 0%Z | None => None end).

(** Lines 808-816. *)
Definition nexus_sched_init (sched : N) (prog : Program) : COutcome :=
  if (sched =? NULL)%N then (set_c_errno EINVAL prog, [], Some (-1)%Z)
  else (prog, [], Some 0%Z).

(** Lines 819-829. *)
Definition nexus_sched_destroy (sched : N) (prog : Program) : COutcome :=
  if (sched =? NULL)%N then (set_c_errno EINVAL prog, [], Some (-1)%Z)
  else
    let '(prog, effs) := removeCScheduler sched prog in
    (prog, effs, Some 0%Z).

(** Lines 832-850; [master] is [None] for a NULL string. *)
Definition nexus_sched_reg (env : Env) (sched : N) (master : option string)
    (prog : Program) : COutcome :=
  match master with
  | None => (set_c_errno EINVAL prog, [], Some (-1)%Z)
  | Some master =>
      if (sched =? NULL)%N then (set_c_errno EINVAL prog, [], Some (-1)%Z)
      else
        match lookupCScheduler sched prog with
        | None => (set_c_exited prog, [], None)
        | Some (cs, prog) =>
            match CScheduler.driver cs with
            | Some _ => (set_c_errno EINVAL prog, [], Some (-1)%Z)
            | None =>
                call_driver (NexusSchedulerDriver_start env) sched cs
                            (Driver.mk master false None) prog
            end
        end
  end.

(** Lines 853-870. *)
Definition nexus_sched_unreg (sched : N) (prog : Program) : COutcome :=
  if (sched =? NULL)%N then (set_c_errno EINVAL prog, [], Some (-1)%Z)
  else
    match lookupCScheduler sched prog with
    | None => (set_c_exited prog, [], None)
    | Some (cs, prog) =>
        match CScheduler.driver cs with
        | None => (set_c_errno EINVAL prog, [], Some (-1)%Z)
        | Some d => call_driver NexusSchedulerDriver_stop sched cs d prog
        end
    end.

(** Lines 873-894; [msg] is [None] for NULL. *)
Definition nexus_sched_send_message (sched : N)
    (msg : option FrameworkMessage.t) (prog : Program) : COutcome :=
  match msg with
  | None => (set_c_errno EINVAL prog, [], Some (-1)%Z)
  | Some message =>
      if (sched =? NULL)%N then (set_c_errno EINVAL prog, [], Some (-1)%Z)
      else
        match lookupCScheduler sched prog with
        | None => (set_c_exited prog, [], None)
        | Some (cs, prog) =>
            match CScheduler.driver cs with
            | None => (set_c_errno EINVAL prog, [], Some (-1)%Z)
            | Some d =>
                call_driver (NexusSchedulerDriver_sendFrameworkMessage message)
                            sched cs d prog
            end
        end
  end.

(** Lines 897-914. *)
Definition nexus_sched_kill_task (sched : N) (tid : TaskID) (prog : Program)
  : COutcome :=
  if (sched =? NULL)%N then (set_c_errno EINVAL prog, [], Some (-1)%Z)
  else
    match lookupCScheduler sched prog with
    | None => (set_c_exited prog, [], None)
    | Some (cs, prog) =>
        match CScheduler.driver cs with
        | None => (set_c_errno EINVAL prog, [], Some (-1)%Z)
        | Some d =>
            call_driver (NexusSchedulerDriver_killTask tid) sched cs d prog
        end
    end.

(** Lines 965-982. *)
Definition nexus_sched_revive_offers (sched : N) (prog : Program) : COutcome :=
  if (sched =? NULL)%N then (set_c_errno EINVAL prog, [], Some (-1)%Z)
  else
    match lookupCScheduler sched prog with
    | None => (set_c_exited prog, [], None)
    | Some (cs, prog) =>
        match CScheduler.driver cs with
        | None => (set_c_errno EINVAL prog, [], Some (-1)%Z)
        | Some d => call_driver NexusSchedulerDriver_reviveOffers sched cs d prog
        end
    end.

(** ** The C program as a transition system *)

Inductive CCall :=
| c_init (sched : N)
| c_destroy (sched : N)
| c_reg (sched : N) (master : option string)
| c_unreg (sched : N)
| c_send_message (sched : N) (msg : option FrameworkMessage.t)
| c_kill_task (sched : N) (tid : TaskID)
| c_revive_offers (sched : N).

Definition c_call (env : Env) (c : CCall) (prog : Program) : COutcome :=
  match c with
  | c_init sched => nexus_sched_init sched prog
  | c_destroy sched => nexus_sched_destroy sched prog
  | c_reg sched master => nexus_sched_reg env sched master prog
  | c_unreg sched => nexus_sched_unreg sched prog
  | c_send_message sched msg => nexus_sched_send_message sched msg prog
  | c_kill_task sched tid => nexus_sched_kill_task sched tid prog
  | c_revive_offers sched => nexus_sched_revive_offers sched prog
  end.

Inductive CAction :=
(** the user calls a function of the C API *)
| Call (c : CCall)
(** the user writes the struct at [sched] *)
| Store (sched : N) (st : nexus_sched)
(** a message arrives, or an actor takes a step *)
| Actor (a : Action).

Inductive CObs :=
| CReturned (c : CCall) (r : Z)
| CDid (e : CEffect)
| COf (o : Obs).

(** The effects of the driver among those of a C function. *)
Definition lib_effects (effs : list CEffect) : list Effect :=
  omap (λ e, match e with Lib e => Some e | _ => None end) effs.

Definition c_step (env : Env) (prog : Program) (a : CAction)
  : Program * list CObs :=
  if c_exited prog then (prog, [])
  else
    match a with
    | Call c =>
        let '(prog, effs, r) := c_call env c prog in
        (mkProgram (c_structs prog) (c_schedulers prog)
                   (foldl perform (c_heap prog) (lib_effects effs))
                   (c_ftMsg prog) (c_errno prog) (c_exited prog),
         (map CDid effs ++
          match r with Some r => [CReturned c r] | None => [] end)%list)
    | Store sched st =>
        (mkProgram (<[sched := st]> (c_structs prog)) (c_schedulers prog)
                   (c_heap prog) (c_ftMsg prog) (c_errno prog) (c_exited prog),
         [])
    | Actor (Api _) => (prog, [])
    | Actor a =>
        let '(s, o) :=
          sys_step env
            (mkSystem (Driver.mk "" false None) Scheduler_default (c_heap prog)
                      (c_ftMsg prog) (c_exited prog)) a in
        (mkProgram (c_structs prog) (c_schedulers prog) (heap s) (ftMsg s)
                   (c_errno prog) (exited s),
         map COf o)
    end.

Fixpoint c_run (env : Env) (prog : Program) (acts : list CAction)
  : Program * list (list CObs) :=
  match acts with
  | [] => (prog, [])
  | a :: acts =>
      let '(prog, o) := c_step env prog a in
      let '(prog, os) := c_run env prog acts in
      (prog, o :: os)
  end.

(** ** Reading the history of a C program *)

(** The struct a call names. *)
Definition c_target (c : CCall) : N :=
  match c with
  | c_init sched | c_destroy sched | c_reg sched _ | c_unreg sched
  | c_send_message sched _ | c_kill_task sched _ | c_revive_offers sched => sched
  end.

(** The calls that go on to a method of the driver. *)
Definition driver_call (c : CCall) : bool :=
  match c with
  | c_unreg _ | c_send_message _ (Some _) | c_kill_task _ _
  | c_revive_offers _ => true
  | _ => false
  end.

(** The user's structs replaced by others. *)
Definition set_c_structs (structs : gmap N nexus_sched) (prog : Program)
  : Program :=
  mkProgram structs (c_schedulers prog) (c_heap prog) (c_ftMsg prog)
            (c_errno prog) (c_exited prog).

(** The scheduler at [sched] owns a driver. *)
Definition has_driver (sched : N) (prog : Program) : Prop :=
  ∃ cs d, c_schedulers prog !! sched = Some cs ∧ CScheduler.driver cs = Some d.

(** The calls that returned, with their values, oldest first. *)
Definition c_returned (os : list (list CObs)) : list (CCall * Z) :=
  omap (λ o, match o with CReturned c r => Some (c, r) | _ => None end)
       (concat os).

(** [nexus_sched_reg] returned 0 for [sched], and [nexus_sched_destroy]
    has not returned 0 for it since. *)
Definition c_registered (sched : N) (hist : list (CCall * Z)) : Prop :=
  ∃ pre master post,
    hist = (pre ++ (c_reg sched master, 0%Z) :: post)%list ∧
    Forall (λ x, x ≠ (c_destroy sched, 0%Z)) post.

(** A C program with one struct, at address 1. *)
Definition example_program : Program :=
  Program_initial {[ 1%N := mk_nexus_sched "fw" "exec" "arg" ]}.

End Sched.

(* ===================================================================== *)
(** * Theorems about common/validation.cpp *)
(* ===================================================================== *)

Module ValidationTheory.
Import Validation.

Lemma invalidCharacter_false (c : ascii) :
  invalidCharacter c = false ↔
  iscntrl c = false ∧ c ≠ "/"%char ∧ c ≠ "\"%char.
Proof.
  unfold invalidCharacter, POSIX_PATH_SEPARATOR, WINDOWS_PATH_SEPARATOR.
  rewrite !orb_false_iff, !Ascii.eqb_neq. tauto.
Qed.

Lemma any_of_false (pred : ascii → bool) (s : string) :
  any_of pred s = false ↔ ∀ c, In c (String.list_ascii_of_string s) → pred c = false.
Proof.
  induction s as [|a s IH]; simpl.
  - split; [intros _ c [] | done].
  - rewrite orb_false_iff, IH. split.
    + intros [Ha Hs] c [<- | Hc]; auto.
    + intros H. split; [apply H; by left | intros c Hc; apply H; by right].
Qed.

Lemma any_of_invalid_false (id : string) :
  any_of invalidCharacter id = false ↔ valid_characters id.
Proof.
  rewrite any_of_false. unfold valid_characters.
  split; intros H c Hc; apply invalidCharacter_false, H, Hc.
Qed.

(** The decision of [validateID], one guard after the other. *)
Lemma validateID_None (NAME_MAX : nat) (id : string) :
  validateID NAME_MAX id = None ↔
  id ≠ "" ∧ (String.length id ≤ NAME_MAX)%nat ∧ id ≠ "." ∧ id ≠ ".." ∧
  valid_characters id.
Proof.
  unfold validateID. rewrite <- any_of_invalid_false.
  destruct (String.eqb_spec id "") as [-> | Hne].
  { split; [discriminate | intros [H _]; congruence]. }
  destruct (Nat.ltb_spec NAME_MAX (String.length id)) as [Hlt | Hle].
  { split; [discriminate | intros (_ & H & _); lia]. }
  destruct (String.eqb_spec id ".") as [-> | Hdot].
  { split; [discriminate | intros (_ & _ & H & _); congruence]. }
  destruct (String.eqb_spec id "..") as [-> | Hdots].
  { split; [discriminate | intros (_ & _ & _ & H & _); congruence]. }
  simpl. destruct (any_of invalidCharacter id).
  - split; [discriminate | intros (_ & _ & _ & _ & H); discriminate].
  - split; [intros _; repeat split; assumption | reflexivity].
Qed.

(** C9. [validateID] returns no error exactly for the IDs that are
    non-empty, at most [NAME_MAX] long, neither "." nor "..", and free of
    control characters and path separators.  In particular (on a platform
    whose [NAME_MAX] exceeds 2, so that an ID of that length is none of the
    special names) an ID of length exactly [NAME_MAX] that satisfies the
    character rule is accepted, and every ID of length [NAME_MAX + 1] is
    rejected. *)
Theorem validateID_accepts_iff (NAME_MAX : nat) (id : string) :
  (validateID NAME_MAX id = None ↔
     id ≠ "" ∧ (String.length id ≤ NAME_MAX)%nat ∧ id ≠ "." ∧ id ≠ ".." ∧
     valid_characters id)
  ∧ ((2 < NAME_MAX)%nat → String.length id = NAME_MAX → valid_characters id →
     validateID NAME_MAX id = None)
  ∧ (String.length id = S NAME_MAX → validateID NAME_MAX id ≠ None).
Proof.
  split; [apply validateID_None |]. split.
  - intros Hmax Hlen Hchars. apply validateID_None.
    split; [intros ->; simpl in Hlen; lia |].
    split; [lia |].
    split; [intros ->; simpl in Hlen; lia |].
    split; [intros ->; simpl in Hlen; lia | assumption].
  - intros Hlen H. apply validateID_None in H. lia.
Qed.

Lemma valid_characters_abc : valid_characters "abc".
Proof. apply any_of_invalid_false. reflexivity. Qed.

Lemma validateID_accepts_iff_witness :
  (2 < 3)%nat ∧ String.length "abc" = 3 ∧ valid_characters "abc" ∧
  validateID 3 "abc" = None.
Proof.
  split; [lia |]. split; [reflexivity |]. split; [apply valid_characters_abc |].
  apply (proj1 (proj2 (validateID_accepts_iff 3 "abc")));
    [lia | reflexivity | apply valid_characters_abc].
Defined.

(** C10. A secret of type UNKNOWN passes [validateSecret] whatever its
    'reference' and 'value' fields hold; the checks on the two fields
    decide only for the types REFERENCE and VALUE. *)
Theorem validateSecret_unknown (secret : Secret.t) :
  (Secret.type secret = Secret.UNKNOWN → validateSecret secret = None)
  ∧ (Secret.type secret = Secret.REFERENCE →
     (validateSecret secret = None ↔
      Secret.has_reference secret = true ∧ Secret.has_value secret = false))
  ∧ (Secret.type secret = Secret.VALUE →
     (validateSecret secret = None ↔
      Secret.has_value secret = true ∧ Secret.has_reference secret = false)).
Proof.
  unfold validateSecret. split; [intros ->; reflexivity |].
  split; intros ->;
    destruct (Secret.has_reference secret), (Secret.has_value secret); simpl;
    (split; [intros H; try discriminate H; by split
            | intros [H1 H2]; try discriminate H1; try discriminate H2; reflexivity]).
Qed.

Lemma validateSecret_unknown_witness :
  validateSecret
    (Secret.mk Secret.UNKNOWN (Some (Secret.mkReference "n" None))
               (Some (Secret.mkValue "v"))) = None.
Proof.
  apply (proj1 (validateSecret_unknown _)). reflexivity.
Defined.

(** ** The other validators *)

Lemma first_error_None {A} (body : A → option Error) (l : list A) :
  first_error body l = None ↔ Forall (λ x, body x = None) l.
Proof.
  induction l as [|x l IH]; simpl.
  - split; [constructor | done].
  - destruct (body x) eqn:Hx.
    + split; [done | intros H; inversion H; congruence].
    + rewrite IH. split; [by constructor | intros H; by inversion H].
Qed.

Lemma first_error_app {A} (body : A → option Error) (l1 l2 : list A) :
  first_error body (l1 ++ l2) =
  match first_error body l1 with
  | Some e => Some e
  | None => first_error body l2
  end.
Proof.
  induction l1 as [|x l1 IH]; simpl; [done|]. by destruct (body x).
Qed.

Lemma validateEnvironment_variable_None (v : Environment.Variable_) :
  validateEnvironment_variable v = None ↔ variable_ok v.
Proof.
  unfold validateEnvironment_variable, variable_ok, Environment.secret_of.
  destruct (Environment.type v).
  - split; [discriminate | intros []].
  - destruct (Environment.value v) as [x|], (Environment.secret v) as [s|]; simpl;
      (split;
       [ first [ discriminate | intros _; split; [by eexists | done] ]
       | first [ done | by intros [_ [=]] | by intros [[? [=]] _] ] ]).
  - destruct (Environment.secret v) as [s|], (Environment.value v) as [x|]; simpl;
      try (split; [discriminate | intros (? & ? & ? & _); discriminate]).
    destruct (validateSecret s) eqn:Hs.
    + split; [discriminate | intros (s' & [= <-] & _ & H & _); congruence].
    + destruct (has_null_byte (secret_value_data s)) eqn:Hn.
      * split; [discriminate | intros (s' & [= <-] & _ & _ & H); congruence].
      * split; [intros _; by exists s | done].
Qed.

(* The environments that pass. *)
Lemma validateEnvironment_None (environment : Environment.t) :
  validateEnvironment environment = None ↔
  Forall variable_ok (Environment.variables environment).
Proof.
  unfold validateEnvironment. rewrite first_error_None.
  apply Forall_proper; [|done]. intros v. apply validateEnvironment_variable_None.
Qed.

(** X1. [validateEnvironment] returns no error exactly when every
    variable is well formed: of type SECRET with a secret that
    [validateSecret] accepts, whose value holds no null byte, and without
    a value; or of type VALUE with a value and without a secret.  A
    variable of type UNKNOWN is never accepted. *)
Theorem validateEnvironment_accepts_iff (environment : Environment.t) :
  validateEnvironment environment = None ↔
  Forall variable_ok (Environment.variables environment).
Proof. exact (validateEnvironment_None environment). Qed.

(** X2. [validateEnvironment] reports the error of the first variable
    that is not well formed; the variables after it are not looked at. *)
Theorem validateEnvironment_first_error (before after : list Environment.Variable_)
    (v : Environment.Variable_) :
  Forall variable_ok before → ¬ variable_ok v →
  validateEnvironment (Environment.mk (before ++ v :: after)) =
  validateEnvironment_variable v
  ∧ validateEnvironment_variable v ≠ None.
Proof.
  intros Hbefore Hv. unfold validateEnvironment. simpl.
  rewrite first_error_app.
  assert (first_error validateEnvironment_variable before = None) as ->.
  { apply first_error_None. eapply Forall_impl; [exact Hbefore|].
    intros x. apply validateEnvironment_variable_None. }
  simpl. rewrite <- validateEnvironment_variable_None in Hv.
  by destruct (validateEnvironment_variable v).
Qed.

Lemma validateEnvironment_first_error_witness :
  validateEnvironment
    (Environment.mk
       [Environment.mkVariable "A" Environment.VALUE (Some "1") None;
        Environment.mkVariable "B" Environment.UNKNOWN None None;
        Environment.mkVariable "C" Environment.VALUE None None])
  = Some (mkError "Environment variable of type 'UNKNOWN' is not allowed").
Proof.
  apply (proj1 (validateEnvironment_first_error
                  [Environment.mkVariable "A" Environment.VALUE (Some "1") None]
                  [Environment.mkVariable "C" Environment.VALUE None None]
                  (Environment.mkVariable "B" Environment.UNKNOWN None None)
                  ltac:(repeat constructor; by eexists)
                  ltac:(by intros []))).
Defined.

Lemma validateVolume_None (volume : Volume.t) :
  validateVolume volume = None ↔ volume_ok volume.
Proof.
  unfold validateVolume, volume_ok, source_ok.
  destruct (Volume.host_path volume), (Volume.image volume),
    (Volume.source volume) as [src|]; simpl; try done.
  destruct (Volume.type src); simpl; try done;
    match goal with
    | |- context [bool_decide (is_Some ?x)] => destruct x; simpl
    end;
    (split; [try discriminate; by eexists | try done; by intros [? ?]]).
Qed.

(** X3. [validateContainerInfo] returns no error exactly when every
    volume has one and only one of 'host_path', 'image' and 'source' set
    (a source with a known type and the field that the type names) and,
    for a DOCKER container, 'docker' is set and none of its parameters
    has the key 'name'.  The parameters of a MESOS container are not
    looked at. *)
Theorem validateContainerInfo_accepts_iff (containerInfo : ContainerInfo.t) :
  validateContainerInfo containerInfo = None ↔
  Forall volume_ok (ContainerInfo.volumes containerInfo) ∧
  (ContainerInfo.type containerInfo = ContainerInfo.DOCKER →
   is_Some (ContainerInfo.docker containerInfo) ∧
   Forall (λ p, ContainerInfo.key p ≠ "name")
          (ContainerInfo.docker_parameters containerInfo)).
Proof.
  unfold validateContainerInfo.
  assert (Hvol : first_error
            (λ volume, match validateVolume volume with
                       | Some error =>
                           Some (mkError ("Invalid volume: " +:+ message error))
                       | None => None
                       end) (ContainerInfo.volumes containerInfo) = None ↔
          Forall volume_ok (ContainerInfo.volumes containerInfo)).
  { rewrite first_error_None. apply Forall_proper; [|done]. intros v.
    rewrite <- validateVolume_None. by destruct (validateVolume v). }
  destruct (first_error _ (ContainerInfo.volumes containerInfo)) eqn:Hfe.
  { split; [discriminate|]. intros [Hv _]. apply Hvol in Hv. discriminate. }
  assert (Forall volume_ok (ContainerInfo.volumes containerInfo)) as Hok
    by by apply Hvol.
  destruct (ContainerInfo.type containerInfo).
  - destruct (ContainerInfo.docker containerInfo) as [d|] eqn:Hd; simpl.
    + rewrite first_error_None. split.
      * intros Hp. split; [done|]. intros _. split; [by eexists|].
        eapply Forall_impl; [exact Hp|]. intros p Hk.
        simpl in Hk. destruct (String.eqb_spec (ContainerInfo.key p) "name");
          [discriminate | done].
      * intros [_ Hp]. destruct (Hp eq_refl) as [_ Hkeys].
        eapply Forall_impl; [exact Hkeys|]. intros p Hk. simpl.
        by destruct (String.eqb_spec (ContainerInfo.key p) "name").
    + split; [discriminate|]. intros [_ Hp].
      destruct (Hp eq_refl) as [[? [=]] _].
  - split; [intros _; split; [done | discriminate] | done].
Qed.

Lemma startsWith_slash (p : string) :
  startsWith p "/"%char = true ↔ ∃ rest, p = String "/"%char rest.
Proof.
  destruct p as [|c p]; simpl.
  - split; [discriminate | by intros [? [=]]].
  - rewrite Ascii.eqb_eq. split; [intros ->; by eexists | by intros [? [= -> _]]].
Qed.

Lemma path_check (path : option string) :
  bool_decide (is_Some path) && negb (startsWith (default "" path) "/"%char)
  = false ↔ path_ok path.
Proof.
  unfold path_ok. destruct path as [p|]; simpl.
  - destruct (startsWith p "/"%char) eqn:Hs; simpl.
    + split; [|done]. intros _ p' [= <-]. by apply startsWith_slash.
    + split; [discriminate|]. intros H. destruct (H p eq_refl) as [rest ->].
      by vm_compute in Hs.
  - split; [intros _ p [=] | done].
Qed.

Lemma command_check (c : CommandInfo.t) :
  (if negb (bool_decide (is_Some (CommandInfo.value c))) then true
   else bool_decide (is_Some (validateCommandInfo c))) = false ↔ command_ok c.
Proof.
  unfold command_ok, validateCommandInfo.
  rewrite <- validateEnvironment_None.
  destruct (CommandInfo.value c); simpl.
  - destruct (validateEnvironment _); simpl.
    + split; [discriminate | by intros [_ [=]]].
    + split; [intros _; split; [by eexists | done] | done].
  - split; [discriminate | by intros [[? [=]] _]].
Qed.
Lemma command_ok_iff (c : CommandInfo.t) :
  command_ok c ↔ is_Some (CommandInfo.value c) ∧ validateCommandInfo c = None.
Proof.
  unfold command_ok, validateCommandInfo.
  by rewrite validateEnvironment_None.
Qed.

Lemma scheme_check (scheme : option string) :
  bool_decide (is_Some scheme) && negb (String.eqb (default "" scheme) "http") &&
  negb (String.eqb (default "" scheme) "https") = false
  ↔ ∀ s, scheme = Some s → s = "http" ∨ s = "https".
Proof.
  destruct scheme as [s|]; simpl.
  - destruct (String.eqb_spec s "http") as [->|H1]; simpl.
    { split; [intros _ s [= <-]; by left | done]. }
    destruct (String.eqb_spec s "https") as [->|H2]; simpl.
    { split; [intros _ s [= <-]; by right | done]. }
    split; [discriminate|]. intros H. by destruct (H s eq_refl).
  - split; [intros _ s [=] | done].
Qed.

Lemma then_checks (B D : option Error) (P Q : Prop) :
  (B = None ↔ P) → (D = None ↔ Q) →
  match B with Some e => Some e | None => D end = None ↔ P ∧ Q.
Proof.
  intros HB HD. destruct B.
  - split; [discriminate | intros [HP _]; by apply HB in HP].
  - rewrite <- HD. split; [intros H; split; [by apply HB | done] | by intros [_ ?]].
Qed.

Lemma if_check (b : bool) (e : Error) (D : option Error) (Q : Prop) :
  (D = None ↔ Q) →
  (if b then Some e else D) = None ↔ b = false ∧ Q.
Proof.
  intros HD. destruct b.
  - split; [discriminate | by intros [[=] _]].
  - rewrite HD. split; [done | by intros [_ ?]].
Qed.

(* The health checks that pass. *)
Lemma validateHealthCheck_None (healthCheck : HealthCheck.t) :
  validateHealthCheck healthCheck = None ↔ health_check_ok healthCheck.
Proof.
  unfold validateHealthCheck, health_check_ok.
  assert (Hdur :
    (if negative (HealthCheck.delay_seconds healthCheck)
     then Some (mkError "Expecting 'delay_seconds' to be non-negative")
     else if negative (HealthCheck.grace_period_seconds healthCheck)
     then Some (mkError "Expecting 'grace_period_seconds' to be non-negative")
     else if negative (HealthCheck.interval_seconds healthCheck)
     then Some (mkError "Expecting 'interval_seconds' to be non-negative")
     else if negative (HealthCheck.timeout_seconds healthCheck)
     then Some (mkError "Expecting 'timeout_seconds' to be non-negative")
     else None) = None ↔
    negative (HealthCheck.delay_seconds healthCheck) = false
    ∧ negative (HealthCheck.grace_period_seconds healthCheck) = false
    ∧ negative (HealthCheck.interval_seconds healthCheck) = false
    ∧ negative (HealthCheck.timeout_seconds healthCheck) = false).
  { do 3 (apply if_check).
    destruct (negative (HealthCheck.timeout_seconds healthCheck)); by split. }
  destruct (HealthCheck.type healthCheck) as [[| | |]|]; cbv zeta.
  - split; [discriminate | by intros [[] _]].
  - apply then_checks; [|exact Hdur].
    destruct (HealthCheck.command healthCheck) as [c|].
    + setoid_rewrite command_ok_iff.
      destruct (CommandInfo.value c) eqn:Hval; simpl.
      * destruct (validateCommandInfo c) eqn:Hv.
        -- split; [discriminate | intros (c' & [= <-] & _ & H); congruence].
        -- split; [|done]. intros _. exists c. rewrite Hval.
           split; [done | split; [by eexists | done]].
      * split; [discriminate|]. intros (c' & [= <-] & [? H] & _). congruence.
    + split; [discriminate | by intros (c' & [=] & _)].
  - apply then_checks; [|exact Hdur].
    destruct (HealthCheck.http healthCheck) as [http|].
    + unfold HealthCheck.scheme_of, HealthCheck.path_of.
      pose proof (scheme_check (HealthCheck.scheme http)) as Hs.
      pose proof (path_check (HealthCheck.path http)) as Hp.
      destruct (_ && _ && _).
      * split; [discriminate|]. intros (h' & [= <-] & Hsch & _).
        by apply Hs in Hsch.
      * destruct (_ && _).
        -- split; [discriminate|]. intros (h' & [= <-] & _ & Hpath).
           by apply Hp in Hpath.
        -- split; [|done]. intros _. exists http.
           split; [done|]. split; [by apply Hs | by apply Hp].
    + split; [discriminate | by intros (h' & [=] & _)].
  - apply then_checks; [|exact Hdur].
    destruct (HealthCheck.tcp healthCheck); simpl.
    + split; [by eexists | done].
    + split; [discriminate | by intros [? [=]]].
  - split; [discriminate | by intros [[] _]].
Qed.

(** X4. [validateHealthCheck] returns no error exactly when the type is
    set and is COMMAND, HTTP or TCP; the field that the type names is set;
    a command has a value and an environment that [validateEnvironment]
    accepts; an HTTP scheme, if given, is "http" or "https" and an HTTP
    path, if given, starts with '/'; and none of the four durations that
    are given compares below 0.0. *)
Theorem validateHealthCheck_accepts_iff (healthCheck : HealthCheck.t) :
  validateHealthCheck healthCheck = None ↔ health_check_ok healthCheck.
Proof. exact (validateHealthCheck_None healthCheck). Qed.

(* The checks that pass. *)
Lemma validateCheckInfo_None (checkInfo : CheckInfo.t) :
  validateCheckInfo checkInfo = None ↔ check_info_ok checkInfo.
Proof.
  unfold validateCheckInfo, check_info_ok.
  assert (Hdur :
    (if negative (CheckInfo.delay_seconds checkInfo)
     then Some (mkError "Expecting 'delay_seconds' to be non-negative")
     else if negative (CheckInfo.interval_seconds checkInfo)
     then Some (mkError "Expecting 'interval_seconds' to be non-negative")
     else if negative (CheckInfo.timeout_seconds checkInfo)
     then Some (mkError "Expecting 'timeout_seconds' to be non-negative")
     else None) = None ↔
    negative (CheckInfo.delay_seconds checkInfo) = false
    ∧ negative (CheckInfo.interval_seconds checkInfo) = false
    ∧ negative (CheckInfo.timeout_seconds checkInfo) = false).
  { do 2 (apply if_check).
    destruct (negative (CheckInfo.timeout_seconds checkInfo)); by split. }
  destruct (CheckInfo.type checkInfo) as [[| | |]|]; cbv zeta.
  - split; [discriminate | by intros [[] _]].
  - apply then_checks; [|exact Hdur].
    destruct (CheckInfo.command checkInfo) as [c|].
    + setoid_rewrite command_ok_iff.
      destruct (CommandInfo.value (CheckInfo.command_info c)) eqn:Hval; simpl.
      * destruct (validateCommandInfo (CheckInfo.command_info c)) eqn:Hv.
        -- split; [discriminate | intros (c' & [= <-] & _ & H); congruence].
        -- split; [|done]. intros _. exists c. rewrite Hval.
           split; [done | split; [by eexists | done]].
      * split; [discriminate|]. intros (c' & [= <-] & [? H] & _). congruence.
    + split; [discriminate | by intros (c' & [=] & _)].
  - apply then_checks; [|exact Hdur].
    destruct (CheckInfo.http checkInfo) as [http|].
    + unfold CheckInfo.path_of.
      pose proof (path_check (CheckInfo.path http)) as Hp.
      destruct (_ && _).
      * split; [discriminate|]. intros (h' & [= <-] & Hpath).
        by apply Hp in Hpath.
      * split; [|done]. intros _. exists http. split; [done | by apply Hp].
    + split; [discriminate | by intros (h' & [=] & _)].
  - apply then_checks; [|exact Hdur].
    destruct (CheckInfo.tcp checkInfo); simpl.
    + split; [by eexists | done].
    + split; [discriminate | by intros [? [=]]].
  - split; [discriminate | by intros [[] _]].
Qed.

(** X5. [validateCheckInfo] returns no error exactly when the type is
    set and is COMMAND, HTTP or TCP; the field that the type names is set;
    the command of a command check has a value and an environment that
    [validateEnvironment] accepts; an HTTP path, if given, starts with
    '/'; and none of the three durations that are given compares below
    0.0. *)
Theorem validateCheckInfo_accepts_iff (checkInfo : CheckInfo.t) :
  validateCheckInfo checkInfo = None ↔ check_info_ok checkInfo.
Proof. exact (validateCheckInfo_None checkInfo). Qed.
(** X6. The two sibling validators agree: [validateCheckInfo] accepts a
    check exactly when [validateHealthCheck] accepts the health check
    with the same type, command, path, 'tcp' and durations (and neither
    scheme nor grace period). *)
Theorem validateCheckInfo_agrees_with_validateHealthCheck (checkInfo : CheckInfo.t) :
  validateCheckInfo checkInfo = None ↔
  validateHealthCheck (health_check_of checkInfo) = None.
Proof.
  rewrite validateCheckInfo_None, validateHealthCheck_None.
  unfold check_info_ok, health_check_ok, health_check_of. simpl.
  destruct (CheckInfo.type checkInfo) as [[| | |]|]; simpl.
  - tauto.
  - destruct (CheckInfo.command checkInfo) as [c|]; simpl.
    + split; intros [(c' & [= <-] & Hc) Hd];
        (split; [eexists; split; [done | exact Hc] | tauto]).
    + split; intros [(c' & [=] & _) _].
  - destruct (CheckInfo.http checkInfo) as [h|]; simpl.
    + split.
      * intros [(h' & [= <-] & Hp) Hd].
        split; [eexists; split; [done | split; [by intros s [=] | exact Hp]] | tauto].
      * intros [(h' & [= <-] & _ & Hp) Hd].
        split; [eexists; split; [done | exact Hp] | tauto].
    + split; intros [(h' & [=] & _) _].
  - tauto.
  - tauto.
Qed.

Lemma valid_characters_app (a b : string) :
  valid_characters a → valid_characters b → valid_characters (a +:+ b).
Proof.
  rewrite <- !any_of_invalid_false. intros Ha Hb.
  induction a as [|c a IH]; simpl in *; [done|].
  apply orb_false_iff in Ha as [-> Ha]. simpl. by apply IH.
Qed.

Lemma length_append (a b : string) :
  String.length (a +:+ b) = (String.length a + String.length b)%nat.
Proof. induction a as [|c a IH]; simpl; [done | by rewrite IH]. Qed.

(** X7. IDs can be joined: when [validateID] accepts two IDs and their
    concatenation is no longer than [NAME_MAX], it accepts the
    concatenation. *)
Theorem validateID_accepts_concatenation (NAME_MAX : nat) (a b : string) :
  validateID NAME_MAX a = None → validateID NAME_MAX b = None →
  (String.length a + String.length b ≤ NAME_MAX)%nat →
  validateID NAME_MAX (a +:+ b) = None.
Proof.
  rewrite !validateID_None.
  intros (Ha0 & _ & Ha1 & Ha2 & Hac) (Hb0 & _ & Hb1 & Hb2 & Hbc) Hlen.
  assert (2 ≤ String.length (a +:+ b))%nat as H2.
  { rewrite length_append. destruct a, b; simpl; try done; lia. }
  split; [intros H; rewrite H in H2; simpl in H2; lia|].
  split; [by rewrite length_append|].
  split; [intros H; rewrite H in H2; simpl in H2; lia|].
  split; [|by apply valid_characters_app].
  intros H. destruct a as [|c1 [|c2 a]]; [done| |].
  - destruct b as [|c3 [|c4 b]]; [done| |]; simpl in H.
    + injection H as -> ->. done.
    + injection H as _ _ H. discriminate H.
  - simpl in H. injection H as -> -> H.
    destruct a; [|discriminate H]. destruct b; [done | discriminate H].
Qed.

Lemma validateID_accepts_concatenation_witness :
  validateID 255 ("framework-1" +:+ "_executor-2") = None.
Proof.
  apply validateID_accepts_concatenation; [reflexivity | reflexivity | simpl; lia].
Defined.


Lemma validateCheckStatusInfo_None (st : CheckStatusInfo.t) :
  validateCheckStatusInfo st = None ↔ check_status_ok st.
Proof.
  unfold validateCheckStatusInfo, check_status_ok.
  destruct (CheckStatusInfo.type st) as [[| | |]|]; try done.
  - destruct (CheckStatusInfo.command st); simpl;
      [split; [by eexists | done] | split; [done | by intros [? [=]]]].
  - destruct (CheckStatusInfo.http st); simpl;
      [split; [by eexists | done] | split; [done | by intros [? [=]]]].
  - destruct (CheckStatusInfo.tcp st); simpl;
      [split; [by eexists | done] | split; [done | by intros [? [=]]]].
Qed.

(** X8. [validateCheckStatusInfo] returns no error exactly when the type
    is set and is COMMAND, HTTP or TCP, and the status field that the
    type names is set; and the status that mirrors a check which
    [validateCheckInfo] accepts (the same type, a status field for every
    field of the check) is accepted. *)
Theorem validateCheckStatusInfo_accepts_valid_checks
    (st : CheckStatusInfo.t) (checkInfo : CheckInfo.t) :
  (validateCheckStatusInfo st = None ↔ check_status_ok st)
  ∧ (validateCheckInfo checkInfo = None →
     validateCheckStatusInfo (status_of checkInfo) = None).
Proof.
  split; [apply validateCheckStatusInfo_None|].
  rewrite validateCheckInfo_None, validateCheckStatusInfo_None.
  unfold check_info_ok, check_status_ok, status_of. simpl.
  intros [H _]. destruct (CheckInfo.type checkInfo) as [[| | |]|]; try done.
  - destruct H as (cmd & -> & _). by eexists.
  - destruct H as (http & -> & _). by eexists.
  - destruct H as [tcp ->]. by eexists.
Qed.


(** X9. Which secrets an environment may carry.  A variable of type
    SECRET with a secret and no value passes [validateEnvironment]
    exactly when the secret is a REFERENCE with a reference and no
    value; or a VALUE with a value free of null bytes and no reference;
    or of type UNKNOWN, whatever fields it carries, as long as its value
    holds no null byte. *)
Theorem validateEnvironment_secret (name : string) (s : Secret.t) :
  validateEnvironment
    (Environment.mk [Environment.mkVariable name Environment.SECRET None (Some s)])
  = None ↔
  match Secret.type s with
  | Secret.REFERENCE => is_Some (Secret.reference s) ∧ Secret.value s = None
  | Secret.VALUE =>
      ∃ v, Secret.value s = Some v ∧ Secret.reference s = None ∧
           has_null_byte (Secret.data v) = false
  | Secret.UNKNOWN => has_null_byte (secret_value_data s) = false
  end.
Proof.
  unfold validateEnvironment, validateEnvironment_variable. simpl.
  unfold validateSecret, Secret.has_reference, Secret.has_value,
    secret_value_data.
  destruct s as [[| |] r v]; simpl.
  - by destruct (has_null_byte _).
  - destruct r as [r|], v as [v|]; simpl.
    + split; [done | by intros [_ [=]]].
    + split; [intros _; split; [by eexists | done] | done].
    + split; [done | by intros [[? [=]] _]].
    + split; [done | by intros [[? [=]] _]].
  - destruct r as [r|], v as [v|]; simpl.
    + split; [done | by intros (? & _ & [=] & _)].
    + split; [done | by intros (? & [=] & _)].
    + destruct (has_null_byte (Secret.data v)) eqn:Hn.
      * split; [done | intros (? & [= <-] & _ & ?); congruence].
      * split; [intros _; by exists v | done].
    + split; [done | by intros (? & [=] & _)].
Qed.

End ValidationTheory.

(* ===================================================================== *)
(** * Theorems about nexus_sched.cpp *)
(* ===================================================================== *)

Module SchedTheory.
Import Sched.

(** ** Records and effects *)

Lemma set_mailbox_id (p : SchedulerProcess) : set_mailbox (mailbox p) p = p.
Proof. by destruct p. Qed.

Lemma set_mailbox_nil (p : SchedulerProcess) :
  set_mailbox (mailbox p ++ []) p = p.
Proof. rewrite app_nil_r. apply set_mailbox_id. Qed.

(** Performing effects only appends the posted messages to mailboxes. *)
Lemma perform_lookup (effs : list Effect) (h : list SchedulerProcess) (j : nat) :
  foldl perform h effs !! j =
  (λ p, set_mailbox (mailbox p ++ map (pair (self p)) (posted j effs))%list p)
    <$> h !! j.
Proof.
  revert h. induction effs as [|e effs IH]; intros h; simpl.
  - destruct (h !! j) as [p|]; simpl; [by rewrite set_mailbox_nil | done].
  - rewrite IH. destruct e as [dst m|who m|q|c]; simpl; try done.
    unfold post. destruct (decide (who = j)) as [->|Hne].
    + rewrite list_lookup_alter_eq. destruct (h !! j) as [p|]; simpl; [|done].
      f_equal. unfold set_mailbox at 1 3. simpl.
      by rewrite <- app_assoc.
    + by rewrite list_lookup_alter_ne.
Qed.

Lemma length_perform (effs : list Effect) (h : list SchedulerProcess) :
  length (foldl perform h effs) = length h.
Proof.
  revert h. induction effs as [|e effs IH]; intros h; simpl; [done|].
  rewrite IH. destruct e; simpl; try done. unfold post. apply length_alter.
Qed.

(** ** One step of the program, seen from one process *)

Lemma quiet_api (j : nat) (effs : list Effect) (c : ApiCall) (r : option Z) :
  quiet j (map (Did None) effs ++
           match r with Some r => [Returned c r] | None => [] end).
Proof.
  unfold quiet. apply Forall_app. split.
  - apply Forall_map, Forall_true. done.
  - destruct r; repeat constructor.
Qed.

Lemma quiet_other (i j : nat) (effs : list Effect) :
  i ≠ j → quiet j (map (Did (Some i)) effs).
Proof. intros Hne. apply Forall_map, Forall_true. done. Qed.

(** A method of the facade leaves every process as it is, except that
    [stop] sets [terminate] in the driver's process. *)
Lemma api_lookup env c s s1 effs r j p :
  api env c s = (s1, effs, r) → heap s !! j = Some p →
  heap s1 !! j = Some p ∨ (c = stop ∧ heap s1 !! j = Some (set_terminate true p)).
Proof.
  intros Hapi Hj. destruct c; simpl in Hapi.
  - unfold NexusSchedulerDriver_start in Hapi.
    destruct (Driver.running (driver s)); [left; congruence |].
    destruct (SchedulerProcess_new _ _ _ _); injection Hapi as <- _ _; left; simpl;
      [by apply lookup_app_l_Some | done].
  - unfold NexusSchedulerDriver_stop in Hapi.
    destruct (Driver.running (driver s)); simpl in Hapi; [|left; congruence].
    destruct (deref s) as [[i q]|] eqn:Hd; injection Hapi as <- _ _; [|by left].
    unfold deref in Hd. destruct (Driver.process (driver s)) as [i'|]; [|done].
    simpl in Hd. destruct (heap s !! i') as [q'|] eqn:Hi; [|done].
    simpl in Hd. injection Hd as -> ->. simpl.
    destruct (decide (i = j)) as [->|Hne].
    + right. split; [done|]. rewrite list_lookup_insert_eq.
      * congruence.
      * by eapply lookup_lt_Some.
    + left. by rewrite list_lookup_insert_ne.
  - unfold NexusSchedulerDriver_killTask in Hapi.
    destruct (Driver.running (driver s)); simpl in Hapi; [|left; congruence].
    destruct (deref s) as [[i q]|]; injection Hapi as <- _ _; by left.
  - unfold NexusSchedulerDriver_replyToOffer in Hapi.
    destruct (Driver.running (driver s)); simpl in Hapi; [|left; congruence].
    destruct (deref s) as [[i q]|]; injection Hapi as <- _ _; by left.
  - unfold NexusSchedulerDriver_reviveOffers in Hapi.
    destruct (Driver.running (driver s)); simpl in Hapi; [|left; congruence].
    destruct (deref s) as [[i q]|]; injection Hapi as <- _ _; by left.
  - unfold NexusSchedulerDriver_sendFrameworkMessage in Hapi.
    destruct (Driver.running (driver s)); simpl in Hapi; [|left; congruence].
    destruct (deref s) as [[i q]|]; injection Hapi as <- _ _; by left.
Qed.

Lemma proc_step_unchanged env s a j p :
  proc_step env s a j p p [].
Proof.
  rewrite <- (set_mailbox_nil p) at 2. apply ps_mail. constructor.
Qed.

(** Every process of the heap is still there after a step, changed in
    one of the five ways of [proc_step]. *)
Lemma sys_step_proc env s a j p :
  heap s !! j = Some p →
  ∃ p', heap (sys_step env s a).1 !! j = Some p' ∧
        proc_step env s a j p p' (sys_step env s a).2.
Proof.
  intros Hj. unfold sys_step.
  destruct (exited s) eqn:Hex; [exists p; split; [done | apply proc_step_unchanged] |].
  destruct a as [c | i from m | i | i | i now].
  - destruct (api env c s) as [[s1 effs] r] eqn:Hapi. simpl.
    rewrite perform_lookup.
    destruct (api_lookup _ _ _ _ _ _ _ _ Hapi Hj) as [H1 | [-> H1]];
      rewrite H1; simpl; eexists; (split; [done|]).
    + apply ps_mail, quiet_api.
    + assert (posted j effs = []) as ->.
      { simpl in Hapi. unfold NexusSchedulerDriver_stop in Hapi.
        destruct (negb _); [by injection Hapi as _ <- _ |].
        destruct (deref s) as [[i q]|]; by injection Hapi as _ <- _. }
      simpl. rewrite app_nil_r.
      change (set_mailbox (mailbox p) (set_terminate true p))
        with (set_terminate true (set_mailbox (mailbox p) p)).
      rewrite set_mailbox_id. apply ps_stop; [done | apply quiet_api].
  - simpl. destruct (decide (i = j)) as [->|Hne].
    + rewrite list_lookup_alter_eq, Hj. simpl. eexists. split; [done|].
      apply ps_mail. constructor.
    + rewrite list_lookup_alter_ne, Hj by done. eexists. split; [done|].
      apply proc_step_unchanged.
  - destruct (heap s !! i) as [q|] eqn:Hi;
      [| exists p; split; [done | apply proc_step_unchanged]].
    destruct (pc q) eqn:Hpc;
      try (exists p; split; [done | apply proc_step_unchanged]).
    destruct (actor_run env i q) as [[q1 effs]|] eqn:Hrun;
      [| exists p; split; [done | apply proc_step_unchanged]].
    simpl. rewrite perform_lookup. destruct (decide (i = j)) as [->|Hne].
    + rewrite list_lookup_insert_eq by (by eapply lookup_lt_Some). simpl.
      assert (q = p) as -> by congruence.
      eexists. split; [done|]. by apply ps_run.
    + rewrite list_lookup_insert_ne, Hj by done. simpl.
      eexists. split; [done|]. apply ps_mail. by apply quiet_other.
  - destruct (heap s !! i) as [q|] eqn:Hi;
      [| exists p; split; [done | apply proc_step_unchanged]].
    destruct (pc q) eqn:Hpc;
      try (exists p; split; [done | apply proc_step_unchanged]).
    simpl. destruct (decide (i = j)) as [->|Hne].
    + rewrite list_lookup_insert_eq by (by eapply lookup_lt_Some).
      assert (q = p) as -> by congruence.
      eexists. split; [done|]. by apply ps_check.
    + rewrite list_lookup_insert_ne, Hj by done.
      eexists. split; [done|]. apply proc_step_unchanged.
  - destruct (heap s !! i) as [q|] eqn:Hi;
      [| exists p; split; [done | apply proc_step_unchanged]].
    destruct (pc q) eqn:Hpc;
      try (exists p; split; [done | apply proc_step_unchanged]).
    destruct (receive q) as [[from m] q1] eqn:Hrecv.
    destruct (dispatch env i now from m (ftMsg s) q1) as [[ft q2] effs] eqn:Hd.
    simpl. rewrite perform_lookup. destruct (decide (i = j)) as [->|Hne].
    + rewrite list_lookup_insert_eq by (by eapply lookup_lt_Some). simpl.
      assert (q = p) as -> by congruence.
      eexists. split; [done|]. by eapply ps_receive.
    + rewrite list_lookup_insert_ne, Hj by done. simpl.
      eexists. split; [done|]. apply ps_mail. constructor; [done|].
      by apply quiet_other.
Qed.

(** A step either keeps the number of processes or is a successful
    [start], which allocates one more at the end of the heap. *)
Lemma sys_step_heap env s a :
  length (heap (sys_step env s a).1) = length (heap s)
  ∨ ∃ p0, a = Api start ∧
      SchedulerProcess_new env (Driver.master (driver (sys_step env s a).1))
        (getFrameworkName (sched s)) (getExecutorInfo (sched s)) = Some p0 ∧
      heap (sys_step env s a).1 =
        (heap s ++ [set_self (spawn_pid env (length (heap s))) p0])%list ∧
      (sys_step env s a).2 = [Returned start 0].
Proof.
  unfold sys_step. destruct (exited s); [by left|].
  destruct a as [c | i from m | i | i | i now].
  - destruct c; simpl.
    + unfold NexusSchedulerDriver_start.
      destruct (Driver.running (driver s)); simpl; [by left|].
      destruct (SchedulerProcess_new _ _ _ _) as [p0|] eqn:Hnew; simpl;
        [right; by exists p0 | by left].
    + unfold NexusSchedulerDriver_stop. destruct (negb _); [by left|].
      destruct (deref s) as [[i q]|]; simpl; [|by left].
      left. apply length_insert.
    + unfold NexusSchedulerDriver_killTask. destruct (negb _); [by left|].
      destruct (deref s) as [[i q]|]; by left.
    + unfold NexusSchedulerDriver_replyToOffer. destruct (negb _); [by left|].
      destruct (deref s) as [[i q]|]; simpl; [|by left].
      left. unfold post. apply length_alter.
    + unfold NexusSchedulerDriver_reviveOffers. destruct (negb _); [by left|].
      destruct (deref s) as [[i q]|]; by left.
    + unfold NexusSchedulerDriver_sendFrameworkMessage.
      destruct (negb _); [by left|].
      destruct (deref s) as [[i q]|]; simpl; [|by left].
      left. unfold post. apply length_alter.
  - left. simpl. apply length_alter.
  - left. destruct (heap s !! i) as [q|]; [|done]. destruct (pc q); try done.
    destruct (actor_run env i q) as [[q1 effs]|]; [|done].
    simpl. by rewrite length_perform, length_insert.
  - left. destruct (heap s !! i) as [q|]; [|done]. destruct (pc q); try done.
    simpl. by rewrite length_insert.
  - left. destruct (heap s !! i) as [q|]; [|done]. destruct (pc q); try done.
    destruct (receive q) as [[from m] q1].
    destruct (dispatch env i now from m (ftMsg s) q1) as [[ft q2] effs].
    simpl. by rewrite length_perform, length_insert.
Qed.

(** A step shows nothing of a process that is not in the heap. *)
Lemma sys_step_quiet_absent env s a j :
  heap s !! j = None → quiet j (sys_step env s a).2.
Proof.
  intros Hj. unfold sys_step. destruct (exited s); [constructor|].
  destruct a as [c | i from m | i | i | i now].
  - destruct (api env c s) as [[s1 effs] r]. apply quiet_api.
  - constructor.
  - destruct (heap s !! i) as [q|] eqn:Hi; [|constructor].
    destruct (pc q); try constructor.
    destruct (actor_run env i q) as [[q1 effs]|]; [|constructor].
    apply quiet_other. congruence.
  - destruct (heap s !! i) as [q|] eqn:Hi; [|constructor].
    destruct (pc q); constructor.
  - destruct (heap s !! i) as [q|] eqn:Hi; [|constructor].
    destruct (pc q); try constructor.
    destruct (receive q) as [[from m] q1].
    destruct (dispatch env i now from m (ftMsg s) q1) as [[ft q2] effs].
    simpl. constructor; [congruence|]. apply quiet_other. congruence.
Qed.

(** The state of a freshly constructed process. *)
Lemma SchedulerProcess_new_fresh env m fn ei p0 :
  SchedulerProcess_new env m fn ei = Some p0 →
  fid p0 = "" ∧ savedOffers p0 = ∅ ∧ savedSlavePids p0 = ∅ ∧
  terminate p0 = false ∧ pc p0 = PcStart ∧ mailbox p0 = [].
Proof.
  unfold SchedulerProcess_new.
  destruct (UrlProcessor_process env m).1;
    repeat case_match; intros [= <-]; done.
Qed.

(** A process that appears in the heap was just constructed by [start]. *)
Lemma sys_step_new env s a j p' :
  heap s !! j = None → heap (sys_step env s a).1 !! j = Some p' →
  fid p' = "" ∧ savedOffers p' = ∅ ∧ savedSlavePids p' = ∅ ∧
  terminate p' = false ∧ pc p' = PcStart ∧ mailbox p' = [].
Proof.
  intros Hj Hj'. destruct (sys_step_heap env s a) as [Hlen | (p0 & _ & Hnew & Hh & _)].
  - apply lookup_ge_None in Hj. apply lookup_lt_Some in Hj'. lia.
  - rewrite Hh in Hj'. apply lookup_ge_None in Hj.
    rewrite lookup_app_r in Hj' by done.
    destruct (j - length (heap s)) as [|n]; simpl in Hj'; [|done].
    injection Hj' as <-. by apply SchedulerProcess_new_fresh in Hnew.
Qed.

Lemma quiet_received j o : quiet j o → omap (received_in j) o = [].
Proof.
  induction 1 as [|x o Hx _ IH]; [done|].
  destruct x as [i from m|[i|] e|]; simpl; try done.
  all: by rewrite decide_False.
Qed.

Lemma quiet_callback j o : quiet j o → omap (callback_in j) o = [].
Proof.
  induction 1 as [|x o Hx _ IH]; [done|].
  destruct x as [i from m|[i|] [] |]; simpl; try done.
  by rewrite decide_False.
Qed.

Lemma received_did j i effs : omap (received_in j) (map (Did i) effs) = [].
Proof. induction effs as [|e effs IH]; [done | exact IH]. Qed.

(** ** Runs *)

Lemma sys_run_cons env s a acts :
  sys_run env s (a :: acts) =
  ((sys_run env (sys_step env s a).1 acts).1,
   (sys_step env s a).2 :: (sys_run env (sys_step env s a).1 acts).2).
Proof.
  cbn [sys_run]. destruct (sys_step env s a) as [s1 o]. cbn [fst snd].
  by destruct (sys_run env s1 acts) as [s2 os].
Qed.

Lemma received_by_cons j o os :
  received_by j (o :: os) = (omap (received_in j) o ++ received_by j os)%list.
Proof. unfold received_by. simpl. apply omap_app. Qed.

Lemma callbacks_of_cons j o os :
  callbacks_of j (o :: os) = (omap (callback_in j) o ++ callbacks_of j os)%list.
Proof. unfold callbacks_of. simpl. apply omap_app. Qed.

(** ** What [dispatch] does to each member *)

Lemma save_offer_lookup oid so offer oid' :
  is_Some (save_offer oid so offer !! oid') ↔ oid' = oid ∨ is_Some (so !! oid').
Proof.
  unfold save_offer, subscript.
  destruct (so !! oid) as [inner|] eqn:Hso;
    (destruct (decide (oid = oid')) as [<-|Hne];
     [rewrite lookup_insert_eq; split; [by left | by eexists]
     | rewrite !lookup_insert_ne by done; split; [by right | by intros [?|?]]]).
Qed.

Lemma foldl_save_offer_lookup offs oid so oid' :
  is_Some (foldl (save_offer oid) so offs !! oid') ↔
  (oid' = oid ∧ offs ≠ []) ∨ is_Some (so !! oid').
Proof.
  revert so. induction offs as [|offer offs IH]; intros so; simpl.
  - split; [by right | by intros [[_ ?]|?]].
  - rewrite IH, save_offer_lookup. split.
    + intros [[-> _] | [-> | H]]; [left | left | right]; done.
    + intros [[-> _] | H]; [right; by left | right; by right].
Qed.

Lemma keep_slave_pid_other oid st task oid' :
  oid' ≠ oid → (keep_slave_pid oid st task).1 !! oid' = st.1 !! oid'.
Proof.
  intros Hne. unfold keep_slave_pid, subscript.
  destruct (st.1 !! oid) as [inner|]; simpl;
    destruct (_ !! TaskDescription.slaveId task); simpl;
    by rewrite !lookup_insert_ne.
Qed.

Lemma foldl_keep_slave_pid_other tasks oid st oid' :
  oid' ≠ oid → (foldl (keep_slave_pid oid) st tasks).1 !! oid' = st.1 !! oid'.
Proof.
  intros Hne. revert st. induction tasks as [|t tasks IH]; intros st; simpl; [done|].
  by rewrite IH, keep_slave_pid_other.
Qed.

Lemma foldl_keep_slave_pid_delete tasks oid st :
  delete oid (foldl (keep_slave_pid oid) st tasks).1 = delete oid st.1.
Proof.
  apply map_eq. intros oid'. destruct (decide (oid = oid')) as [<-|Hne].
  - by rewrite !lookup_delete_eq.
  - by rewrite !lookup_delete_ne, foldl_keep_slave_pid_other.
Qed.

(** [savedOffers] after a message. *)
Lemma dispatch_savedOffers env this now from m ft p :
  savedOffers (dispatch env this now from m ft p).1.2 =
  match m with
  | M2F_SLOT_OFFER oid offs => foldl (save_offer oid) (savedOffers p) offs
  | F2F_SLOT_OFFER_REPLY oid _ _ | M2F_RESCIND_OFFER oid =>
      delete oid (savedOffers p)
  | _ => savedOffers p
  end.
Proof.
  destruct m; simpl; try done.
  - destruct (isFT p); simpl; apply (foldl_keep_slave_pid_delete _ _ (_, _)).
  - by destruct (subscript _ _ _).
  - by destruct (bool_decide _).
  - by destruct (bool_decide _).
  - by destruct (isFT p).
Qed.

(** [fid] after a message. *)
Lemma dispatch_fid env this now from m ft p :
  fid (dispatch env this now from m ft p).1.2 =
  match m with
  | M2F_REGISTER_REPLY fid' => fid'
  | _ => fid p
  end.
Proof.
  destruct m; simpl; try done.
  - by destruct (isFT p).
  - by destruct (subscript _ _ _).
  - by destruct (bool_decide _).
  - by destruct (bool_decide _).
  - by destruct (isFT p).
Qed.

(** What no message changes. *)
Lemma dispatch_frame env this now from m ft p :
  let p' := (dispatch env this now from m ft p).1.2 in
  self p' = self p ∧ mailbox p' = mailbox p ∧ pc p' = pc p ∧
  terminate p' = terminate p ∧ isFT p' = isFT p ∧ user p' = user p.
Proof.
  destruct m; simpl; try done.
  - by destruct (isFT p) eqn:E.
  - by destruct (subscript _ _ _).
  - by destruct (bool_decide _).
  - by destruct (bool_decide _).
  - by destruct (isFT p) eqn:E.
Qed.

Lemma receive_eq p :
  ∃ rest, (receive p).2 = set_mailbox rest p ∧
    (mailbox p = [] ∧ rest = [] ∧ (receive p).1 = (PID_default, PROCESS_TIMEOUT)
     ∨ mailbox p = (receive p).1 :: rest).
Proof.
  unfold receive. destruct (mailbox p) as [|[from m] rest] eqn:Hm.
  - exists []. split; [|by left]. simpl. by rewrite <- Hm, set_mailbox_id.
  - exists rest. split; [done | by right].
Qed.

(** An offer is recorded after a message exactly when the message
    delivers it with a slot, or it was recorded and the message does
    not end it. *)
Lemma dispatch_offer_recorded env this now from m ft p oid :
  is_Some (savedOffers (dispatch env this now from m ft p).1.2 !! oid) ↔
  (∃ offs, m = M2F_SLOT_OFFER oid offs ∧ offs ≠ [])
  ∨ (is_Some (savedOffers p !! oid) ∧ ¬ closes oid m).
Proof.
  rewrite dispatch_savedOffers.
  destruct m; simpl;
    try (split;
         [ intros H; right; split; [done | by intros []]
         | intros [(?&?&?)|[? _]]; done ]);
    try match goal with
    | |- context [delete ?o _] =>
        destruct (decide (o = oid)) as [->|Hne];
        [ rewrite lookup_delete_eq; split; [by intros [? ?] |];
          intros [(?&?&?)|[_ H]]; [done | by destruct H]
        | rewrite lookup_delete_ne by done;
          split; [intros H; right; by split | by intros [(?&?&?)|[? _]]] ]
    end.
  (* M2F_SLOT_OFFER *)
  rewrite foldl_save_offer_lookup. split.
  - intros [[-> Hoffs] | H]; [left; by eexists | right; split; [done | by intros []]].
  - intros [(offs' & [= -> ->] & Hoffs) | [H _]]; [by left | by right].
Qed.

Lemma offer_open_nil oid : ¬ offer_open oid [].
Proof. intros (pre & offs & post & H & _). by destruct pre. Qed.

Lemma offer_open_snoc oid hist m :
  offer_open oid (hist ++ [m]) ↔
  (∃ offs, m = M2F_SLOT_OFFER oid offs ∧ offs ≠ [])
  ∨ (offer_open oid hist ∧ ¬ closes oid m).
Proof.
  split.
  - intros (pre & offs & post & Heq & Hoffs & Hpost).
    destruct post as [|x post _] using rev_ind.
    + apply (app_inj_tail hist pre) in Heq as [-> ->]. left. by exists offs.
    + rewrite app_comm_cons, app_assoc in Heq.
      apply app_inj_tail in Heq as [-> ->].
      apply Forall_app in Hpost as [Hpost Hx]. right. split.
      * by exists pre, offs, post.
      * by inversion Hx.
  - intros [(offs & -> & Hoffs) | [(pre & offs & post & -> & Hoffs & Hpost) Hm]].
    + exists hist, offs, []. by repeat split.
    + exists pre, offs, (post ++ [m])%list. repeat split; [|done|].
      * by rewrite <- app_assoc.
      * apply Forall_app. split; [done | by constructor].
Qed.

(** A step that shows process [j] dequeuing [m] is its dispatch of [m]. *)
Lemma sys_step_received env s a j p from m :
  heap s !! j = Some p → In (Received j from m) (sys_step env s a).2 →
  ∃ now p1 ft p2 effs,
    a = Receive j now ∧ pc p = PcReceive ∧ exited s = false ∧
    receive p = (from, m, p1) ∧
    dispatch env j now from m (ftMsg s) p1 = (ft, p2, effs) ∧
    (sys_step env s a).2 = Received j from m :: map (Did (Some j)) effs ∧
    heap (sys_step env s a).1 !! j =
      Some (set_mailbox (mailbox p2 ++ map (pair (self p2)) (posted j effs))
                        (set_pc PcLoop p2)).
Proof.
  intros Hj Hin. destruct (sys_step_proc env s a j p Hj) as (p' & Hj' & Hstep).
  assert (∀ o, quiet j o → ¬ In (Received j from m) o) as Hquiet.
  { intros o Hq Ho. unfold quiet in Hq. rewrite Forall_forall in Hq.
    apply list_elem_of_In in Ho. by apply Hq in Ho. }
  inversion Hstep as [extra o Hq | o Ha Hq | p1 effs Ha Hpc Hrun Hp' Ho
                     | Ha Hpc Hp' Ho
                     | now from' m' p1 ft p2 effs Ha Hpc Hex Hrecv Hd Hp' Ho].
  - by apply Hquiet in Hin.
  - by apply Hquiet in Hin.
  - rewrite <- Ho in Hin. apply in_map_iff in Hin as (? & [=] & _).
  - rewrite <- Ho in Hin. destruct Hin.
  - rewrite <- Ho in Hin. destruct Hin as [[= <- <-] | Hin].
    + exists now, p1, ft, p2, effs. rewrite Hj', <- Hp'. by repeat split.
    + apply in_map_iff in Hin as (? & [=] & _).
Qed.

(** ** The claims on offers, identity and slave addresses *)

(** C3. Processing a rescind of offer [oid], or the framework's own reply
    to offer [oid], leaves [savedOffers] without an entry for [oid]: in
    [dispatch] for any state (so also when [oid] was recorded), and in
    every step of the program in which an actor dequeues such a
    message. *)
Theorem offer_erased_by_rescind_and_reply env oid :
  (∀ this now from ft p,
     savedOffers (dispatch env this now from (M2F_RESCIND_OFFER oid) ft p).1.2
       !! oid = None)
  ∧ (∀ this now from ft p tasks params,
     savedOffers
       (dispatch env this now from (F2F_SLOT_OFFER_REPLY oid tasks params) ft p).1.2
       !! oid = None)
  ∧ (∀ s a j from m p',
     In (Received j from m) (sys_step env s a).2 → closes oid m →
     heap (sys_step env s a).1 !! j = Some p' →
     savedOffers p' !! oid = None).
Proof.
  split; [|split].
  - intros. rewrite dispatch_savedOffers. apply lookup_delete_eq.
  - intros. rewrite dispatch_savedOffers. apply lookup_delete_eq.
  - intros s a j from m p' Hin Hm Hj'.
    destruct (heap s !! j) as [p|] eqn:Hj.
    + destruct (sys_step_received _ _ _ _ _ _ _ Hj Hin)
        as (now & p1 & ft & p2 & effs & _ & _ & _ & _ & Hd & _ & Hp').
      rewrite Hp' in Hj'. injection Hj' as <-. simpl.
      apply eq_None_not_Some. intros Hsome.
      assert (p2 = (dispatch env j now from m (ftMsg s) p1).1.2) as Hp2
        by by rewrite Hd.
      rewrite Hp2 in Hsome. apply dispatch_offer_recorded in Hsome.
      destruct Hsome as [(offs & -> & _) | [_ Hn]]; [destruct Hm | done].
    + pose proof (sys_step_quiet_absent env s a j Hj) as Hq.
      unfold quiet in Hq. rewrite Forall_forall in Hq.
      apply list_elem_of_In in Hin. by apply Hq in Hin.
Qed.

Lemma offer_erased_by_rescind_and_reply_witness :
  savedOffers (process_at example_before_rescind 0) !! "o-1"
    = Some {[ "s1" := mkPID 2 2 2 ]}
  ∧ savedOffers
      (process_at (sys_step example_env example_before_rescind (Receive 0 3)).1 0)
      !! "o-1" = None.
Proof.
  split; [by vm_compute|].
  apply (proj2 (proj2 (offer_erased_by_rescind_and_reply example_env "o-1"))
           example_before_rescind (Receive 0 3) 0 example_master
           (M2F_RESCIND_OFFER "o-1")).
  - vm_compute. by left.
  - reflexivity.
  - by vm_compute.
Defined.

(** The invariant behind C4: every process of the heap records exactly
    the offers that its history [H] leaves open, and a process that does
    not exist yet has no history. *)
Lemma offers_invariant_step env s a (H : nat → list Msg) :
  (∀ j p, heap s !! j = Some p →
          ∀ oid, is_Some (savedOffers p !! oid) ↔ offer_open oid (H j)) →
  (∀ j, heap s !! j = None → H j = []) →
  let H' j := (H j ++ omap (received_in j) (sys_step env s a).2)%list in
  (∀ j p, heap (sys_step env s a).1 !! j = Some p →
          ∀ oid, is_Some (savedOffers p !! oid) ↔ offer_open oid (H' j))
  ∧ (∀ j, heap (sys_step env s a).1 !! j = None → H' j = []).
Proof.
  intros Hinv Hnone H'. subst H'. split.
  - intros j p' Hj' oid. destruct (heap s !! j) as [p|] eqn:Hj.
    + destruct (sys_step_proc env s a j p Hj) as (q & Hq & Hstep).
      assert (q = p') as -> by congruence. clear Hq.
      specialize (Hinv j p Hj oid).
      inversion Hstep as [extra o Hq | o Ha Hq | p1 effs Ha Hpc Hrun Hp' Ho
                         | Ha Hpc Hp' Ho
                         | now from m p1 ft p2 effs Ha Hpc Hex Hrecv Hd Hp' Ho];
        simpl.
      * by rewrite (quiet_received _ _ Hq), app_nil_r.
      * by rewrite (quiet_received _ _ Hq), app_nil_r.
      * rewrite received_did, app_nil_r.
        unfold actor_run in Hrun. destruct (pw_name env); [|done].
        destruct (isFT _); injection Hrun as <- _; exact Hinv.
      * rewrite app_nil_r. unfold actor_check. by destruct (terminate p).
      * rewrite decide_True by done.
        rewrite received_did, offer_open_snoc, <- Hinv.
        assert (p2 = (dispatch env j now from m (ftMsg s) p1).1.2) as ->
          by by rewrite Hd.
        rewrite dispatch_offer_recorded.
        destruct (receive_eq p) as (rest & Hr & _). rewrite Hrecv in Hr.
        simpl in Hr. by rewrite Hr.
    + rewrite (Hnone j Hj), (quiet_received _ _ (sys_step_quiet_absent env s a j Hj)).
      simpl. destruct (sys_step_new env s a j p' Hj Hj') as (_ & -> & _).
      rewrite lookup_empty. split; [by intros [? ?] |].
      intros Ho. by apply offer_open_nil in Ho.
  - intros j Hj'. assert (heap s !! j = None) as Hj.
    { destruct (heap s !! j) as [p|] eqn:Hj; [|done].
      destruct (sys_step_proc env s a j p Hj) as (q & Hq & _). congruence. }
    by rewrite (Hnone j Hj), (quiet_received _ _ (sys_step_quiet_absent env s a j Hj)).
Qed.

Lemma offers_invariant_run env acts s (H : nat → list Msg) :
  (∀ j p, heap s !! j = Some p →
          ∀ oid, is_Some (savedOffers p !! oid) ↔ offer_open oid (H j)) →
  (∀ j, heap s !! j = None → H j = []) →
  ∀ j p, heap (sys_run env s acts).1 !! j = Some p →
         ∀ oid, is_Some (savedOffers p !! oid) ↔
                offer_open oid (H j ++ received_by j (sys_run env s acts).2).
Proof.
  revert s H. induction acts as [|a acts IH]; intros s H Hinv Hnone j p Hj oid.
  - simpl in *. unfold received_by. simpl. rewrite app_nil_r. by apply Hinv.
  - rewrite sys_run_cons in *. cbn [fst snd] in *.
    rewrite received_by_cons, app_assoc.
    destruct (offers_invariant_step env s a H Hinv Hnone) as [Hinv' Hnone'].
    by apply (IH _ (λ j, H j ++ omap (received_in j) (sys_step env s a).2)%list).
Qed.

(** The actor has observed a master change after the delivery of offer
    [o-1], and [o-1] is still a key of [savedOffers]. *)
Lemma offers_survive_master_change_counterexample :
  received_by 0
    (sys_run example_env example_ft_system
       (example_ft_registration ++ example_offer ++ example_failover)).2
  = [NEW_MASTER_DETECTED "e1" example_master; M2F_REGISTER_REPLY "fw-9";
     M2F_SLOT_OFFER "o-1" [SlaveOffer.mk "s1" "host1" ∅ (mkPID 2 2 2)];
     NEW_MASTER_DETECTED "e2" (mkPID 8 8 8)]
  ∧ (heap (sys_run example_env example_ft_system
             (example_ft_registration ++ example_offer ++ example_failover)).1 !! 0)
      ≫= (λ p, savedOffers p !! "o-1")
    = Some {[ "s1" := mkPID 2 2 2 ]}.
Proof. split; by vm_compute. Qed.

(** C4, amended. At every state the program reaches from a new driver,
    an offer id is a key of an actor's [savedOffers] exactly when the
    actor received the offer with at least one slot and has since
    neither processed the framework's reply to it nor a rescind for it.
    A master change plays no part: processing NEW_MASTER_DETECTED leaves
    [savedOffers] as it is. *)
Theorem saved_offers_iff_open env sched master acts j p oid :
  heap (sys_run env (NexusSchedulerDriver_new sched master) acts).1 !! j = Some p →
  (is_Some (savedOffers p !! oid) ↔
   offer_open oid
     (received_by j (sys_run env (NexusSchedulerDriver_new sched master) acts).2))
  ∧ (∀ this now from masterSeq masterPid ft,
       savedOffers
         (dispatch env this now from (NEW_MASTER_DETECTED masterSeq masterPid) ft p).1.2
       = savedOffers p).
Proof.
  intros Hj. split; [|intros; by rewrite dispatch_savedOffers].
  apply (offers_invariant_run env acts _ (λ _, [])); [| |exact Hj].
  - intros i q Hi. done.
  - done.
Qed.

Lemma saved_offers_iff_open_witness :
  is_Some (savedOffers example_offered_process !! "o-1") ↔
  offer_open "o-1"
    (received_by 0
       (sys_run example_env example_system
          (example_registration ++ example_offer)).2).
Proof.
  apply (saved_offers_iff_open example_env Scheduler_default "nexus://1@h:1"
           (example_registration ++ example_offer) 0 example_offered_process
           "o-1").
  by vm_compute.
Defined.

(** The framework id was [fw-9]; the reply of the next master carries
    [fw-2], and that becomes the framework id. *)
Lemma fid_reassigned_counterexample :
  fid <$> heap (sys_run example_env example_ft_system example_ft_registration).1 !! 0
    = Some "fw-9"
  ∧ fid <$> heap (sys_run example_env example_ft_system
                    (example_ft_registration ++ example_failover ++
                     example_second_reply)).1 !! 0
    = Some "fw-2".
Proof. split; by vm_compute. Qed.

(** C6, amended. The framework id of an actor changes only when the
    actor processes an M2F_REGISTER_REPLY, and every M2F_REGISTER_REPLY
    it processes assigns the id the reply carries, whether or not an id
    was assigned before; no other step of the program changes it. *)
Theorem fid_changes_only_by_register_reply env s a j :
  (∀ p p', heap s !! j = Some p → heap (sys_step env s a).1 !! j = Some p' →
     fid p' = fid p
     ∨ ∃ from, In (Received j from (M2F_REGISTER_REPLY (fid p')))
                  (sys_step env s a).2)
  ∧ (∀ from id p', In (Received j from (M2F_REGISTER_REPLY id)) (sys_step env s a).2 →
     heap (sys_step env s a).1 !! j = Some p' → fid p' = id).
Proof.
  split.
  - intros p p' Hj Hj'.
    destruct (sys_step_proc env s a j p Hj) as (q & Hq & Hstep).
    assert (q = p') as -> by congruence. clear Hq.
    inversion Hstep as [extra o Hq | o Ha Hq | p1 effs Ha Hpc Hrun Hp' Ho
                       | Ha Hpc Hp' Ho
                       | now from m p1 ft p2 effs Ha Hpc Hex Hrecv Hd Hp' Ho];
      simpl; try by left.
    + left. unfold actor_run in Hrun. destruct (pw_name env); [|done].
      by destruct (isFT _); injection Hrun as <- _.
    + left. unfold actor_check. by destruct (terminate p).
    + assert (p2 = (dispatch env j now from m (ftMsg s) p1).1.2) as Hp2
        by by rewrite Hd.
      assert (fid p1 = fid p) as Hp1.
      { destruct (receive_eq p) as (rest & Hr & _). rewrite Hrecv in Hr.
        simpl in Hr. by rewrite Hr. }
      rewrite Hp2, dispatch_fid.
      destruct m; try (left; exact Hp1).
      right. exists from. by left.
  - intros from id p' Hin Hj'. destruct (heap s !! j) as [p|] eqn:Hj.
    + destruct (sys_step_received _ _ _ _ _ _ _ Hj Hin)
        as (now & p1 & ft & p2 & effs & _ & _ & _ & _ & Hd & _ & Hp').
      rewrite Hp' in Hj'. injection Hj' as <-. simpl.
      assert (p2 = (dispatch env j now from (M2F_REGISTER_REPLY id) (ftMsg s) p1).1.2)
        as -> by by rewrite Hd.
      by rewrite dispatch_fid.
    + pose proof (sys_step_quiet_absent env s a j Hj) as Hq.
      unfold quiet in Hq. rewrite Forall_forall in Hq.
      apply list_elem_of_In in Hin. by apply Hq in Hin.
Qed.

Lemma fid_changes_only_by_register_reply_witness :
  fid (process_at example_before_second_reply 0) = "fw-9"
  ∧ fid (process_at
           (sys_step example_env example_before_second_reply (Receive 0 4)).1 0)
    = "fw-2".
Proof.
  split; [by vm_compute|].
  apply (proj2 (fid_changes_only_by_register_reply example_env
                  example_before_second_reply (Receive 0 4) 0)
           (mkPID 8 8 8) "fw-2").
  - vm_compute. by left.
  - by vm_compute.
Defined.

(** Slave [s9] has no entry in [savedSlavePids]; after a framework
    message for it, it has one. *)
Lemma unknown_slave_recorded_counterexample :
  savedSlavePids example_process !! "s9" = None
  ∧ savedSlavePids
      (dispatch example_env 0 2 (self example_process)
         (F2F_FRAMEWORK_MESSAGE (FrameworkMessage.mk "s9" 1 "x"))
         FTMessaging_initial example_process).1.2 !! "s9"
    = Some PID_default.
Proof. split; by vm_compute. Qed.

(** C7, amended. When the actor processes an (F2F) framework message
    for a slave that has no entry in [savedSlavePids], no user callback
    is invoked (the only effect is a send to the null address, which
    reaches no slave), the overlay state and every member other than
    [savedSlavePids] are unchanged, and [savedSlavePids] gains an entry
    that maps the slave to the null address. *)
Theorem framework_message_to_unknown_slave env this now from ft p msg :
  savedSlavePids p !! FrameworkMessage.slaveId msg = None →
  dispatch env this now from (F2F_FRAMEWORK_MESSAGE msg) ft p =
  (ft,
   set_savedSlavePids
     (<[FrameworkMessage.slaveId msg := PID_default]> (savedSlavePids p)) p,
   [Send PID_default (M2S_FRAMEWORK_MESSAGE (fid p) msg)]).
Proof. intros H. simpl. unfold subscript. by rewrite H. Qed.

Lemma framework_message_to_unknown_slave_witness :
  dispatch example_env 0 2 (self example_process)
    (F2F_FRAMEWORK_MESSAGE (FrameworkMessage.mk "s9" 1 "x"))
    FTMessaging_initial example_process
  = (FTMessaging_initial,
     set_savedSlavePids (<["s9" := PID_default]> (savedSlavePids example_process))
                        example_process,
     [Send PID_default
        (M2S_FRAMEWORK_MESSAGE (fid example_process)
                               (FrameworkMessage.mk "s9" 1 "x"))]).
Proof.
  apply (framework_message_to_unknown_slave example_env 0 2
           (self example_process) FTMessaging_initial example_process
           (FrameworkMessage.mk "s9" 1 "x")).
  by vm_compute.
Defined.

(** ** The lifecycle of the driver *)

Lemma start_refused_iff env s :
  (NexusSchedulerDriver_start env s).2 = Some (-1)%Z ↔
  Driver.running (driver s) = true.
Proof.
  unfold NexusSchedulerDriver_start.
  destruct (Driver.running (driver s)); [done|].
  by destruct (SchedulerProcess_new _ _ _ _).
Qed.

(** [start(); stop(); start()]: all three return 0. *)
Lemma restart_counterexample :
  (sys_run example_env example_system [Api start; Api stop; Api start]).2
  = [[Returned start 0];
     [Did None (Send (mkPID 1 5 5050) (F2M_UNREGISTER_FRAMEWORK ""));
      Returned stop 0];
     [Returned start 0]].
Proof. by vm_compute. Qed.

(** C8, amended. [start()] fails (returns -1) exactly while the driver
    is running.  On a driver on which [start()] returned 0 and then
    [stop()] returned 0, [running] is false again, so a second [start()]
    is not refused: it never returns -1; when the master string is not
    one of the local ones it returns 0, with a new process allocated and
    [running] set; for a local master string it does so unless the
    program exits because the master of the new in-process cluster does
    not resolve. *)
Theorem restart_after_stop env s s1 e1 s2 e2 :
  NexusSchedulerDriver_start env s = (s1, e1, Some 0%Z) →
  NexusSchedulerDriver_stop s1 = (s2, e2, Some 0%Z) →
  Driver.running (driver s2) = false
  ∧ (∀ s', (NexusSchedulerDriver_start env s').2 = Some (-1)%Z ↔
           Driver.running (driver s') = true)
  ∧ (NexusSchedulerDriver_start env s2).2 ≠ Some (-1)%Z
  ∧ ((NexusSchedulerDriver_start env s2).2 = Some 0%Z
     ∨ (NexusSchedulerDriver_start env s2).2 = None
       ∧ exited (NexusSchedulerDriver_start env s2).1.1 = true)
  ∧ (Driver.master (driver s2) ≠ "localquiet" →
     Driver.master (driver s2) ≠ "local" →
     (NexusSchedulerDriver_start env s2).2 = Some 0%Z
     ∧ Driver.running (driver (NexusSchedulerDriver_start env s2).1.1) = true
     ∧ length (heap (NexusSchedulerDriver_start env s2).1.1) = S (length (heap s2))).
Proof.
  intros Hstart Hstop.
  assert (Driver.running (driver s2) = false
          ∧ Driver.master (driver s2) = Driver.master (driver s1)
          ∧ sched s2 = sched s1) as (Hrun & Hmaster & Hsched).
  { unfold NexusSchedulerDriver_stop in Hstop.
    destruct (negb _); [done|].
    destruct (deref s1) as [[i q]|]; [|done]. by injection Hstop as <- _. }
  assert (∃ p0, SchedulerProcess_new env (Driver.master (driver s1))
                  (getFrameworkName (sched s1)) (getExecutorInfo (sched s1))
                = Some p0) as [p0 Hnew].
  { unfold NexusSchedulerDriver_start in Hstart.
    destruct (Driver.running (driver s)); [done|].
    destruct (SchedulerProcess_new _ _ _ _) as [p0|] eqn:Hnew; [|done].
    injection Hstart as <- _. simpl. by exists p0. }
  split; [exact Hrun|]. split; [apply start_refused_iff|].
  split; [by rewrite start_refused_iff, Hrun|].
  split.
  - unfold NexusSchedulerDriver_start. rewrite Hrun.
    match goal with
    | |- context [match ?x with Some _ => _ | None => _ end] => destruct x
    end; simpl; [by left | right; by split].
  - intros Hq Hl. unfold NexusSchedulerDriver_start. rewrite Hrun.
    apply String.eqb_neq in Hq, Hl. rewrite Hq, Hl, Hmaster, Hsched, Hnew.
    simpl. split; [done|]. split; [done|]. rewrite length_app. simpl. lia.
Qed.

Lemma restart_after_stop_witness :
  (NexusSchedulerDriver_start example_env
     (NexusSchedulerDriver_stop
        (NexusSchedulerDriver_start example_env example_system).1.1).1.1).2
  = Some 0%Z.
Proof.
  eapply (proj1 (proj2 (proj2 (proj2 (proj2
    (restart_after_stop example_env example_system
       (NexusSchedulerDriver_start example_env example_system).1.1
       (NexusSchedulerDriver_start example_env example_system).1.2
       (NexusSchedulerDriver_stop
          (NexusSchedulerDriver_start example_env example_system).1.1).1.1
       (NexusSchedulerDriver_stop
          (NexusSchedulerDriver_start example_env example_system).1.1).1.2
       _ _)))) _ _)).
  Unshelve.
  all: by vm_compute.
Defined.

(** ** Termination of the actor loop *)

Lemma in_callback_quiet j c o : quiet j o → ¬ In (Did (Some j) (Invoke c)) o.
Proof.
  intros Hq Ho. unfold quiet in Hq. rewrite Forall_forall in Hq.
  apply list_elem_of_In in Ho. by apply Hq in Ho.
Qed.

Lemma actor_run_effects env j p p1 effs c :
  actor_run env j p = Some (p1, effs) →
  pc p1 = PcLoop ∧ ¬ In (Invoke c) effs.
Proof.
  unfold actor_run. destruct (pw_name env); [|done].
  destruct (isFT _); intros [= <- <-]; (split; [done|]).
  - intros [].
  - intros [[=]|[]].
Qed.

(** An actor that has returned stays returned, and a step shows no
    callback of it. *)
Lemma done_step env s a j p :
  heap s !! j = Some p → pc p = PcDone →
  omap (callback_in j) (sys_step env s a).2 = []
  ∧ ∃ p', heap (sys_step env s a).1 !! j = Some p' ∧ pc p' = PcDone.
Proof.
  intros Hj Hpc. destruct (sys_step_proc env s a j p Hj) as (p' & Hj' & Hstep).
  inversion Hstep as [extra o Hq | o Ha Hq | p1 effs Ha Hpc' Hrun Hp' Ho
                     | Ha Hpc' Hp' Ho
                     | now from m p1 ft p2 effs Ha Hpc' Hex Hrecv Hd Hp' Ho];
    try congruence; subst.
  - split; [by apply quiet_callback|]. eexists. split; [exact Hj' | exact Hpc].
  - split; [by apply quiet_callback|]. eexists. split; [exact Hj' | exact Hpc].
Qed.

Lemma done_run env acts s j p :
  heap s !! j = Some p → pc p = PcDone →
  callbacks_of j (sys_run env s acts).2 = []
  ∧ ∃ p', heap (sys_run env s acts).1 !! j = Some p' ∧ pc p' = PcDone.
Proof.
  revert s p. induction acts as [|a acts IH]; intros s p Hj Hpc.
  - split; [done | by exists p].
  - rewrite sys_run_cons. cbn [fst snd]. rewrite callbacks_of_cons.
    destruct (done_step env s a j p Hj Hpc) as (-> & p' & Hj' & Hpc').
    exact (IH _ p' Hj' Hpc').
Qed.

(** C5. The actor reads [terminate] at every iteration boundary: a user
    callback is only invoked by a dispatch, which starts inside
    [receive] and ends at the head of the loop; [receive] is entered
    only by reading [terminate] as false at the head of the loop; and
    reading it as true there (as [stop()] sets it) makes the actor
    return.  Once the actor has returned, no schedule makes it invoke a
    user callback again. *)
Theorem no_callback_after_terminate_observed env s j p :
  heap s !! j = Some p →
  (∀ a c p', In (Did (Some j) (Invoke c)) (sys_step env s a).2 →
     heap (sys_step env s a).1 !! j = Some p' →
     (∃ now, a = Receive j now) ∧ pc p = PcReceive ∧ pc p' = PcLoop)
  ∧ (∀ a p', heap (sys_step env s a).1 !! j = Some p' →
     pc p' = PcReceive → pc p ≠ PcReceive →
     a = Check j ∧ pc p = PcLoop ∧ terminate p = false)
  ∧ (exited s = false → pc p = PcLoop → terminate p = true →
     (sys_step env s (Check j)).2 = [] ∧
     pc <$> heap (sys_step env s (Check j)).1 !! j = Some PcDone)
  ∧ (∀ s2 e2, NexusSchedulerDriver_stop s = (s2, e2, Some 0%Z) →
     Driver.process (driver s) = Some j →
     terminate <$> heap s2 !! j = Some true)
  ∧ (pc p = PcDone →
     ∀ acts, callbacks_of j (sys_run env s acts).2 = []
             ∧ pc <$> heap (sys_run env s acts).1 !! j = Some PcDone).
Proof.
  intros Hj. split; [|split; [|split; [|split]]].
  - intros a c p' Hin Hj'.
    destruct (sys_step_proc env s a j p Hj) as (q & Hq & Hstep).
    assert (q = p') as -> by congruence. clear Hq.
    inversion Hstep as [extra o Hq | o Ha Hq | p1 effs Ha Hpc' Hrun Hp' Ho
                       | Ha Hpc' Hp' Ho
                       | now from m p1 ft p2 effs Ha Hpc' Hex Hrecv Hd Hp' Ho].
    + by apply in_callback_quiet in Hin.
    + by apply in_callback_quiet in Hin.
    + rewrite <- Ho in Hin. apply in_map_iff in Hin as (e & [= ->] & He).
      by apply (actor_run_effects _ _ _ _ _ c) in Hrun as [_ Hn].
    + rewrite <- Ho in Hin. destruct Hin.
    + split; [by exists now | done].
  - intros a p' Hj' Hpc' Hpc.
    destruct (sys_step_proc env s a j p Hj) as (q & Hq & Hstep).
    assert (q = p') as -> by congruence. clear Hq.
    inversion Hstep as [extra o Hq | o Ha Hq | p1 effs Ha Hpc1 Hrun Hp' Ho
                       | Ha Hpc1 Hp' Ho
                       | now from m p1 ft p2 effs Ha Hpc1 Hex Hrecv Hd Hp' Ho];
      subst p'; simpl in Hpc'; try congruence.
    + by apply (actor_run_effects _ _ _ _ _ (registered "")) in Hrun as [Hrun _];
        congruence.
    + unfold actor_check in Hpc'. by destruct (terminate p).
  - intros Hex Hpc Hterm. unfold sys_step. rewrite Hex, Hj, Hpc. simpl.
    rewrite list_lookup_insert_eq by (by eapply lookup_lt_Some).
    unfold actor_check. by rewrite Hterm.
  - intros s2 e2 Hstop Hproc. unfold NexusSchedulerDriver_stop in Hstop.
    destruct (negb _); [done|]. unfold deref in Hstop. rewrite Hproc in Hstop.
    simpl in Hstop. rewrite Hj in Hstop. simpl in Hstop.
    injection Hstop as <- _. simpl.
    by rewrite list_lookup_insert_eq by (by eapply lookup_lt_Some).
  - intros Hpc acts.
    destruct (done_run env acts s j p Hj Hpc) as (-> & p' & -> & Hpc').
    simpl. by rewrite Hpc'.
Qed.

Lemma no_callback_after_terminate_observed_witness :
  callbacks_of 0
    (sys_run example_env example_stopped
       [Deliver 0 example_master (M2F_ERROR 7 "late"); Check 0; Receive 0 9]).2
  = [].
Proof.
  assert (heap example_stopped !! 0 = Some (process_at example_stopped 0))
    as Hp by by vm_compute.
  apply (proj2 (proj2 (proj2 (proj2
           (no_callback_after_terminate_observed example_env example_stopped 0
              (process_at example_stopped 0) Hp))))).
  by vm_compute.
Defined.

(** ** At-most-once delivery of fault-tolerant messages *)

(** The overlay state changes only in a dispatch. *)
Lemma sys_step_ftMsg env s a :
  (ftMsg (sys_step env s a).1 = ftMsg s
   ∧ ∀ i from m rest, (sys_step env s a).2 ≠ Received i from m :: rest)
  ∨ ∃ i now p from m p1,
      a = Receive i now ∧ heap s !! i = Some p ∧ receive p = (from, m, p1) ∧
      ftMsg (sys_step env s a).1 = (dispatch env i now from m (ftMsg s) p1).1.1 ∧
      (sys_step env s a).2 =
        Received i from m ::
        map (Did (Some i)) (dispatch env i now from m (ftMsg s) p1).2.
Proof.
  unfold sys_step. destruct (exited s); [by left|].
  destruct a as [c | i from m | i | i | i now].
  - left. destruct (api env c s) as [[s1 effs] r] eqn:Hapi. simpl. split.
    + destruct c; simpl in Hapi.
      * unfold NexusSchedulerDriver_start in Hapi.
        destruct (Driver.running _); [by injection Hapi as <- _ _|].
        destruct (SchedulerProcess_new _ _ _ _); by injection Hapi as <- _ _.
      * unfold NexusSchedulerDriver_stop in Hapi.
        destruct (negb _); [by injection Hapi as <- _ _|].
        destruct (deref s) as [[i q]|]; by injection Hapi as <- _ _.
      * unfold NexusSchedulerDriver_killTask in Hapi.
        destruct (negb _); [by injection Hapi as <- _ _|].
        destruct (deref s) as [[i q]|]; by injection Hapi as <- _ _.
      * unfold NexusSchedulerDriver_replyToOffer in Hapi.
        destruct (negb _); [by injection Hapi as <- _ _|].
        destruct (deref s) as [[i q]|]; by injection Hapi as <- _ _.
      * unfold NexusSchedulerDriver_reviveOffers in Hapi.
        destruct (negb _); [by injection Hapi as <- _ _|].
        destruct (deref s) as [[i q]|]; by injection Hapi as <- _ _.
      * unfold NexusSchedulerDriver_sendFrameworkMessage in Hapi.
        destruct (negb _); [by injection Hapi as <- _ _|].
        destruct (deref s) as [[i q]|]; by injection Hapi as <- _ _.
    + intros i from m rest. destruct effs; [by destruct r | done].
  - by left.
  - left. destruct (heap s !! i) as [q|]; [|done]. destruct (pc q); try done.
    destruct (actor_run env i q) as [[q1 effs]|]; [|done].
    simpl. split; [done|]. intros ? ? ? ?. by destruct effs.
  - left. destruct (heap s !! i) as [q|]; [|done]. by destruct (pc q).
  - destruct (heap s !! i) as [q|] eqn:Hi; [|by left].
    destruct (pc q); try by left.
    right. destruct (receive q) as [[from m] q1] eqn:Hrecv.
    destruct (dispatch env i now from m (ftMsg s) q1) as [[ft q2] effs] eqn:Hd.
    exists i, now, q, from, m, q1. by rewrite Hd.
Qed.

(** The pairs the overlay has accepted, after a message. *)
Lemma dispatch_accepted env this now from m ft p :
  ft_accepted (dispatch env this now from m ft p).1.1 =
  match m with
  | M2F_FT_STATUS_UPDATE f g _ _ _ | M2F_FT_FRAMEWORK_MESSAGE f g _ =>
      {[ (f, g) ]} ∪ ft_accepted ft
  | _ => ft_accepted ft
  end.
Proof.
  destruct m; simpl; try done.
  - by destruct (isFT p).
  - by destruct (subscript _ _ _).
  - by destruct (bool_decide _).
  - by destruct (bool_decide _).
  - by destruct (isFT p).
Qed.

(** The effects of a fault-tolerant status update: the ack, and the
    callback exactly when [accept] returned true, that is when the pair
    had not been accepted before. *)
Lemma dispatch_ft_status_update env this now from ft p ftId origPid tid st data :
  (dispatch env this now from (M2F_FT_STATUS_UPDATE ftId origPid tid st data) ft p).2
  = (Send (make_pid env origPid) (FT_RELAY_ACK ftId origPid) ::
     if bool_decide ((ftId, origPid) ∉ ft_accepted ft)
     then [Invoke (statusUpdate (TaskStatus.mk tid st data))] else [])%list.
Proof. simpl. by destruct (bool_decide _). Qed.

Lemma dispatch_ft_framework_message env this now from ft p ftId origPid msg :
  (dispatch env this now from (M2F_FT_FRAMEWORK_MESSAGE ftId origPid msg) ft p).2
  = (Send (make_pid env origPid) (FT_RELAY_ACK ftId origPid) ::
     if bool_decide ((ftId, origPid) ∉ ft_accepted ft)
     then [Invoke (frameworkMessage msg)] else [])%list.
Proof. simpl. by destruct (bool_decide _). Qed.

(** The set of accepted pairs only grows. *)
Lemma accepted_mono_step env s a (x : string * string) :
  x ∈ ft_accepted (ftMsg s) → x ∈ ft_accepted (ftMsg (sys_step env s a).1).
Proof.
  intros Hx. destruct (sys_step_ftMsg env s a)
    as [[-> _] | (i & now & p & from & m & p1 & _ & _ & _ & -> & _)]; [done|].
  rewrite dispatch_accepted. destruct m; try done; set_solver.
Qed.

(** A step that delivers a fault-tolerant message for a pair finds the
    pair not yet accepted, and leaves it accepted. *)
Lemma delivery_step env s a ftId origPid :
  (status_update_delivered ftId origPid (sys_step env s a).2
   || framework_message_delivered ftId origPid (sys_step env s a).2) = true →
  ((ftId, origPid) ∉ ft_accepted (ftMsg s))
  ∧ (ftId, origPid) ∈ ft_accepted (ftMsg (sys_step env s a).1).
Proof.
  intros Hd. destruct (sys_step_ftMsg env s a)
    as [[_ Hno] | (i & now & p & from & m & p1 & _ & _ & _ & Hft & Ho)].
  - exfalso. unfold status_update_delivered, framework_message_delivered in Hd.
    destruct (sys_step env s a).2 as [|[i from m| |] rest] eqn:Ho; try done.
    by eapply Hno.
  - rewrite Hft, dispatch_accepted. rewrite Ho in Hd.
    unfold status_update_delivered, framework_message_delivered in Hd.
    destruct m; try done.
    + (* M2F_FT_STATUS_UPDATE *)
      rewrite orb_false_r in Hd.
      apply andb_true_iff in Hd as [Hd Hinv].
      apply andb_true_iff in Hd as [->%String.eqb_eq ->%String.eqb_eq].
      split; [|set_solver].
      rewrite dispatch_ft_status_update in Hinv. simpl in Hinv.
      by destruct (decide ((ftId, origPid) ∉ ft_accepted (ftMsg s)));
        [| rewrite bool_decide_false in Hinv].
    + (* M2F_FT_FRAMEWORK_MESSAGE *)
      apply andb_true_iff in Hd as [Hd Hinv].
      apply andb_true_iff in Hd as [->%String.eqb_eq ->%String.eqb_eq].
      split; [|set_solver].
      rewrite dispatch_ft_framework_message in Hinv. simpl in Hinv.
      by destruct (decide ((ftId, origPid) ∉ ft_accepted (ftMsg s)));
        [| rewrite bool_decide_false in Hinv].
Qed.

Lemma count_steps_cons f o os :
  count_steps f (o :: os) = ((if f o then 1 else 0) + count_steps f os)%nat.
Proof. unfold count_steps. simpl. by destruct (f o). Qed.

(** Once a pair is accepted, no later step delivers for it. *)
Lemma no_delivery_once_accepted env acts s ftId origPid :
  (ftId, origPid) ∈ ft_accepted (ftMsg s) →
  count_steps (λ o, status_update_delivered ftId origPid o
                    || framework_message_delivered ftId origPid o)
              (sys_run env s acts).2 = 0.
Proof.
  revert s. induction acts as [|a acts IH]; intros s Hin; [done|].
  rewrite sys_run_cons. cbn [fst snd]. rewrite count_steps_cons.
  rewrite IH by by apply accepted_mono_step.
  destruct (_ || _) eqn:Hd; [|done].
  by apply delivery_step in Hd as [Hn _].
Qed.

Lemma at_most_one_delivery env acts s ftId origPid :
  (count_steps (λ o, status_update_delivered ftId origPid o
                     || framework_message_delivered ftId origPid o)
               (sys_run env s acts).2 ≤ 1)%nat.
Proof.
  revert s. induction acts as [|a acts IH]; intros s; [simpl; unfold count_steps; simpl; lia|].
  rewrite sys_run_cons. cbn [fst snd]. rewrite count_steps_cons.
  destruct (_ || _) eqn:Hd.
  - apply delivery_step in Hd as [_ Hin].
    rewrite (no_delivery_once_accepted env acts _ _ _ Hin). lia.
  - apply IH.
Qed.

Lemma count_steps_le (f g : list Obs → bool) os :
  (∀ o, f o = true → g o = true) → (count_steps f os ≤ count_steps g os)%nat.
Proof.
  intros Hfg. induction os as [|o os IH]; [done|].
  rewrite !count_steps_cons. specialize (Hfg o).
  destruct (f o), (g o); try lia; by specialize (Hfg eq_refl).
Qed.

(** C1. Whatever the schedule, and however many copies of a
    fault-tolerant status update or framework message carrying the pair
    [(ftId, origPid)] the actors dequeue, at most one step delivers the
    status update to the user's [statusUpdate], and at most one delivers
    the framework message to [frameworkMessage] (indeed at most one step
    does either).  The callback follows the ack exactly when the pair had
    not been accepted before, and the pair is accepted afterwards. *)
Theorem ft_message_delivered_at_most_once env s acts ftId origPid :
  (count_steps (status_update_delivered ftId origPid) (sys_run env s acts).2 ≤ 1)%nat
  ∧ (count_steps (framework_message_delivered ftId origPid)
                 (sys_run env s acts).2 ≤ 1)%nat
  ∧ (count_steps (λ o, status_update_delivered ftId origPid o
                       || framework_message_delivered ftId origPid o)
                 (sys_run env s acts).2 ≤ 1)%nat
  ∧ (∀ this now from ft p tid st data,
       (dispatch env this now from
          (M2F_FT_STATUS_UPDATE ftId origPid tid st data) ft p).2
       = Send (make_pid env origPid) (FT_RELAY_ACK ftId origPid) ::
         (if (acceptMessageAck env ft ftId origPid).1.1
          then [Invoke (statusUpdate (TaskStatus.mk tid st data))] else [])
       ∧ (acceptMessageAck env ft ftId origPid).1.1
         = bool_decide ((ftId, origPid) ∉ ft_accepted ft)
       ∧ (ftId, origPid) ∈ ft_accepted
           (dispatch env this now from
              (M2F_FT_STATUS_UPDATE ftId origPid tid st data) ft p).1.1)
  ∧ (∀ this now from ft p msg,
       (dispatch env this now from
          (M2F_FT_FRAMEWORK_MESSAGE ftId origPid msg) ft p).2
       = Send (make_pid env origPid) (FT_RELAY_ACK ftId origPid) ::
         (if (acceptMessageAck env ft ftId origPid).1.1
          then [Invoke (frameworkMessage msg)] else [])
       ∧ (ftId, origPid) ∈ ft_accepted
           (dispatch env this now from
              (M2F_FT_FRAMEWORK_MESSAGE ftId origPid msg) ft p).1.1).
Proof.
  pose proof (at_most_one_delivery env acts s ftId origPid) as Hone.
  split; [|split; [|split; [exact Hone|split]]].
  - etrans; [|exact Hone]. apply count_steps_le.
    intros o ->. done.
  - etrans; [|exact Hone]. apply count_steps_le.
    intros o ->. apply orb_true_r.
  - intros. split; [apply dispatch_ft_status_update|]. split; [done|].
    rewrite dispatch_accepted. set_solver.
  - intros. split; [apply dispatch_ft_framework_message|].
    rewrite dispatch_accepted. set_solver.
Qed.

Example duplicate_status_update_delivered_once :
  count_steps (status_update_delivered "42" "h:10")
    (sys_run example_env example_system
       (example_registration ++ example_duplicates)).2 = 1
  ∧ callbacks_of 0
      (sys_run example_env example_system
         (example_registration ++ example_duplicates)).2
    = [registered "fw-1"; statusUpdate (TaskStatus.mk 9 TASK_FINISHED "ok")].
Proof. split; by vm_compute. Qed.

(** ** The timeout of a reliable offer reply *)

(** One dispatch of actor [j], seen from [j]. *)
Lemma step_receive_view env s j p now from m p1 ft p2 effs :
  exited s = false → heap s !! j = Some p → pc p = PcReceive →
  receive p = (from, m, p1) →
  dispatch env j now from m (ftMsg s) p1 = (ft, p2, effs) →
  exited (sys_step env s (Receive j now)).1 = false
  ∧ ftMsg (sys_step env s (Receive j now)).1 = ft
  ∧ heap (sys_step env s (Receive j now)).1 !! j =
      Some (set_mailbox (mailbox p2 ++ map (pair (self p2)) (posted j effs))
                        (set_pc PcLoop p2))
  ∧ (sys_step env s (Receive j now)).2 =
      Received j from m :: map (Did (Some j)) effs.
Proof.
  intros Hex Hj Hpc Hrecv Hd. unfold sys_step.
  rewrite Hex, Hj, Hpc, Hrecv, Hd. simpl.
  rewrite perform_lookup, list_lookup_insert_eq by (by eapply lookup_lt_Some).
  done.
Qed.

(** One reading of [terminate] by actor [j], seen from [j]. *)
Lemma step_check_view env s j p :
  exited s = false → heap s !! j = Some p → pc p = PcLoop →
  exited (sys_step env s (Check j)).1 = false
  ∧ ftMsg (sys_step env s (Check j)).1 = ftMsg s
  ∧ heap (sys_step env s (Check j)).1 !! j = Some (actor_check p)
  ∧ (sys_step env s (Check j)).2 = [].
Proof.
  intros Hex Hj Hpc. unfold sys_step. rewrite Hex, Hj, Hpc. simpl.
  by rewrite list_lookup_insert_eq by (by eapply lookup_lt_Some).
Qed.

Lemma posted_timeout j tasks :
  posted j (TimeoutListener_timeout (mkTimeoutListener j tasks)) =
  map lost_update tasks.
Proof.
  unfold TimeoutListener_timeout, posted. simpl.
  induction tasks as [|t tasks IH]; [done|].
  simpl. rewrite decide_True by done. simpl. by f_equal.
Qed.

(** In coordinated mode the reply is sent reliably, and the entry stored
    carries a listener for exactly the tasks of the reply. *)
Lemma dispatch_offer_reply_ft env this now from oid tasks params ft p :
  isFT p = true →
  let ftId := pretty (ft_next ft) in
  let payload := F2M_FT_SLOT_OFFER_REPLY ftId (self p) (fid p) oid tasks params in
  (dispatch env this now from (F2F_SLOT_OFFER_REPLY oid tasks params) ft p).1.1
  = mkFTMessaging
      (ft_outstanding ft ++
       [(ftId, mkOutstanding payload (ft_master ft) 1 (now + FT_BACKOFF env)
                 (now + FT_DEADLINE env) (mkTimeoutListener this tasks))])
      (ft_master ft) (ft_next ft + 1) (ft_accepted ft)
  ∧ (dispatch env this now from (F2F_SLOT_OFFER_REPLY oid tasks params) ft p).2
    = [Send (ft_master ft) payload].
Proof. intros Hft. simpl. by rewrite Hft. Qed.

(** An entry whose deadline is reached at a tick is removed and its
    listener runs. *)
Lemma tick_entry_expired env now m ftId o :
  (o_next_retry_at o ≤ now)%N → (o_deadline o ≤ now)%N →
  tick_entry env now m (ftId, o) = (None, TimeoutListener_timeout (o_on_timeout o)).
Proof.
  intros H1%N.leb_le H2%N.leb_le. unfold tick_entry. simpl. by rewrite H1, H2.
Qed.

(** The actor goes round the loop once per posted update and hands each
    to [statusUpdate], in order. *)
Lemma drain_lost_updates env j sf tasks :
  ∀ nows s p,
    length nows = length tasks →
    exited s = false → heap s !! j = Some p → pc p = PcLoop →
    terminate p = false →
    mailbox p = map (λ t, (sf, lost_update t)) tasks →
    (sys_run env s (flat_map (λ now, [Check j; Receive j now]) nows)).2 =
    flat_map (λ t, [[]; [Received j sf (lost_update t);
                         Did (Some j) (Invoke (statusUpdate (lost_status t)))]])
             tasks.
Proof.
  induction tasks as [|t tasks IH]; intros nows s p Hlen Hex Hj Hpc Hterm Hmail.
  - by destruct nows.
  - destruct nows as [|now nows]; [done|]. injection Hlen as Hlen.
    cbn [flat_map app]. rewrite !sys_run_cons. cbn [fst snd].
    destruct (step_check_view env s j p Hex Hj Hpc) as (Hex1 & Hft1 & Hj1 & ->).
    unfold actor_check in Hj1. rewrite Hterm in Hj1.
    set (s1 := (sys_step env s (Check j)).1) in *.
    assert (receive (set_pc PcReceive p)
            = (sf, lost_update t,
               set_mailbox (map (λ t, (sf, lost_update t)) tasks)
                           (set_pc PcReceive p))) as Hrecv.
    { unfold receive. simpl. by rewrite Hmail. }
    destruct (step_receive_view env s1 j _ now _ _ _ (ftMsg s1) _
                [Invoke (statusUpdate (lost_status t))] Hex1 Hj1 eq_refl Hrecv eq_refl)
      as (Hex2 & Hft2 & Hj2 & ->).
    simpl. do 2 f_equal.
    eapply IH; [exact Hlen | exact Hex2 | exact Hj2 | done | done |].
    simpl. by rewrite app_nil_r.
Qed.
Lemma omap_callback_posts j (f : TaskDescription.t → Msg) tasks :
  omap (callback_in j) (map (λ t, Did (Some j) (Post j (f t))) tasks) = [].
Proof. induction tasks as [|t tasks IH]; [done | exact IH]. Qed.

Lemma callbacks_of_drain j sf tasks :
  callbacks_of j
    (flat_map (λ t, [[]; [Received j sf (lost_update t);
                          Did (Some j) (Invoke (statusUpdate (lost_status t)))]])
              tasks)
  = map (λ t, statusUpdate (lost_status t)) tasks.
Proof.
  induction tasks as [|t tasks IH]; [done|].
  cbn [flat_map app]. rewrite !callbacks_of_cons. simpl.
  rewrite decide_True by done. simpl. by f_equal.
Qed.

(** A tick at which the deadline of an entry is reached runs the
    listener of that entry, between the effects of the entries stored
    before and after it, and drops the entry. *)
Lemma sendOutstanding_expired env now ft pre ftId o post :
  ft_outstanding ft = (pre ++ (ftId, o) :: post)%list →
  (o_next_retry_at o ≤ now)%N → (o_deadline o ≤ now)%N →
  (sendOutstanding env now ft).2 =
    (concat (map (λ e, (tick_entry env now (ft_master ft) e).2) pre) ++
     TimeoutListener_timeout (o_on_timeout o) ++
     concat (map (λ e, (tick_entry env now (ft_master ft) e).2) post))%list
  ∧ ft_outstanding (sendOutstanding env now ft).1 =
    (omap fst (map (tick_entry env now (ft_master ft)) pre) ++
     omap fst (map (tick_entry env now (ft_master ft)) post))%list.
Proof.
  intros Hout Hretry Hdead. unfold sendOutstanding. simpl. rewrite Hout.
  rewrite !map_app, concat_app, omap_app. simpl.
  rewrite tick_entry_expired by done. simpl.
  by rewrite !map_map.
Qed.

(** C2. In coordinated mode the actor sends its reply to an offer with
    tasks [t1..tn] reliably and registers a listener for these tasks.  At
    a tick at which the deadline of that send is reached and no ack has
    removed it, the listener posts to the actor one
    M2F_STATUS_UPDATE(ti.taskId, TASK_LOST, "") per task, in task-list
    order, and the case of the switch that serves every status update
    hands each to the user's [statusUpdate].  End to end: when the actor
    dispatches the reply at [now0], the next tick comes at [now1] past
    the deadline, and the actor keeps going round its loop, the run shows
    exactly these posts and then exactly these callbacks, in order. *)
Theorem offer_reply_timeout_reports_lost env j oid tasks params :
  TimeoutListener_timeout (mkTimeoutListener j tasks)
    = map (λ t, Post j (lost_update t)) tasks
  ∧ (∀ now from ft p,
       isFT p = true →
       ft_outstanding
         (dispatch env j now from (F2F_SLOT_OFFER_REPLY oid tasks params) ft p).1.1
       = (ft_outstanding ft ++
          [(pretty (ft_next ft),
            mkOutstanding
              (F2M_FT_SLOT_OFFER_REPLY (pretty (ft_next ft)) (self p) (fid p)
                                       oid tasks params)
              (ft_master ft) 1 (now + FT_BACKOFF env) (now + FT_DEADLINE env)
              (mkTimeoutListener j tasks))])%list)
  ∧ (∀ now ft pre ftId o post,
       ft_outstanding ft = (pre ++ (ftId, o) :: post)%list →
       o_on_timeout o = mkTimeoutListener j tasks →
       (o_next_retry_at o ≤ now)%N → (o_deadline o ≤ now)%N →
       (sendOutstanding env now ft).2 =
         (concat (map (λ e, (tick_entry env now (ft_master ft) e).2) pre) ++
          map (λ t, Post j (lost_update t)) tasks ++
          concat (map (λ e, (tick_entry env now (ft_master ft) e).2) post))%list)
  ∧ (∀ this now from ft q t,
       dispatch env this now from (lost_update t) ft q
       = (ft, q, [Invoke (statusUpdate (lost_status t))]))
  ∧ (∀ s p from now0 now1 nows,
       exited s = false → heap s !! j = Some p → pc p = PcReceive →
       isFT p = true → terminate p = false →
       mailbox p = [(from, F2F_SLOT_OFFER_REPLY oid tasks params)] →
       ft_outstanding (ftMsg s) = [] →
       (now0 + FT_BACKOFF env ≤ now1)%N → (now0 + FT_DEADLINE env ≤ now1)%N →
       length nows = length tasks →
       (sys_run env s (timeout_schedule j now0 now1 nows)).2 =
         [Received j from (F2F_SLOT_OFFER_REPLY oid tasks params);
          Did (Some j)
            (Send (ft_master (ftMsg s))
               (F2M_FT_SLOT_OFFER_REPLY (pretty (ft_next (ftMsg s))) (self p)
                                        (fid p) oid tasks params))]
         :: []
         :: (Received j PID_default PROCESS_TIMEOUT ::
             map (λ t, Did (Some j) (Post j (lost_update t))) tasks)
         :: flat_map
              (λ t, [[]; [Received j (self p) (lost_update t);
                          Did (Some j) (Invoke (statusUpdate (lost_status t)))]])
              tasks
       ∧ callbacks_of j (sys_run env s (timeout_schedule j now0 now1 nows)).2
         = map (λ t, statusUpdate (lost_status t)) tasks).
Proof.
  split; [done|]. split.
  { intros now from ft p Hft.
    by rewrite (proj1 (dispatch_offer_reply_ft env j now from oid tasks params
                         ft p Hft)). }
  split.
  { intros now ft pre ftId o post Hout Hcb Hretry Hdead.
    rewrite (proj1 (sendOutstanding_expired env now ft pre ftId o post
                      Hout Hretry Hdead)).
    by rewrite Hcb. }
  split; [done|].
  intros s p from now0 now1 nows
         Hex Hj Hpc Hft Hterm Hmail Hout Hretry Hdead Hlen.
  set (ftId := pretty (ft_next (ftMsg s))).
  set (os := (sys_run env s (timeout_schedule j now0 now1 nows)).2).
  assert (os =
      [Received j from (F2F_SLOT_OFFER_REPLY oid tasks params);
       Did (Some j)
         (Send (ft_master (ftMsg s))
            (F2M_FT_SLOT_OFFER_REPLY ftId (self p) (fid p) oid tasks params))]
      :: []
      :: (Received j PID_default PROCESS_TIMEOUT ::
          map (λ t, Did (Some j) (Post j (lost_update t))) tasks)
      :: flat_map
           (λ t, [[]; [Received j (self p) (lost_update t);
                       Did (Some j) (Invoke (statusUpdate (lost_status t)))]])
           tasks) as Hos.
  2: { split; [exact Hos|]. rewrite Hos.
       rewrite !callbacks_of_cons.
       change (callbacks_of j []) with (@nil Callback).
       assert (omap (callback_in j)
                 (Received j PID_default PROCESS_TIMEOUT ::
                  map (λ t, Did (Some j) (Post j (lost_update t))) tasks) = [])
         as -> by apply omap_callback_posts.
       simpl. apply callbacks_of_drain. }
  subst os. unfold timeout_schedule. rewrite !sys_run_cons. cbn [fst snd].
  (* the dispatch of the reply *)
  assert (receive p = (from, F2F_SLOT_OFFER_REPLY oid tasks params, set_mailbox [] p))
    as Hrecv by (unfold receive; by rewrite Hmail).
  destruct (dispatch env j now0 from (F2F_SLOT_OFFER_REPLY oid tasks params)
              (ftMsg s) (set_mailbox [] p)) as [[ft1 p1] effs1] eqn:Hd1.
  pose proof (dispatch_offer_reply_ft env j now0 from oid tasks params (ftMsg s)
                (set_mailbox [] p) Hft) as [Hft1 Heffs1].
  pose proof (dispatch_frame env j now0 from (F2F_SLOT_OFFER_REPLY oid tasks params)
                (ftMsg s) (set_mailbox [] p)) as Hframe.
  rewrite Hd1 in Hft1, Heffs1, Hframe. simpl in Hft1, Heffs1, Hframe.
  destruct Hframe as (Hself1 & Hmail1 & Hpc1 & Hterm1 & HisFT1 & _).
  destruct (step_receive_view env s j p now0 _ _ _ _ _ _ Hex Hj Hpc Hrecv Hd1)
    as (Hex1 & Hfts1 & Hj1 & ->).
  set (s1 := (sys_step env s (Receive j now0)).1) in *.
  rewrite Heffs1 in Hj1. simpl in Hj1. rewrite app_nil_r, Hmail1 in Hj1.
  subst effs1. simpl. f_equal.
  (* round the loop *)
  destruct (step_check_view env s1 j _ Hex1 Hj1 eq_refl) as (Hex2 & Hfts2 & Hj2 & ->).
  set (s2 := (sys_step env s1 (Check j)).1) in *.
  unfold actor_check in Hj2. simpl in Hj2. rewrite Hterm1, Hterm in Hj2.
  f_equal.
  (* the tick *)
  destruct (dispatch env j now1 PID_default PROCESS_TIMEOUT (ftMsg s2)
              (set_pc PcReceive (set_mailbox [] (set_pc PcLoop p1))))
    as [[ft3 p3] effs3] eqn:Hd3.
  assert (p3 = set_pc PcReceive (set_mailbox [] (set_pc PcLoop p1))
          ∧ effs3 = TimeoutListener_timeout (mkTimeoutListener j tasks))
    as [-> ->].
  { simpl in Hd3. rewrite Hfts2, Hfts1, Hft1, Hout in Hd3. simpl in Hd3.
    unfold sendOutstanding in Hd3. simpl in Hd3.
    rewrite tick_entry_expired in Hd3 by done. simpl in Hd3.
    rewrite app_nil_r in Hd3. by injection Hd3 as _ <- <-. }
  destruct (step_receive_view env s2 j _ now1 PID_default PROCESS_TIMEOUT _ _ _ _
              Hex2 Hj2 eq_refl eq_refl Hd3) as (Hex3 & Hfts3 & Hj3 & ->).
  set (s3 := (sys_step env s2 (Receive j now1)).1) in *.
  rewrite posted_timeout in Hj3. simpl in Hj3.
  f_equal; [unfold TimeoutListener_timeout; simpl; by rewrite map_map|].
  (* the synthetic updates *)
  eapply drain_lost_updates; [exact Hlen | exact Hex3 | exact Hj3 | done | | ].
  - simpl. by rewrite Hterm1.
  - simpl. by rewrite map_map, Hself1.
Qed.

Lemma offer_reply_timeout_reports_lost_witness :
  callbacks_of 0
    (sys_run example_env example_before_reply
       (timeout_schedule 0 2 40 [41; 42]%N)).2
  = [statusUpdate (TaskStatus.mk 7 TASK_LOST "");
     statusUpdate (TaskStatus.mk 8 TASK_LOST "")].
Proof.
  refine (proj2 (proj2 (proj2 (proj2 (proj2
    (offer_reply_timeout_reports_lost example_env 0 "o-5"
       [example_task 7 "s1"; example_task 8 "s2"] ∅))))
    example_before_reply (process_at example_before_reply 0)
    (mkPID 1 127 4040) 2%N 40%N [41; 42]%N _ _ _ _ _ _ _ _ _ _));
    by vm_compute.
Defined.

(** ** Callbacks per message *)

Lemma invoked_app (e1 e2 : list Effect) :
  invoked (e1 ++ e2) = (invoked e1 ++ invoked e2)%list.
Proof. apply omap_app. Qed.

Lemma invoked_timeout (l : TimeoutListener) : invoked (TimeoutListener_timeout l) = [].
Proof.
  unfold TimeoutListener_timeout. induction (tasks l) as [|t ts IH]; [done | exact IH].
Qed.

Lemma invoked_tick_entry env now m e : invoked (tick_entry env now m e).2 = [].
Proof.
  unfold tick_entry. destruct (_ <=? _)%N; [|done].
  destruct (_ <=? _)%N; [apply invoked_timeout | done].
Qed.

Lemma invoked_sendOutstanding env now ft : invoked (sendOutstanding env now ft).2 = [].
Proof.
  unfold sendOutstanding. simpl.
  induction (ft_outstanding ft) as [|e es IH]; [done|].
  simpl. by rewrite invoked_app, invoked_tick_entry, IH.
Qed.

Lemma invoked_dispatch env this now from m ft p :
  (length (invoked (dispatch env this now from m ft p).2) ≤ 1)%nat
  ∧ (internal m = true → invoked (dispatch env this now from m ft p).2 = []).
Proof.
  destruct m; simpl;
    repeat match goal with
    | |- context [if ?b then _ else _] => destruct b; simpl
    end; try (split; [lia | done]).
  - destruct (subscript _ _ _). simpl. split; [lia | done].
  - pose proof (invoked_sendOutstanding env now ft) as H.
    unfold sendOutstanding in H. simpl in H. rewrite H.
    split; [simpl; lia | done].
Qed.

(** X10. Dispatching one message invokes at most one user callback, and a
    message that does not come from the master (a master change, a
    command of the facade, an ack of the overlay, a timer tick) invokes
    none. *)
Theorem dispatch_invokes_at_most_one_callback env this now from m ft p :
  (length (invoked (dispatch env this now from m ft p).2) ≤ 1)%nat
  ∧ (internal m = true → invoked (dispatch env this now from m ft p).2 = []).
Proof. exact (invoked_dispatch env this now from m ft p). Qed.

Lemma dispatch_invokes_at_most_one_callback_witness :
  invoked (dispatch example_env 0 0 example_master
             (F2F_SLOT_OFFER_REPLY "o-1" [example_task 1 "s1"] ∅)
             FTMessaging_initial example_offered_process).2 = [].
Proof.
  apply (proj2 (dispatch_invokes_at_most_one_callback example_env 0 0
                  example_master _ FTMessaging_initial example_offered_process)).
  reflexivity.
Defined.

(** ** Who sets [terminate] *)

(** One step changes [terminate] of a process only by [stop()], and
    only to true. *)
Lemma terminate_step env s a j p p' :
  heap s !! j = Some p → heap (sys_step env s a).1 !! j = Some p' →
  terminate p' = terminate p ∨ (a = Api stop ∧ terminate p' = true).
Proof.
  intros Hj Hj'. destruct (sys_step_proc env s a j p Hj) as (q & Hq & Hstep).
  assert (q = p') as -> by congruence. clear Hq.
  inversion Hstep as [extra o Hq | o Ha Hq | p1 effs Ha Hpc Hrun Hp' Ho
                     | Ha Hpc Hp' Ho
                     | now from m p1 ft p2 effs Ha Hpc Hex Hrecv Hd Hp' Ho];
    simpl; try by left.
  - by right.
  - left. unfold actor_run in Hrun. destruct (pw_name env); [|done].
    clear Hp' Ho. by destruct (isFT _); injection Hrun as <- <-.
  - left. unfold actor_check. by destruct (terminate p) eqn:E.
  - left. pose proof (dispatch_frame env j now from m (ftMsg s) p1) as Hf.
    rewrite Hd in Hf. simpl in Hf. destruct Hf as (_ & _ & _ & -> & _).
    destruct (receive_eq p) as (rest & Hr & _). rewrite Hrecv in Hr.
    simpl in Hr. by rewrite Hr.
Qed.

Lemma pc_done_step env s a j p p' :
  heap s !! j = Some p → heap (sys_step env s a).1 !! j = Some p' →
  pc p' = PcDone → pc p = PcDone ∨ terminate p = true.
Proof.
  intros Hj Hj' Hdone. destruct (sys_step_proc env s a j p Hj) as (q & Hq & Hstep).
  assert (q = p') as -> by congruence. clear Hq.
  inversion Hstep as [extra o Hq | o Ha Hq | p1 effs Ha Hpc Hrun Hp' Ho
                     | Ha Hpc Hp' Ho
                     | now from m p1 ft p2 effs Ha Hpc Hex Hrecv Hd Hp' Ho];
    subst p'; simpl in Hdone; try by left.
  - apply (actor_run_effects _ _ _ _ _ (registered "")) in Hrun as [Hrun _].
    congruence.
  - unfold actor_check in Hdone. destruct (terminate p) eqn:E; [by right | done].
Qed.

(** X11. Only [stop()] ends an actor: over a schedule in which nobody
    calls [stop()], an actor whose [terminate] is false keeps it false
    and does not return from its loop, whatever messages it receives. *)
Theorem actor_runs_until_stop env acts s j p :
  no_stop acts → heap s !! j = Some p →
  terminate p = false → pc p ≠ PcDone →
  ∃ p', heap (sys_run env s acts).1 !! j = Some p' ∧
        terminate p' = false ∧ pc p' ≠ PcDone.
Proof.
  revert s p. induction acts as [|a acts IH]; intros s p Hns Hj Hterm Hpc.
  - by exists p.
  - rewrite sys_run_cons. cbn [fst]. inversion Hns as [|? ? Ha Hns']; subst.
    destruct (sys_step_proc env s a j p Hj) as (p1 & Hj1 & _).
    apply (IH _ p1 Hns' Hj1).
    + destruct (terminate_step env s a j p p1 Hj Hj1) as [-> | [? _]]; done.
    + intros Hdone.
      destruct (pc_done_step env s a j p p1 Hj Hj1 Hdone); congruence.
Qed.

Lemma actor_runs_until_stop_witness :
  ∃ p', heap (sys_run example_env example_before_rescind
                [Deliver 0 example_master (M2F_ERROR 1 "e");
                 Receive 0 3; Check 0; Receive 0 4; Check 0]).1 !! 0 = Some p' ∧
        terminate p' = false ∧ pc p' ≠ PcDone.
Proof.
  apply (actor_runs_until_stop example_env _ example_before_rescind 0
           (process_at example_before_rescind 0)).
  - repeat constructor; discriminate.
  - by vm_compute.
  - by vm_compute.
  - by vm_compute.
Defined.

(** ** After [stop()] *)

Lemma callbacks_did j effs :
  omap (callback_in j) (map (Did (Some j)) effs) = invoked effs.
Proof.
  induction effs as [|e effs IH]; [done|].
  destruct e; simpl; try exact IH.
  rewrite decide_True by done. simpl. by f_equal.
Qed.

(** One step of an actor that has been told to terminate. *)
Lemma stopped_step env s a j p :
  heap s !! j = Some p → terminate p = true →
  ∃ p', heap (sys_step env s a).1 !! j = Some p' ∧ terminate p' = true ∧
    let o := (sys_step env s a).2 in
    (pc p' = pc p ∧ omap (received_in j) o = [] ∧ omap (callback_in j) o = []
     ∨ pc p ≠ PcReceive ∧ pc p' ≠ PcReceive ∧
       omap (received_in j) o = [] ∧ omap (callback_in j) o = []
     ∨ pc p = PcReceive ∧ pc p' = PcLoop ∧
       length (omap (received_in j) o) = 1%nat ∧
       (length (omap (callback_in j) o) ≤ 1)%nat).
Proof.
  intros Hj Hterm. destruct (sys_step_proc env s a j p Hj) as (p' & Hj' & Hstep).
  exists p'. split; [done|]. split.
  { destruct (terminate_step env s a j p p' Hj Hj') as [-> | [_ ?]]; done. }
  cbn zeta. clear Hj'.
  inversion Hstep as [extra o Hq | o Ha Hq | p1 effs Ha Hpc Hrun Hp' Ho
                     | Ha Hpc Hp' Ho
                     | now from m p1 ft p2 effs Ha Hpc Hex Hrecv Hd Hp' Ho].
  - left. simpl. by rewrite quiet_received, quiet_callback.
  - left. simpl. by rewrite quiet_received, quiet_callback.
  - right; left. simpl.
    pose proof (actor_run_effects _ _ _ _ _ (registered "") Hrun) as [Hl _].
    rewrite Hpc, Hl, received_did, callbacks_did.
    repeat split; try done.
    unfold actor_run in Hrun. destruct (pw_name env); [|done].
    by destruct (isFT _); injection Hrun as <- <-.
  - right; left. unfold actor_check. rewrite Hterm, Hpc. simpl. done.
  - right; right. simpl. rewrite decide_True by done. simpl.
    rewrite received_did, callbacks_did.
    repeat split; try done.
    pose proof (invoked_dispatch env j now from m (ftMsg s) p1) as [Hle _].
    by rewrite Hd in Hle.
Qed.

Lemma stopped_run env acts s j p :
  heap s !! j = Some p → terminate p = true →
  let os := (sys_run env s acts).2 in
  (length (received_by j os) ≤ 1)%nat
  ∧ (length (callbacks_of j os) ≤ length (received_by j os))%nat
  ∧ (pc p ≠ PcReceive → received_by j os = []).
Proof.
  cbn zeta. revert s p. induction acts as [|a acts IH]; intros s p Hj Hterm.
  - unfold received_by, callbacks_of. simpl. repeat split; (lia || done).
  - rewrite sys_run_cons. cbn [snd].
    rewrite received_by_cons, callbacks_of_cons, !length_app.
    destruct (stopped_step env s a j p Hj Hterm) as (p' & Hj' & Hterm' & Hcases).
    destruct (IH _ _ Hj' Hterm') as (IH1 & IH2 & IH3).
    destruct Hcases as [(Hpc & Hr & Hc) | [(Hpc & Hpc' & Hr & Hc)
                                          | (Hpc & Hpc' & Hr & Hc)]].
    + rewrite Hr, Hc. simpl. repeat split; try done.
      intros Hn. apply IH3. by rewrite Hpc.
    + rewrite Hr, Hc. simpl. repeat split; try done.
      intros _. by apply IH3.
    + rewrite IH3 by (by rewrite Hpc'). rewrite IH3 in IH2 by (by rewrite Hpc').
      simpl in *. repeat split; [lia | lia | done].
Qed.

(** X12. An actor that has been told to terminate dispatches at most one
    more message, the one it was already waiting for in [receive], and
    so invokes at most one more user callback; an actor that was not
    inside [receive] dispatches nothing any more. *)
Theorem at_most_one_dispatch_after_stop env acts s j p :
  heap s !! j = Some p → terminate p = true →
  (length (received_by j (sys_run env s acts).2) ≤ 1)%nat
  ∧ (length (callbacks_of j (sys_run env s acts).2) ≤ 1)%nat
  ∧ (pc p ≠ PcReceive →
     received_by j (sys_run env s acts).2 = [] ∧
     callbacks_of j (sys_run env s acts).2 = []).
Proof.
  intros Hj Hterm.
  destruct (stopped_run env acts s j p Hj Hterm) as (H1 & H2 & H3).
  split; [done|]. split; [lia|].
  intros Hpc. specialize (H3 Hpc). rewrite H3 in H2 |- *. split; [done|].
  simpl in H2. by destruct (callbacks_of _ _); [|simpl in H2; lia].
Qed.

Lemma at_most_one_dispatch_after_stop_witness :
  (length (received_by 0 (sys_run example_env example_stopped_in_receive
             [Receive 0 3; Check 0; Receive 0 4]).2) ≤ 1)%nat
  ∧ (length (callbacks_of 0 (sys_run example_env example_stopped_in_receive
               [Receive 0 3; Check 0; Receive 0 4]).2) ≤ 1)%nat.
Proof.
  destruct (at_most_one_dispatch_after_stop example_env
              [Receive 0 3; Check 0; Receive 0 4] example_stopped_in_receive 0
              (process_at example_stopped_in_receive 0)) as (H1 & H2 & _).
  - by vm_compute.
  - by vm_compute.
  - by split.
Defined.

(** The bound is reached: the rescind that was waiting when [stop()]
    returned is still reported to the user. *)
Example callback_after_stop :
  callbacks_of 0 (sys_run example_env example_stopped_in_receive
                    [Receive 0 3; Check 0; Receive 0 4]).2
  = [offerRescinded "o-1"].
Proof. by vm_compute. Qed.



(** ** The live actor *)

Lemma sys_step_driver env s a :
  a ≠ Api start → a ≠ Api stop → driver (sys_step env s a).1 = driver s.
Proof.
  intros Hstart Hstop. unfold sys_step. destruct (exited s); [done|].
  destruct a as [c|i from m|i|i|i now]; try done.
  - destruct c; try done; simpl;
      [ unfold NexusSchedulerDriver_killTask
      | unfold NexusSchedulerDriver_replyToOffer
      | unfold NexusSchedulerDriver_reviveOffers
      | unfold NexusSchedulerDriver_sendFrameworkMessage ];
      destruct (negb _); try done; by destruct (deref s) as [[]|].
  - destruct (heap s !! i) as [p|]; [|done]. destruct (pc p); try done.
    by destruct (actor_run env i p) as [[]|].
  - destruct (heap s !! i) as [p|]; [|done]. by destruct (pc p).
  - destruct (heap s !! i) as [p|]; [|done]. destruct (pc p); try done.
    destruct (receive p) as [[from m] p1].
    by destruct (dispatch _ _ _ _ _ _ _) as [[ft p2] effs].
Qed.

Lemma live_invariant_new _sched _master :
  live_invariant (NexusSchedulerDriver_new _sched _master).
Proof. split; [done | split; [by intros j [[=] _] | done]]. Qed.

Lemma live_invariant_start env s :
  exited s = false → live_invariant s →
  live_invariant (sys_step env s (Api start)).1.
Proof.
  intros Hex I. unfold live_invariant, current in *.
  pose proof I as (I1 & I2 & I3). unfold sys_step. rewrite Hex. simpl.
  unfold NexusSchedulerDriver_start.
  destruct (Driver.running (driver s)) eqn:Hrun; [simpl; rewrite Hrun; exact I|].
  assert (∀ j p, heap s !! j = Some p → terminate p = true) as Hall.
  { intros j p Hj. destruct (terminate p) eqn:Ht; [done|].
    destruct (I1 j p Hj Ht) as [? _]. congruence. }
  match goal with
  | |- context [match ?x with Some _ => _ | None => _ end] =>
      destruct x as [p0|] eqn:Hnew
  end; simpl.
  - split.
    + intros j p Hj Ht. split; [done|]. simpl.
      apply lookup_app_Some in Hj as [Hj | [Hlen Hj]].
      * specialize (Hall j p Hj). congruence.
      * apply list_lookup_singleton_Some in Hj as [Hj _]. f_equal. lia.
    + split; [|by eexists].
      intros j [_ Hp]. simpl in Hp. injection Hp as <-.
      eexists. rewrite lookup_app_r by done. rewrite Nat.sub_diag. split; [done|].
      simpl. by apply SchedulerProcess_new_fresh in Hnew as (_ & _ & _ & ? & _).
  - split.
    + intros j p Hj Ht. specialize (Hall j p Hj). congruence.
    + split; [by intros j [[=] _] | done].
Qed.

Lemma live_invariant_stop env s :
  exited s = false → live_invariant s →
  live_invariant (sys_step env s (Api stop)).1.
Proof.
  intros Hex I. unfold live_invariant, current in *.
  pose proof I as (I1 & I2 & I3). unfold sys_step. rewrite Hex. simpl.
  unfold NexusSchedulerDriver_stop.
  destruct (Driver.running (driver s)) eqn:Hrun; simpl; [|rewrite Hrun; exact I].
  destruct (deref s) as [[i p]|] eqn:Hd; simpl; [|rewrite Hrun; exact I].
  unfold deref in Hd. destruct (Driver.process (driver s)) as [i'|] eqn:Hp; [|done].
  simpl in Hd. destruct (heap s !! i') as [p'|] eqn:Hi; [|done].
  injection Hd as -> ->. split.
  - intros j q Hj Ht. exfalso. destruct (decide (j = i)) as [->|Hne].
    + rewrite list_lookup_insert_eq in Hj by (by eapply lookup_lt_Some).
      by injection Hj as <-.
    + rewrite list_lookup_insert_ne in Hj by done.
      destruct (I1 j q Hj Ht) as [_ Hq]. congruence.
  - split; [by intros j [[=] _] | done].
Qed.

Lemma live_invariant_step env s a :
  live_invariant s → live_invariant (sys_step env s a).1.
Proof.
  intros I. destruct (exited s) eqn:Hex.
  { unfold sys_step. by rewrite Hex. }
  assert (a = Api start ∨ a = Api stop ∨ (a ≠ Api start ∧ a ≠ Api stop))
    as [-> | [-> | [Hstart Hstop]]].
  { destruct a as [[]| | | |];
      first [ by left | by right; left | right; right; split; discriminate ]. }
  { by apply live_invariant_start. }
  { by apply live_invariant_stop. }
  destruct I as (I1 & I2 & I3).
  pose proof (sys_step_driver env s a Hstart Hstop) as Hdrv.
  split; [|split; [|by rewrite Hdrv]].
  - intros j p' Hj' Ht.
    destruct (heap s !! j) as [p|] eqn:Hj.
    + destruct (terminate_step env s a j p p' Hj Hj') as [He | [? _]]; [|done].
      destruct (I1 j p Hj) as [? ?]; [congruence|].
      unfold current. by rewrite Hdrv.
    + destruct (sys_step_heap env s a) as [Hlen | (? & ? & _)]; [|done].
      apply lookup_lt_Some in Hj'. apply lookup_ge_None in Hj. lia.
  - intros j Hc. unfold current in Hc. rewrite Hdrv in Hc.
    destruct (I2 j Hc) as (p & Hj & Ht).
    destruct (sys_step_proc env s a j p Hj) as (p' & Hj' & _).
    exists p'. split; [done|].
    destruct (terminate_step env s a j p p' Hj Hj') as [He | [? _]]; congruence.
Qed.

Lemma live_invariant_run env acts s :
  live_invariant s → live_invariant (sys_run env s acts).1.
Proof.
  revert s. induction acts as [|a acts IH]; intros s I; [done|].
  rewrite sys_run_cons. cbn [fst]. by apply IH, live_invariant_step.
Qed.

(** X14. In every state a driver can reach, an actor's [terminate] is
    false exactly when the driver is running and points to that actor:
    at most one actor is live, and every actor of an earlier
    [start()] has been told to terminate. *)
Theorem live_actor_iff_current env s j p :
  reachable env s → heap s !! j = Some p →
  (terminate p = false ↔ current s j).
Proof.
  intros (_sched & _master & acts & ->) Hj.
  destruct (live_invariant_run env acts _ (live_invariant_new _sched _master))
    as (I1 & I2 & _).
  split; [by apply I1|].
  intros Hc. destruct (I2 j Hc) as (p' & Hj' & Ht). congruence.
Qed.

Lemma live_actor_iff_current_witness :
  terminate (process_at example_before_rescind 0) = false ↔
  current example_before_rescind 0.
Proof.
  apply (live_actor_iff_current example_env).
  - exists Scheduler_default, "nexus://1@h:1",
      (example_registration ++ example_offer ++
       [Deliver 0 example_master (M2F_RESCIND_OFFER "o-1"); Check 0])%list.
    reflexivity.
  - by vm_compute.
Defined.



(** ** What the two maps of slave addresses hold *)

Lemma offered_save_offer oid so offer oid' sid :
  offered (save_offer oid so offer) oid' sid =
  if decide (oid' = oid ∧ sid = SlaveOffer.slaveId offer)
  then Some (SlaveOffer.slavePid offer)
  else offered so oid' sid.
Proof.
  unfold offered, save_offer, subscript.
  destruct (decide (oid' = oid)) as [->|Hne].
  - destruct (so !! oid) as [inner|] eqn:Hso; simpl;
      rewrite lookup_insert_eq; simpl.
    + destruct (decide (sid = SlaveOffer.slaveId offer)) as [->|Hs].
      * rewrite decide_True by done. by rewrite lookup_insert_eq.
      * rewrite decide_False by (by intros [_ ?]).
        by rewrite lookup_insert_ne.
    + destruct (decide (sid = SlaveOffer.slaveId offer)) as [->|Hs].
      * rewrite decide_True by done. by rewrite lookup_insert_eq.
      * rewrite decide_False by (by intros [_ ?]).
        by rewrite lookup_insert_ne.
  - rewrite decide_False by (by intros [? _]).
    destruct (so !! oid) as [inner|] eqn:Hso; simpl.
    + by rewrite lookup_insert_ne.
    + by rewrite !lookup_insert_ne.
Qed.

Lemma last_slot_cons sid o offs :
  last_slot sid (o :: offs) =
  match last_slot sid offs with
  | Some pid => Some pid
  | None => if decide (SlaveOffer.slaveId o = sid)
            then Some (SlaveOffer.slavePid o) else None
  end.
Proof.
  unfold last_slot. rewrite filter_cons.
  destruct (decide (SlaveOffer.slaveId o = sid)) as [He|Hne];
    [rewrite last_cons|]; by destruct (last _).
Qed.

Lemma offered_foldl_save_offer offs oid so oid' sid :
  offered (foldl (save_offer oid) so offs) oid' sid =
  if decide (oid' = oid)
  then match last_slot sid offs with
       | Some pid => Some pid
       | None => offered so oid sid
       end
  else offered so oid' sid.
Proof.
  revert so. induction offs as [|o offs IH]; intros so.
  - simpl. by destruct (decide _) as [->|].
  - simpl. rewrite IH, last_slot_cons, !offered_save_offer.
    destruct (decide (oid' = oid)) as [->|Hne].
    + destruct (last_slot sid offs); [done|].
      destruct (decide (SlaveOffer.slaveId o = sid)) as [<-|Hs].
      * by rewrite decide_True.
      * by rewrite decide_False by (by intros [_ ?]).
    + by rewrite decide_False by (by intros [? _]).
Qed.

(** X16. Processing M2F_SLOT_OFFER for offer [oid] records, for every
    slave the offer names, the address in the last slot that names it;
    the addresses an earlier offer of the same id recorded for other
    slaves stay, and the entries of other offers are untouched. *)
Theorem slot_offer_records_last_slot env this now from ft p oid offs oid' sid :
  offered
    (savedOffers (dispatch env this now from (M2F_SLOT_OFFER oid offs) ft p).1.2)
    oid' sid =
  if decide (oid' = oid)
  then match last_slot sid offs with
       | Some pid => Some pid
       | None => offered (savedOffers p) oid sid
       end
  else offered (savedOffers p) oid' sid.
Proof. simpl. apply offered_foldl_save_offer. Qed.

Lemma keep_slave_pid_offered oid st task sid :
  default PID_default (offered (keep_slave_pid oid st task).1 oid sid) =
  default PID_default (offered st.1 oid sid).
Proof.
  unfold keep_slave_pid, offered, subscript.
  destruct (st.1 !! oid) as [inner|] eqn:Hso; simpl.
  - destruct (inner !! TaskDescription.slaveId task) as [pid|] eqn:Hin; simpl;
      rewrite lookup_insert_eq; simpl; [done|].
    destruct (decide (sid = TaskDescription.slaveId task)) as [->|Hs].
    + by rewrite lookup_insert_eq, Hin.
    + by rewrite lookup_insert_ne.
  - rewrite lookup_empty. simpl. rewrite lookup_insert_eq. simpl.
    destruct (decide (sid = TaskDescription.slaveId task)) as [->|Hs].
    + by rewrite lookup_insert_eq.
    + by rewrite lookup_insert_ne, lookup_empty.
Qed.

Lemma keep_slave_pid_pids oid st task :
  (keep_slave_pid oid st task).2 =
  <[TaskDescription.slaveId task :=
      default PID_default (offered st.1 oid (TaskDescription.slaveId task))]> st.2.
Proof.
  unfold keep_slave_pid, offered, subscript.
  destruct (st.1 !! oid) as [inner|] eqn:Hso; simpl.
  - by destruct (inner !! TaskDescription.slaveId task) as [pid|] eqn:Hin.
  - by rewrite lookup_empty.
Qed.

Lemma foldl_keep_slave_pid_pids tasks oid st sid :
  (foldl (keep_slave_pid oid) st tasks).2 !! sid =
  if decide (sid ∈ slaves_of tasks)
  then Some (default PID_default (offered st.1 oid sid))
  else st.2 !! sid.
Proof.
  revert st. induction tasks as [|t tasks IH]; intros st.
  - cbn [foldl]. rewrite decide_False; [done | apply not_elem_of_nil].
  - cbn [foldl]. rewrite IH, keep_slave_pid_offered, keep_slave_pid_pids.
    change (slaves_of (t :: tasks))
      with (TaskDescription.slaveId t :: slaves_of tasks).
    destruct (decide (sid ∈ slaves_of tasks)) as [Hin|Hnin].
    + rewrite decide_True; [done | by apply elem_of_cons; right].
    + destruct (decide (sid = TaskDescription.slaveId t)) as [->|Hs].
      * rewrite lookup_insert_eq. rewrite decide_True; [done | by apply elem_of_cons; left].
      * rewrite lookup_insert_ne by done.
        rewrite decide_False; [done|].
        intros [?|?]%elem_of_cons; done.
Qed.

Lemma dispatch_reply_maps env this now from ft p oid tasks params :
  let p' := (dispatch env this now from (F2F_SLOT_OFFER_REPLY oid tasks params) ft p).1.2 in
  savedSlavePids p' =
    (foldl (keep_slave_pid oid) (savedOffers p, savedSlavePids p) tasks).2
  ∧ savedOffers p' = delete oid (savedOffers p).
Proof.
  simpl. destruct (isFT p) eqn:E; simpl; by rewrite foldl_keep_slave_pid_delete.
Qed.

(** X17. Processing the reply to offer [oid] sets, for every slave on
    which the reply launches a task, the saved address to the one the
    offer recorded for that slave, and to the null address when the
    offer recorded none (or is not held); the saved addresses of other
    slaves stay, and of the offers only [oid] is forgotten. *)
Theorem offer_reply_keeps_offered_addresses env this now from ft p oid tasks params sid :
  let p' := (dispatch env this now from (F2F_SLOT_OFFER_REPLY oid tasks params) ft p).1.2 in
  savedSlavePids p' !! sid =
    (if decide (sid ∈ slaves_of tasks)
     then Some (default PID_default (offered (savedOffers p) oid sid))
     else savedSlavePids p !! sid)
  ∧ savedOffers p' = delete oid (savedOffers p).
Proof.
  cbn zeta.
  destruct (dispatch_reply_maps env this now from ft p oid tasks params) as [-> ->].
  split; [|done]. apply foldl_keep_slave_pid_pids.
Qed.

(** X18. An offer, the reply to it and a framework message, processed in
    this order: the message for a slave on which the reply launched a
    task goes to the address in the last slot of the offer that named
    the slave. *)
Theorem framework_message_reaches_offered_slave
    env this now from ft0 ft1 ft2 p oid offs tasks params msg pid :
  let p1 := (dispatch env this now from (M2F_SLOT_OFFER oid offs) ft0 p).1.2 in
  let p2 := (dispatch env this now from (F2F_SLOT_OFFER_REPLY oid tasks params) ft1 p1).1.2 in
  last_slot (FrameworkMessage.slaveId msg) offs = Some pid →
  FrameworkMessage.slaveId msg ∈ slaves_of tasks →
  (dispatch env this now from (F2F_FRAMEWORK_MESSAGE msg) ft2 p2).2 =
  [Send pid (M2S_FRAMEWORK_MESSAGE (fid p) msg)].
Proof.
  intros p1 p2 Hlast Hin.
  assert (savedSlavePids p2 !! FrameworkMessage.slaveId msg = Some pid) as Hpid.
  { subst p2.
    destruct (dispatch_reply_maps env this now from ft1 p1 oid tasks params)
      as [-> _].
    rewrite foldl_keep_slave_pid_pids, decide_True by done.
    cbn [fst]. subst p1. cbn [dispatch fst snd]. simpl savedOffers.
    by rewrite offered_foldl_save_offer, decide_True, Hlast. }
  assert (fid p2 = fid p) as Hfid.
  { subst p2 p1. by rewrite !dispatch_fid. }
  cbn [dispatch]. unfold subscript. rewrite Hpid. simpl. by rewrite Hfid.
Qed.

Lemma framework_message_reaches_offered_slave_witness :
  (dispatch example_env 0 0 example_master
     (F2F_FRAMEWORK_MESSAGE (FrameworkMessage.mk "s1" 1 "x")) FTMessaging_initial
     (dispatch example_env 0 0 example_master
        (F2F_SLOT_OFFER_REPLY "o-2" [example_task 1 "s1"] ∅) FTMessaging_initial
        (dispatch example_env 0 0 example_master
           (M2F_SLOT_OFFER "o-2"
              [SlaveOffer.mk "s1" "h" ∅ (mkPID 3 3 3);
               SlaveOffer.mk "s1" "h" ∅ (mkPID 4 4 4)])
           FTMessaging_initial example_process).1.2).1.2).2
  = [Send (mkPID 4 4 4)
       (M2S_FRAMEWORK_MESSAGE (fid example_process)
          (FrameworkMessage.mk "s1" 1 "x"))].
Proof.
  apply (framework_message_reaches_offered_slave example_env 0 0 example_master
           FTMessaging_initial FTMessaging_initial FTMessaging_initial
           example_process "o-2"
           [SlaveOffer.mk "s1" "h" ∅ (mkPID 3 3 3);
            SlaveOffer.mk "s1" "h" ∅ (mkPID 4 4 4)]
           [example_task 1 "s1"] ∅ (FrameworkMessage.mk "s1" 1 "x") (mkPID 4 4 4)).
  - by vm_compute.
  - apply (bool_decide_unpack _). by vm_compute.
Defined.

(** ** The bookkeeping as a function of the history *)

Lemma dispatch_master env this now from m ft p :
  master (dispatch env this now from m ft p).1.2 =
  match m with
  | NEW_MASTER_DETECTED _ masterPid => masterPid
  | _ => master p
  end.
Proof.
  destruct m; simpl; try done.
  - by destruct (isFT p) eqn:E.
  - by destruct (subscript _ _ _).
  - by destruct (bool_decide _).
  - by destruct (bool_decide _).
  - by destruct (isFT p) eqn:E.
Qed.

Lemma dispatch_savedSlavePids env this now from m ft p :
  savedSlavePids (dispatch env this now from m ft p).1.2 =
  match m with
  | F2F_SLOT_OFFER_REPLY oid tasks _ =>
      (foldl (keep_slave_pid oid) (savedOffers p, savedSlavePids p) tasks).2
  | F2F_FRAMEWORK_MESSAGE msg =>
      (subscript PID_default (savedSlavePids p) (FrameworkMessage.slaveId msg)).2
  | M2F_LOST_SLAVE sid => delete sid (savedSlavePids p)
  | _ => savedSlavePids p
  end.
Proof.
  destruct m; simpl; try done.
  - by destruct (isFT p) eqn:E.
  - by destruct (subscript _ _ _).
  - by destruct (bool_decide _).
  - by destruct (bool_decide _).
  - by destruct (isFT p) eqn:E.
Qed.

Lemma dispatch_book env env' this this' now now' from from' m ft ft' p q :
  book p = book q →
  book (dispatch env this now from m ft p).1.2 =
  book (dispatch env' this' now' from' m ft' q).1.2.
Proof.
  unfold book. intros [= Hm Hf Ho Hs].
  rewrite !dispatch_master, !dispatch_fid, !dispatch_savedOffers,
    !dispatch_savedSlavePids.
  by rewrite Hm, Hf, Ho, Hs.
Qed.

Lemma replay_book env env' p q hist :
  book p = book q → book (replay env p hist) = book (replay env' q hist).
Proof.
  revert p q. induction hist as [|m hist IH]; intros p q H; [done|].
  apply IH. by apply dispatch_book.
Qed.

Lemma replay_app env p h1 h2 :
  replay env p (h1 ++ h2) = replay env (replay env p h1) h2.
Proof. apply foldl_app. Qed.

(** One step of the system is a replay of what the actor dequeued in
    it. *)
Lemma book_step env env' s a j p :
  heap s !! j = Some p →
  ∃ p', heap (sys_step env s a).1 !! j = Some p' ∧
        book p' = book (replay env' p (omap (received_in j) (sys_step env s a).2)).
Proof.
  intros Hj. destruct (sys_step_proc env s a j p Hj) as (p' & Hj' & Hstep).
  exists p'. split; [done|]. clear Hj'.
  inversion Hstep as [extra o Hq | o Ha Hq | p1 effs Ha Hpc Hrun Hp' Ho
                     | Ha Hpc Hp' Ho
                     | now from m p1 ft p2 effs Ha Hpc Hex Hrecv Hd Hp' Ho].
  - by rewrite (quiet_received _ _ Hq).
  - by rewrite (quiet_received _ _ Hq).
  - rewrite received_did. simpl.
    unfold actor_run in Hrun. destruct (pw_name env); [|done].
    by destruct (isFT _); injection Hrun as <- <-.
  - simpl. unfold actor_check. by destruct (terminate p) eqn:E.
  - simpl. rewrite decide_True by done. rewrite received_did. simpl.
    assert (p2 = (dispatch env j now from m (ftMsg s) p1).1.2) as ->
      by by rewrite Hd.
    change (book (dispatch env j now from m (ftMsg s) p1).1.2 =
            book (dispatch env' 0 0 PID_default m FTMessaging_initial p).1.2).
    apply dispatch_book.
    destruct (receive_eq p) as (rest & Hr & _). rewrite Hrecv in Hr.
    simpl in Hr. by rewrite Hr.
Qed.

Lemma book_run env env' acts s j p :
  heap s !! j = Some p →
  ∃ p', heap (sys_run env s acts).1 !! j = Some p' ∧
        book p' = book (replay env' p (received_by j (sys_run env s acts).2)).
Proof.
  revert s p. induction acts as [|a acts IH]; intros s p Hj.
  - by exists p.
  - rewrite sys_run_cons. cbn [fst snd]. rewrite received_by_cons, replay_app.
    destruct (book_step env env' s a j p Hj) as (p1 & Hj1 & Hb1).
    destruct (IH _ _ Hj1) as (p' & Hj' & Hb').
    exists p'. split; [done|]. rewrite Hb'. by apply replay_book.
Qed.

(** X19. The bookkeeping of an actor (the master, the framework id, the
    saved offers and the saved slave addresses) is a function of the
    bookkeeping it started from and of the messages it has dequeued, in
    order: the clock, the senders, the state of the overlay, the
    environment and the calls of the facade have no part in it. *)
Theorem bookkeeping_follows_history env env' acts s j p p' :
  heap s !! j = Some p → heap (sys_run env s acts).1 !! j = Some p' →
  book p' = book (replay env' p (received_by j (sys_run env s acts).2)).
Proof.
  intros Hj Hj'. destruct (book_run env env' acts s j p Hj) as (q & Hq & Hb).
  congruence.
Qed.

Lemma bookkeeping_follows_history_witness :
  book (process_at (sys_run example_env example_before_rescind
                      [Api (killTask 3); Receive 0 7; Check 0]).1 0) =
  book (replay example_env (process_at example_before_rescind 0)
          (received_by 0 (sys_run example_env example_before_rescind
                            [Api (killTask 3); Receive 0 7; Check 0]).2)).
Proof.
  apply (bookkeeping_follows_history example_env example_env
           [Api (killTask 3); Receive 0 7; Check 0] example_before_rescind 0).
  - by vm_compute.
  - by vm_compute.
Defined.

(** ** The master and the framework id the facade uses *)

Lemma replay_master env p hist :
  master (replay env p hist) = default (master p) (last_master hist).
Proof.
  revert p. induction hist as [|m hist IH]; intros p; [done|].
  cbn [replay foldl].
  change (foldl _ ?q hist) with (replay env q hist).
  rewrite IH, dispatch_master. unfold last_master.
  destruct m; try done.
  cbn [omap list_omap]. rewrite last_cons. by destruct (last _).
Qed.

Lemma replay_fid env p hist :
  fid (replay env p hist) = default (fid p) (last_fid hist).
Proof.
  revert p. induction hist as [|m hist IH]; intros p; [done|].
  cbn [replay foldl].
  change (foldl _ ?q hist) with (replay env q hist).
  rewrite IH, dispatch_fid. unfold last_fid.
  destruct m; try done.
  cbn [omap list_omap]. rewrite last_cons. by destruct (last _).
Qed.

(** X20. [killTask], [reviveOffers] and [stop] of a running driver send
    to the master of the last NEW_MASTER_DETECTED that the current actor
    has dequeued, with the framework id of the last M2F_REGISTER_REPLY
    it has dequeued; a master change or a reply that is still in the
    mailbox is not used. *)
Theorem facade_sends_to_last_master env acts s j p tid :
  heap s !! j = Some p → current (sys_run env s acts).1 j →
  let s' := (sys_run env s acts).1 in
  let hist := received_by j (sys_run env s acts).2 in
  let m := default (master p) (last_master hist) in
  let id := default (fid p) (last_fid hist) in
  (api env (killTask tid) s').1.2 = [Send m (F2M_KILL_TASK id tid)]
  ∧ (api env reviveOffers s').1.2 = [Send m (F2M_REVIVE_OFFERS id)]
  ∧ (api env stop s').1.2 = [Send m (F2M_UNREGISTER_FRAMEWORK id)].
Proof.
  intros Hj [Hrun Hp]. cbn zeta.
  destruct (book_run env env acts s j p Hj) as (p' & Hj' & Hb).
  injection Hb as Hm Hf _ _. rewrite replay_master in Hm. rewrite replay_fid in Hf.
  rewrite <- Hm, <- Hf. simpl.
  unfold NexusSchedulerDriver_killTask, NexusSchedulerDriver_reviveOffers,
    NexusSchedulerDriver_stop, deref.
  rewrite Hrun, Hp. simpl. by rewrite Hj'.
Qed.

Lemma facade_sends_to_last_master_witness :
  (api example_env (killTask 3)
     (sys_run example_env example_before_rescind
        [Deliver 0 example_master (NEW_MASTER_DETECTED "e2" (mkPID 8 8 8))]).1).1.2
  = [Send (master (process_at example_before_rescind 0)) (F2M_KILL_TASK "fw-1" 3)].
Proof.
  refine (proj1 (facade_sends_to_last_master example_env
            [Deliver 0 example_master (NEW_MASTER_DETECTED "e2" (mkPID 8 8 8))]
            example_before_rescind 0 (process_at example_before_rescind 0) 3 _ _)).
  - by vm_compute.
  - by vm_compute.
Defined.

(** ** Histories of a new driver *)

(** Every actor of a new driver holds the bookkeeping that the replay of
    its history gives from a process with no framework id and no saved
    entries. *)
Lemma fresh_invariant_step env env' s a (H : nat → list Msg) :
  (∀ j p, heap s !! j = Some p →
     ∃ p0, fid p0 = "" ∧ savedOffers p0 = ∅ ∧ savedSlavePids p0 = ∅ ∧
           book p = book (replay env' p0 (H j))) →
  (∀ j, heap s !! j = None → H j = []) →
  let H' j := (H j ++ omap (received_in j) (sys_step env s a).2)%list in
  (∀ j p, heap (sys_step env s a).1 !! j = Some p →
     ∃ p0, fid p0 = "" ∧ savedOffers p0 = ∅ ∧ savedSlavePids p0 = ∅ ∧
           book p = book (replay env' p0 (H' j)))
  ∧ (∀ j, heap (sys_step env s a).1 !! j = None → H' j = []).
Proof.
  intros Hinv Hnone H'. subst H'. split.
  - intros j p' Hj'. destruct (heap s !! j) as [p|] eqn:Hj.
    + destruct (Hinv j p Hj) as (p0 & Hf & Ho & Hs & Hb).
      exists p0. repeat split; try done.
      destruct (book_step env env' s a j p Hj) as (q & Hq & Hbq).
      assert (q = p') as -> by congruence.
      rewrite Hbq, replay_app. by apply replay_book.
    + rewrite (Hnone j Hj),
        (quiet_received _ _ (sys_step_quiet_absent env s a j Hj)).
      destruct (sys_step_new env s a j p' Hj Hj') as (? & ? & ? & _).
      by exists p'.
  - intros j Hj'. assert (heap s !! j = None) as Hj.
    { destruct (heap s !! j) as [p|] eqn:Hj; [|done].
      destruct (sys_step_proc env s a j p Hj) as (q & Hq & _). congruence. }
    by rewrite (Hnone j Hj),
      (quiet_received _ _ (sys_step_quiet_absent env s a j Hj)).
Qed.

Lemma fresh_invariant_run env env' acts s (H : nat → list Msg) :
  (∀ j p, heap s !! j = Some p →
     ∃ p0, fid p0 = "" ∧ savedOffers p0 = ∅ ∧ savedSlavePids p0 = ∅ ∧
           book p = book (replay env' p0 (H j))) →
  (∀ j, heap s !! j = None → H j = []) →
  ∀ j p, heap (sys_run env s acts).1 !! j = Some p →
     ∃ p0, fid p0 = "" ∧ savedOffers p0 = ∅ ∧ savedSlavePids p0 = ∅ ∧
           book p = book (replay env' p0
                            (H j ++ received_by j (sys_run env s acts).2)).
Proof.
  revert s H. induction acts as [|a acts IH]; intros s H Hinv Hnone j p Hj.
  - simpl in *. unfold received_by. simpl. rewrite app_nil_r. by apply Hinv.
  - rewrite sys_run_cons in Hj |- *. cbn [fst snd] in *.
    rewrite received_by_cons, app_assoc.
    destruct (fresh_invariant_step env env' s a H Hinv Hnone) as [Hinv' Hnone'].
    by apply (IH _ _ Hinv' Hnone').
Qed.

Lemma new_driver_book env env' _sched _master acts j p :
  heap (sys_run env (NexusSchedulerDriver_new _sched _master) acts).1 !! j = Some p →
  ∃ p0, fid p0 = "" ∧ savedOffers p0 = ∅ ∧ savedSlavePids p0 = ∅ ∧
        book p = book (replay env' p0
          (received_by j (sys_run env (NexusSchedulerDriver_new _sched _master) acts).2)).
Proof.
  intros Hj.
  by apply (fresh_invariant_run env env' acts _ (λ _, [])).
Qed.

(** ** The slaves an actor holds an address for *)

Lemma slave_known_nil sid : ¬ slave_known sid [].
Proof. intros (pre & m & post & Heq & _). by destruct pre. Qed.

Lemma names_not_lost sid m : names sid m → m ≠ M2F_LOST_SLAVE sid.
Proof. by destruct m. Qed.

Lemma slave_known_snoc sid hist m :
  slave_known sid (hist ++ [m]) ↔
  names sid m ∨ (slave_known sid hist ∧ m ≠ M2F_LOST_SLAVE sid).
Proof.
  split.
  - intros (pre & x & post & Heq & Hx & Hpost).
    destruct post as [|y post _] using rev_ind.
    + apply (app_inj_tail hist pre) in Heq as [-> ->]. by left.
    + rewrite app_comm_cons, app_assoc in Heq.
      apply app_inj_tail in Heq as [-> ->].
      apply Forall_app in Hpost as [Hpost Hy]. right. split.
      * by exists pre, x, post.
      * by inversion Hy.
  - intros [Hm | [(pre & x & post & -> & Hx & Hpost) Hm]].
    + exists hist, m, []. by repeat split.
    + exists pre, x, (post ++ [m])%list. repeat split; [|done|].
      * by rewrite <- app_assoc.
      * apply Forall_app. split; [done | by constructor].
Qed.

Lemma dispatch_slave_recorded env this now from m ft p sid :
  is_Some (savedSlavePids (dispatch env this now from m ft p).1.2 !! sid) ↔
  names sid m ∨ (is_Some (savedSlavePids p !! sid) ∧ m ≠ M2F_LOST_SLAVE sid).
Proof.
  rewrite dispatch_savedSlavePids.
  destruct m; simpl;
    try (split; [intros ?; right; by split | by intros [[] | [? _]]]).
  - rewrite foldl_keep_slave_pid_pids.
    destruct (decide _) as [Hin|Hnin].
    + split; [by left | by eexists].
    + split; [intros ?; right; by split | by intros [? | [? _]]].
  - unfold subscript.
    destruct (savedSlavePids p !! _) eqn:Hl; simpl.
    + split; [intros ?; right; by split |].
      intros [<- | [? _]]; [by eexists | done].
    + match goal with
      | |- context [<[?k := _]> _] => destruct (decide (sid = k)) as [->|Hs]
      end.
      * rewrite lookup_insert_eq. split; [by left | by eexists].
      * rewrite lookup_insert_ne by done.
        split; [intros ?; right; by split | by intros [? | [? _]]].
  - match goal with
    | |- context [delete ?k _] => destruct (decide (sid = k)) as [->|Hs]
    end.
    + rewrite lookup_delete_eq. split; [by intros [? ?] | by intros [[] | [_ ?]]].
    + rewrite lookup_delete_ne by done.
      split; [intros ?; right; split; [done | congruence] | by intros [[] | [? _]]].
Qed.

Lemma replay_slave_known env p hist sid :
  is_Some (savedSlavePids (replay env p hist) !! sid) ↔
  slave_known sid hist
  ∨ (is_Some (savedSlavePids p !! sid) ∧
     Forall (λ m, m ≠ M2F_LOST_SLAVE sid) hist).
Proof.
  induction hist as [|m hist IH] using rev_ind.
  - simpl. split; [intros ?; right; by split |].
    intros [H | [? _]]; [by apply slave_known_nil in H | done].
  - rewrite replay_app. cbn [replay foldl].
    rewrite dispatch_slave_recorded, IH, slave_known_snoc, Forall_app, Forall_singleton.
    tauto.
Qed.

(** X21. At every state the program reaches from a new driver, an actor
    holds a saved address for a slave exactly when it has processed a
    reply that launches a task on the slave, or a framework message for
    it, and has not processed M2F_LOST_SLAVE for it since.  Whether an
    offer ever named the slave plays no part. *)
Theorem saved_slave_iff_known env _sched _master acts j p sid :
  heap (sys_run env (NexusSchedulerDriver_new _sched _master) acts).1 !! j = Some p →
  (is_Some (savedSlavePids p !! sid) ↔
   slave_known sid
     (received_by j (sys_run env (NexusSchedulerDriver_new _sched _master) acts).2)).
Proof.
  intros Hj.
  destruct (new_driver_book env env _sched _master acts j p Hj)
    as (p0 & _ & _ & Hs & Hb).
  injection Hb as _ _ _ ->. rewrite replay_slave_known, Hs, lookup_empty.
  split; [intros [? | [[? [=]] _]]; done | by left].
Qed.

Lemma saved_slave_iff_known_witness :
  is_Some (savedSlavePids
             (process_at (sys_run example_env example_system
                            (example_registration ++
                             [Api (sendFrameworkMessage (FrameworkMessage.mk "s9" 1 "x"));
                              Check 0; Receive 0 2])).1 0) !! "s9") ↔
  slave_known "s9"
    (received_by 0 (sys_run example_env example_system
                      (example_registration ++
                       [Api (sendFrameworkMessage (FrameworkMessage.mk "s9" 1 "x"));
                        Check 0; Receive 0 2])).2).
Proof.
  apply (saved_slave_iff_known example_env Scheduler_default "nexus://1@h:1").
  by vm_compute.
Defined.

(** ** Registration after a master change *)

(** X22. When an actor of a new driver processes NEW_MASTER_DETECTED, it
    links to the new master and sends it one registration: a
    re-registration with the framework id of the last M2F_REGISTER_REPLY
    it has processed, and a first registration when it has processed
    none, or when the last one carried the empty id.  No user callback
    is invoked. *)
Theorem master_change_registers env _sched _master acts a j p from masterSeq masterPid :
  let r := sys_run env (NexusSchedulerDriver_new _sched _master) acts in
  heap r.1 !! j = Some p →
  In (Received j from (NEW_MASTER_DETECTED masterSeq masterPid))
     (sys_step env r.1 a).2 →
  (sys_step env r.1 a).2 =
  [Received j from (NEW_MASTER_DETECTED masterSeq masterPid);
   Did (Some j) (Link masterPid);
   Did (Some j)
     (Send masterPid
        (registration (default "" (last_fid (received_by j r.2))) p))].
Proof.
  intros r Hj Hin. subst r.
  destruct (new_driver_book env env _sched _master acts j p Hj)
    as (p0 & Hf & _ & _ & Hb).
  injection Hb as _ Hfid _ _. rewrite replay_fid, Hf in Hfid.
  destruct (sys_step_received env _ a j p from _ Hj Hin)
    as (now & p1 & ft & p2 & effs & _ & _ & _ & Hrecv & Hd & -> & _).
  destruct (receive_eq p) as (rest & Hr & _). rewrite Hrecv in Hr.
  simpl in Hr. subst p1. simpl in Hd. injection Hd as _ _ <-.
  rewrite <- Hfid. unfold registration. simpl.
  by destruct (fid p =? "").
Qed.

Lemma master_change_registers_witness :
  (sys_step example_env
     (sys_run example_env example_ft_system
        (example_ft_registration ++
         [Deliver 0 example_master (NEW_MASTER_DETECTED "e2" (mkPID 8 8 8));
          Check 0])).1 (Receive 0 3)).2 =
  [Received 0 example_master (NEW_MASTER_DETECTED "e2" (mkPID 8 8 8));
   Did (Some 0) (Link (mkPID 8 8 8));
   Did (Some 0)
     (Send (mkPID 8 8 8)
        (registration
           (default ""
              (last_fid
                 (received_by 0
                    (sys_run example_env example_ft_system
                       (example_ft_registration ++
                        [Deliver 0 example_master
                           (NEW_MASTER_DETECTED "e2" (mkPID 8 8 8));
                         Check 0])).2)))
           (process_at
              (sys_run example_env example_ft_system
                 (example_ft_registration ++
                  [Deliver 0 example_master
                     (NEW_MASTER_DETECTED "e2" (mkPID 8 8 8));
                   Check 0])).1 0)))].
Proof.
  apply (master_change_registers example_env Scheduler_default "zoo://zk1"
           (example_ft_registration ++
            [Deliver 0 example_master (NEW_MASTER_DETECTED "e2" (mkPID 8 8 8));
             Check 0])
           (Receive 0 3) 0).
  - by vm_compute.
  - vm_compute. by left.
Defined.

(** The id the witness re-registers with is [fw-9]. *)
Example master_change_reregisters :
  In (Did (Some 0)
        (Send (mkPID 8 8 8)
           (F2M_REREGISTER_FRAMEWORK "fw-9" "Unnamed Framework" "u"
              (mkExecutorInfo "" ""))))
     (sys_step example_env
        (sys_run example_env example_ft_system
           (example_ft_registration ++
            [Deliver 0 example_master (NEW_MASTER_DETECTED "e2" (mkPID 8 8 8));
             Check 0])).1 (Receive 0 3)).2.
Proof. vm_compute. tauto. Qed.

(** ** The C API *)

Lemma c_run_cons env prog a acts :
  c_run env prog (a :: acts) =
  ((c_run env (c_step env prog a).1 acts).1,
   (c_step env prog a).2 :: (c_run env (c_step env prog a).1 acts).2).
Proof.
  cbn [c_run]. destruct (c_step env prog a) as [p1 o]. cbn [fst snd].
  by destruct (c_run env p1 acts) as [p2 os].
Qed.

Lemma c_returned_cons o os :
  c_returned (o :: os) =
  (omap (λ o, match o with CReturned c r => Some (c, r) | _ => None end) o
   ++ c_returned os)%list.
Proof. unfold c_returned. simpl. apply omap_app. Qed.

Lemma c_exited_step env prog a :
  c_exited (c_step env prog a).1 = false → c_exited prog = false.
Proof.
  unfold c_step. destruct (c_exited prog) eqn:E; [simpl; congruence | done].
Qed.

Lemma has_driver_insert k sched cs m structs h ft e x :
  has_driver k (mkProgram structs (<[sched := cs]> m) h ft e x) ↔
  (k = sched ∧ is_Some (CScheduler.driver cs))
  ∨ (k ≠ sched ∧ ∃ cs' d, m !! k = Some cs' ∧ CScheduler.driver cs' = Some d).
Proof.
  unfold has_driver. simpl. destruct (decide (k = sched)) as [->|Hne].
  - rewrite lookup_insert_eq. split.
    + intros (cs' & d & [= <-] & Hd). left. by split; [|eexists].
    + intros [[_ [d Hd]] | [? _]]; [by exists cs, d | done].
  - rewrite lookup_insert_ne by done. split.
    + intros H. right. by split.
    + by intros [[? _] | [_ H]].
Qed.

(** What [lookupCScheduler] returns is in the map afterwards, and a
    scheduler it creates owns no driver. *)
Lemma lookupCScheduler_Some sched prog cs prog' :
  lookupCScheduler sched prog = Some (cs, prog') →
  sched ≠ NULL ∧ c_schedulers prog' !! sched = Some cs ∧
  c_structs prog' = c_structs prog ∧ c_heap prog' = c_heap prog ∧
  c_ftMsg prog' = c_ftMsg prog ∧ c_errno prog' = c_errno prog ∧
  c_exited prog' = c_exited prog ∧
  (∀ k, has_driver k prog' ↔ has_driver k prog).
Proof.
  unfold lookupCScheduler. destruct (sched =? NULL)%N eqn:Hn; [done|].
  apply N.eqb_neq in Hn.
  destruct (c_schedulers prog !! sched) as [cs0|] eqn:Hl.
  - intros [= <- <-]. by repeat split.
  - destruct (c_structs prog !! sched) as [st|]; [|done]. simpl.
    intros [= <- <-]. repeat split; try done.
    + simpl. by rewrite lookup_insert_eq.
    + unfold set_c_schedulers. rewrite has_driver_insert. simpl.
      intros [[_ [? [=]]] | [? H]]. done.
    + unfold set_c_schedulers. rewrite has_driver_insert. simpl.
      intros (cs' & d & Hk & Hd). right. split; [congruence | by exists cs', d].
Qed.

Lemma call_driver_has_driver method sched cs d prog k :
  has_driver k (call_driver method sched cs d prog).1.1 ↔
  k = sched ∨ has_driver k prog.
Proof.
  unfold call_driver. destruct (method _) as [[s effs] r]. cbn [fst snd].
  rewrite has_driver_insert. simpl. unfold has_driver.
  destruct (decide (k = sched)) as [->|Hne].
  - split; [by left | intros _; left; by split; [|eexists]].
  - split; [intros [[? _] | [_ ?]]; [done | by right] |].
    intros [? | ?]; [done | by right].
Qed.

(** A method that does not return ends the program. *)
Lemma start_None env s : 
  (NexusSchedulerDriver_start env s).2 = None →
  exited (NexusSchedulerDriver_start env s).1.1 = true.
Proof.
  unfold NexusSchedulerDriver_start. destruct (Driver.running _); [done|].
  by destruct (SchedulerProcess_new _ _ _ _).
Qed.

Lemma start_new env cs master h ft x :
  (NexusSchedulerDriver_start env
     (mkSystem (Driver.mk master false None) cs h ft x)).2 = Some 0%Z
  ∨ (NexusSchedulerDriver_start env
       (mkSystem (Driver.mk master false None) cs h ft x)).2 = None.
Proof.
  unfold NexusSchedulerDriver_start. simpl.
  destruct (SchedulerProcess_new _ _ _ _); [by left | by right].
Qed.

(** The effect of one call on who owns a driver. *)
Lemma c_call_has_driver env c prog k :
  c_exited (c_call env c prog).1.1 = false →
  (has_driver k (c_call env c prog).1.1 ↔
   (∃ master, c = c_reg k master ∧ (c_call env c prog).2 = Some 0%Z)
   ∨ (has_driver k prog ∧
      ¬ (c = c_destroy k ∧ (c_call env c prog).2 = Some 0%Z))).
Proof.
  assert (∀ method sched cs d prog1,
    (∀ m, c ≠ c_reg k m) → c ≠ c_destroy k →
    lookupCScheduler sched prog = Some (cs, prog1) →
    CScheduler.driver cs = Some d →
    has_driver k (call_driver method sched cs d prog1).1.1 ↔
    (∃ master, c = c_reg k master ∧
       (call_driver method sched cs d prog1).2 = Some 0%Z)
    ∨ (has_driver k prog ∧
       ¬ (c = c_destroy k ∧ (call_driver method sched cs d prog1).2 = Some 0%Z)))
    as Hdrv.
  { intros method sched cs d prog1 Hreg Hdes Hl Hd.
    apply lookupCScheduler_Some in Hl as (_ & Hcs & _ & _ & _ & _ & _ & Hk).
    rewrite call_driver_has_driver, <- Hk. split.
    - intros [-> | H]; right; (split; [|by intros [? _]]); [|done].
      by exists cs, d.
    - intros [(m & ? & _) | [H _]]; [by destruct (Hreg m) | by right]. }
  assert (∀ sched prog1 cs e,
    (∀ m, c ≠ c_reg k m) → c ≠ c_destroy k →
    lookupCScheduler sched prog = Some (cs, prog1) →
    has_driver k (set_c_errno e prog1) ↔
    (∃ master, c = c_reg k master ∧ Some (-1)%Z = Some 0%Z)
    ∨ (has_driver k prog ∧ ¬ (c = c_destroy k ∧ Some (-1)%Z = Some 0%Z)))
    as Hfail.
  { intros sched prog1 cs e Hreg Hdes Hl.
    apply lookupCScheduler_Some in Hl as (_ & _ & _ & _ & _ & _ & _ & Hk).
    change (has_driver k (set_c_errno e prog1)) with (has_driver k prog1).
    rewrite Hk. split; [intros H; right; split; [done | by intros [? _]] |].
    by intros [(m & _ & [=]) | [H _]]. }
  assert (∀ e,
    has_driver k (set_c_errno e prog) ↔
    (∃ master, c = c_reg k master ∧ Some (-1)%Z = Some 0%Z)
    ∨ (has_driver k prog ∧ ¬ (c = c_destroy k ∧ Some (-1)%Z = Some 0%Z)))
    as Hnull.
  { intros e. change (has_driver k (set_c_errno e prog)) with (has_driver k prog).
    split; [intros H; right; split; [done | by intros [_ [=]]] |].
    by intros [(m & _ & [=]) | [H _]]. }
  destruct c as [sched|sched|sched master|sched|sched msg|sched tid|sched]; simpl.
  - (* init *)
    intros _. unfold nexus_sched_init. destruct (sched =? NULL)%N; simpl.
    + apply Hnull.
    + split; [intros H; right; split; [done | by intros [[=] _]] |].
      by intros [(m & [=] & _) | [H _]].
  - (* destroy *)
    intros _. unfold nexus_sched_destroy. destruct (sched =? NULL)%N; simpl.
    { apply Hnull. }
    unfold removeCScheduler.
    destruct (c_schedulers prog !! sched) as [cs|] eqn:Hl; simpl.
    + unfold has_driver at 1. simpl. destruct (decide (k = sched)) as [->|Hne].
      * rewrite lookup_delete_eq. split; [by intros (? & ? & [=] & _) |].
        intros [(m & [=] & _) | [_ H]]. by destruct H.
      * rewrite lookup_delete_ne by done. split.
        -- intros H. right. split; [exact H | intros [[= ->] _]; done].
        -- by intros [(m & [=] & _) | [H _]].
    + split.
      * intros H. right. split; [done|]. intros [[= ->] _].
        destruct H as (cs & d & Hk & _). congruence.
      * by intros [(m & [=] & _) | [H _]].
  - (* reg *)
    unfold nexus_sched_reg. destruct master as [master|]; simpl.
    2:{ intros _. split; [intros H; right; split; [done | by intros [[=] _]] |].
        by intros [(m & _ & [=]) | [H _]]. }
    destruct (sched =? NULL)%N eqn:Hn; simpl.
    { intros _. split; [intros H; right; split; [done | by intros [[=] _]] |].
      by intros [(m & _ & [=]) | [H _]]. }
    destruct (lookupCScheduler sched prog) as [[cs prog1]|] eqn:Hl; [|done].
    pose proof (lookupCScheduler_Some _ _ _ _ Hl)
      as (_ & Hcs & _ & _ & _ & _ & _ & Hk).
    destruct (CScheduler.driver cs) as [d|] eqn:Hd; simpl.
    + intros _. change (has_driver k (set_c_errno EINVAL prog1))
        with (has_driver k prog1).
      rewrite Hk. split; [intros H; right; split; [done | by intros [[=] _]] |].
      by intros [(m & _ & [=]) | [H _]].
    + intros Hex. rewrite call_driver_has_driver, Hk.
      assert ((call_driver (NexusSchedulerDriver_start env) sched cs
                 {| Driver.master := master; Driver.running := false;
                    Driver.process := None |} prog1).2 = Some 0%Z) as Hr.
      { revert Hex. unfold call_driver.
        pose proof (start_new env (CScheduler_getters cs) master (c_heap prog1)
                      (c_ftMsg prog1) (c_exited prog1)) as [Hs | Hs];
        pose proof (start_None env
                      (mkSystem (Driver.mk master false None)
                         (CScheduler_getters cs) (c_heap prog1) (c_ftMsg prog1)
                         (c_exited prog1))) as Hnone;
        destruct (NexusSchedulerDriver_start env _) as [[s effs] r];
        simpl in *; subst r; [done|].
        intros Hex. rewrite Hnone in Hex; done. }
      rewrite Hr. split.
      * intros [-> | H]; [left; by exists (Some master) |].
        right. split; [done | by intros [[=] _]].
      * intros [(m & [= ->] & _) | [H _]]; [by left | by right].
  - (* unreg *)
    intros _. unfold nexus_sched_unreg. destruct (sched =? NULL)%N; simpl.
    { apply Hnull. }
    destruct (lookupCScheduler sched prog) as [[cs prog1]|] eqn:Hl.
    2:{ simpl. split; [intros H; right; split; [done | by intros [[=] _]] |].
        by intros [(m & [=] & _) | [H _]]. }
    destruct (CScheduler.driver cs) as [d|] eqn:Hd.
    + by eapply Hdrv.
    + by eapply Hfail.
  - (* send_message *)
    intros _. unfold nexus_sched_send_message. destruct msg as [message|]; simpl.
    2:{ apply Hnull. }
    destruct (sched =? NULL)%N; simpl.
    { apply Hnull. }
    destruct (lookupCScheduler sched prog) as [[cs prog1]|] eqn:Hl.
    2:{ simpl. split; [intros H; right; split; [done | by intros [[=] _]] |].
        by intros [(m & [=] & _) | [H _]]. }
    destruct (CScheduler.driver cs) as [d|] eqn:Hd.
    + by eapply Hdrv.
    + by eapply Hfail.
  - (* kill_task *)
    intros _. unfold nexus_sched_kill_task. destruct (sched =? NULL)%N; simpl.
    { apply Hnull. }
    destruct (lookupCScheduler sched prog) as [[cs prog1]|] eqn:Hl.
    2:{ simpl. split; [intros H; right; split; [done | by intros [[=] _]] |].
        by intros [(m & [=] & _) | [H _]]. }
    destruct (CScheduler.driver cs) as [d|] eqn:Hd.
    + by eapply Hdrv.
    + by eapply Hfail.
  - (* revive_offers *)
    intros _. unfold nexus_sched_revive_offers. destruct (sched =? NULL)%N; simpl.
    { apply Hnull. }
    destruct (lookupCScheduler sched prog) as [[cs prog1]|] eqn:Hl.
    2:{ simpl. split; [intros H; right; split; [done | by intros [[=] _]] |].
        by intros [(m & [=] & _) | [H _]]. }
    destruct (CScheduler.driver cs) as [d|] eqn:Hd.
    + by eapply Hdrv.
    + by eapply Hfail.
Qed.

Lemma c_returned_did effs :
  omap (λ o, match o with CReturned c r => Some (c, r) | _ => None end)
       (map CDid effs) = [].
Proof. induction effs as [|e effs IH]; [done | exact IH]. Qed.

Lemma c_returned_of o :
  omap (λ o, match o with CReturned c r => Some (c, r) | _ => None end)
       (map COf o) = [].
Proof. induction o as [|x o IH]; [done | exact IH]. Qed.

(** One step of the C program: the calls it shows returning, and who
    owns a driver afterwards. *)
Lemma c_step_has_driver env prog a k :
  c_exited (c_step env prog a).1 = false →
  let ret := omap (λ o, match o with CReturned c r => Some (c, r) | _ => None end)
                  (c_step env prog a).2 in
  (ret = [] ∧ (has_driver k (c_step env prog a).1 ↔ has_driver k prog))
  ∨ (∃ c r, ret = [(c, r)] ∧
       (has_driver k (c_step env prog a).1 ↔
        (∃ master, (c, r) = (c_reg k master, 0%Z))
        ∨ (has_driver k prog ∧ (c, r) ≠ (c_destroy k, 0%Z)))).
Proof.
  intros Hex. pose proof (c_exited_step env prog a Hex) as Hex0.
  revert Hex. unfold c_step. rewrite Hex0. cbn zeta.
  destruct a as [c|sched st|a].
  - pose proof (c_call_has_driver env c prog k) as Hc.
    destruct (c_call env c prog) as [[prog1 effs] r]. cbn [fst snd] in *.
    intros Hex. specialize (Hc Hex).
    rewrite omap_app, c_returned_did. simpl.
    change (has_driver k (mkProgram (c_structs prog1) (c_schedulers prog1)
              (foldl perform (c_heap prog1) (lib_effects effs)) (c_ftMsg prog1)
              (c_errno prog1) (c_exited prog1)))
      with (has_driver k prog1).
    destruct r as [r|]; simpl.
    + right. exists c, r. split; [done|]. rewrite Hc. split.
      * intros [(m & -> & [= ->]) | [H Hn]]; [left; by exists m |].
        right. split; [done|]. intros [= -> ->]. by apply Hn.
      * intros [(m & [= -> ->]) | [H Hn]]; [left; by exists m |].
        right. split; [done|]. intros [-> [= ->]]. by apply Hn.
    + left. split; [done|]. rewrite Hc. split.
      * by intros [(m & _ & [=]) | [H _]].
      * intros H. right. split; [done | by intros [_ [=]]].
  - intros _. left. by split.
  - destruct a; try (intros _; left; by split);
      destruct (sys_step _ _ _) as [s o]; simpl; intros _; left;
      (split; [apply c_returned_of | done]).
Qed.

Lemma c_registered_nil k : ¬ c_registered k [].
Proof. intros (pre & m & post & Heq & _). by destruct pre. Qed.

Lemma c_registered_snoc k hist x :
  c_registered k (hist ++ [x]) ↔
  (∃ master, x = (c_reg k master, 0%Z))
  ∨ (c_registered k hist ∧ x ≠ (c_destroy k, 0%Z)).
Proof.
  split.
  - intros (pre & m & post & Heq & Hpost).
    destruct post as [|y post _] using rev_ind.
    + apply (app_inj_tail hist pre) in Heq as [-> ->]. left. by exists m.
    + rewrite app_comm_cons, app_assoc in Heq.
      apply app_inj_tail in Heq as [-> ->].
      apply Forall_app in Hpost as [Hpost Hy]. right. split.
      * by exists pre, m, post.
      * by inversion Hy.
  - intros [(m & ->) | [(pre & m & post & -> & Hpost) Hx]].
    + exists hist, m, []. by split.
    + exists pre, m, (post ++ [x])%list. split.
      * by rewrite <- app_assoc.
      * apply Forall_app. split; [done | by constructor].
Qed.

Lemma has_driver_run env acts prog (H : list (CCall * Z)) k :
  (has_driver k prog ↔ c_registered k H) →
  c_exited (c_run env prog acts).1 = false →
  (has_driver k (c_run env prog acts).1 ↔
   c_registered k (H ++ c_returned (c_run env prog acts).2)).
Proof.
  revert prog H. induction acts as [|a acts IH]; intros prog H Hinv Hex.
  - simpl. unfold c_returned. simpl. by rewrite app_nil_r.
  - rewrite c_run_cons in Hex |- *. cbn [fst snd] in *.
    rewrite c_returned_cons, app_assoc. apply IH; [|done].
    assert (c_exited (c_step env prog a).1 = false) as Hex1.
    { clear -Hex. revert Hex. generalize (c_step env prog a).1. intros q.
      induction acts as [|b acts IH] in q |- *; [done|].
      rewrite c_run_cons. cbn [fst]. intros H. apply IH in H.
      by apply c_exited_step in H. }
    destruct (c_step_has_driver env prog a k Hex1)
      as [[-> Hk] | (c & r & -> & Hk)].
    + by rewrite app_nil_r, Hk.
    + by rewrite Hk, c_registered_snoc, Hinv.
Qed.

Lemma has_driver_reg_refused env sched master prog :
  has_driver sched prog →
  (nexus_sched_reg env sched master prog).2 = Some (-1)%Z.
Proof.
  intros (cs & d & Hcs & Hd). unfold nexus_sched_reg, lookupCScheduler.
  destruct master as [master|]; [|done].
  destruct (sched =? NULL)%N; [done|]. rewrite Hcs. by rewrite Hd.
Qed.

(** X23. In a C program that has not ended, the scheduler of a struct
    owns a driver exactly when [nexus_sched_reg] has returned 0 for the
    struct and [nexus_sched_destroy] has not returned 0 for it since;
    and as long as it owns one, [nexus_sched_reg] returns -1 for the
    struct.  So [nexus_sched_unreg] does not make a second
    [nexus_sched_reg] possible: only [nexus_sched_destroy] does. *)
Theorem c_scheduler_registered_once env structs acts sched :
  c_exited (c_run env (Program_initial structs) acts).1 = false →
  (has_driver sched (c_run env (Program_initial structs) acts).1 ↔
   c_registered sched (c_returned (c_run env (Program_initial structs) acts).2))
  ∧ (c_registered sched
       (c_returned (c_run env (Program_initial structs) acts).2) →
     ∀ master,
       (nexus_sched_reg env sched master
          (c_run env (Program_initial structs) acts).1).2 = Some (-1)%Z).
Proof.
  intros Hex.
  assert (has_driver sched (c_run env (Program_initial structs) acts).1 ↔
          c_registered sched
            (c_returned (c_run env (Program_initial structs) acts).2)) as Hiff.
  { apply (has_driver_run env acts _ [] sched); [|done].
    split; [by intros (? & ? & [=] & _) | intros H; by apply c_registered_nil in H]. }
  split; [done|].
  intros Hreg master. apply has_driver_reg_refused. by apply Hiff.
Qed.

Lemma c_scheduler_registered_once_witness :
  has_driver 1%N
    (c_run example_env example_program
       [Call (c_reg 1 (Some "nexus://1@h:1")); Call (c_unreg 1)]).1 ↔
  c_registered 1%N
    (c_returned
       (c_run example_env example_program
          [Call (c_reg 1 (Some "nexus://1@h:1")); Call (c_unreg 1)]).2).
Proof.
  apply (c_scheduler_registered_once example_env
           {[ 1%N := mk_nexus_sched "fw" "exec" "arg" ]}
           [Call (c_reg 1 (Some "nexus://1@h:1")); Call (c_unreg 1)] 1%N).
  by vm_compute.
Defined.

(** After [nexus_sched_unreg] the second [nexus_sched_reg] is refused. *)
Example c_reg_after_unreg :
  c_returned
    (c_run example_env example_program
       [Call (c_reg 1 (Some "nexus://1@h:1")); Call (c_unreg 1);
        Call (c_reg 1 (Some "nexus://1@h:1")); Call (c_destroy 1);
        Call (c_reg 1 (Some "nexus://1@h:1"))]).2
  = [(c_reg 1 (Some "nexus://1@h:1"), 0%Z); (c_unreg 1, 0%Z);
     (c_reg 1 (Some "nexus://1@h:1"), (-1)%Z); (c_destroy 1, 0%Z);
     (c_reg 1 (Some "nexus://1@h:1"), 0%Z)].
Proof. by vm_compute. Qed.

(** A stopped driver refuses: the method returns -1 and changes
    nothing. *)
Lemma api_not_running env c s :
  c ≠ start → Driver.running (driver s) = false →
  api env c s = (s, [], Some (-1)%Z).
Proof.
  intros Hc Hrun. destruct c; try done; simpl;
    [ unfold NexusSchedulerDriver_stop
    | unfold NexusSchedulerDriver_killTask
    | unfold NexusSchedulerDriver_replyToOffer
    | unfold NexusSchedulerDriver_reviveOffers
    | unfold NexusSchedulerDriver_sendFrameworkMessage ];
    by rewrite Hrun.
Qed.

Lemma call_driver_not_running env c sched cs d prog :
  c ≠ start → c_schedulers prog !! sched = Some cs →
  CScheduler.driver cs = Some d → Driver.running d = false →
  call_driver (api env c) sched cs d prog = (prog, [], Some 0%Z).
Proof.
  intros Hc Hcs Hd Hrun. unfold call_driver.
  rewrite api_not_running by done. cbn [driver heap ftMsg exited map].
  rewrite <- Hd. destruct cs as [fn ei sc dr]. simpl.
  rewrite insert_id by done. by destruct prog.
Qed.

Lemma stop_not_running s s' effs r :
  NexusSchedulerDriver_stop s = (s', effs, Some r) →
  Driver.running (driver s') = false.
Proof.
  unfold NexusSchedulerDriver_stop.
  destruct (Driver.running (driver s)) eqn:Hrun; simpl.
  - destruct (deref s) as [[i p]|]; [|done]. by intros [= <- _ _].
  - by intros [= <- _ _].
Qed.

(** X24. The C API drops what the methods of the driver return.  After a
    [nexus_sched_unreg] that returned 0, the functions that go on to the
    driver ([nexus_sched_unreg], [nexus_sched_kill_task],
    [nexus_sched_revive_offers], [nexus_sched_send_message] with a
    message) return 0 for the same struct although the driver refuses:
    they send nothing, and leave the program and [errno] as they are. *)
Theorem c_calls_after_unreg env sched prog prog' effs c :
  nexus_sched_unreg sched prog = (prog', effs, Some 0%Z) →
  driver_call c = true → c_target c = sched →
  c_call env c prog' = (prog', [], Some 0%Z).
Proof.
  intros Hun Hc Ht. unfold nexus_sched_unreg in Hun.
  destruct (sched =? NULL)%N eqn:Hn; [done|].
  destruct (lookupCScheduler sched prog) as [[cs prog1]|] eqn:Hl; [|done].
  destruct (CScheduler.driver cs) as [d|] eqn:Hd; [|done].
  unfold call_driver in Hun.
  destruct (NexusSchedulerDriver_stop _) as [[s effs0] r] eqn:Hstop.
  destruct r as [r|]; [|done].
  apply stop_not_running in Hstop. injection Hun as <- _.
  set (cs' := CScheduler.mk (CScheduler.frameworkName cs) (CScheduler.execInfo cs)
                (CScheduler.sched cs) (Some (driver s))).
  set (prog' := mkProgram _ _ _ _ _ _).
  assert (lookupCScheduler sched prog' = Some (cs', prog')) as Hl'.
  { unfold lookupCScheduler. rewrite Hn. subst prog'. simpl.
    by rewrite lookup_insert_eq. }
  assert (c_schedulers prog' !! sched = Some cs') as Hcs'.
  { subst prog'. simpl. by rewrite lookup_insert_eq. }
  destruct c as [?|?|? ?|sched'|sched' [message|]|sched' tid|sched'];
    try done; simpl in Ht; subst sched'; simpl.
  - unfold nexus_sched_unreg. rewrite Hn, Hl'. simpl.
    by apply (call_driver_not_running env stop).
  - unfold nexus_sched_send_message. rewrite Hn, Hl'. simpl.
    by apply (call_driver_not_running env (sendFrameworkMessage message)).
  - unfold nexus_sched_kill_task. rewrite Hn, Hl'. simpl.
    by apply (call_driver_not_running env (killTask tid)).
  - unfold nexus_sched_revive_offers. rewrite Hn, Hl'. simpl.
    by apply (call_driver_not_running env reviveOffers).
Qed.

Lemma c_calls_after_unreg_witness :
  c_call example_env (c_kill_task 1 7)
    (nexus_sched_unreg 1
       (c_run example_env example_program
          [Call (c_reg 1 (Some "nexus://1@h:1"))]).1).1.1
  = ((nexus_sched_unreg 1
        (c_run example_env example_program
           [Call (c_reg 1 (Some "nexus://1@h:1"))]).1).1.1,
     [], Some 0%Z).
Proof.
  apply (c_calls_after_unreg example_env 1%N
           (c_run example_env example_program
              [Call (c_reg 1 (Some "nexus://1@h:1"))]).1 _
           (nexus_sched_unreg 1
              (c_run example_env example_program
                 [Call (c_reg 1 (Some "nexus://1@h:1"))]).1).1.2
           (c_kill_task 1 7)).
  - by vm_compute.
  - reflexivity.
  - reflexivity.
Defined.

Lemma lookupCScheduler_structs sched prog cs structs :
  c_schedulers prog !! sched = Some cs →
  lookupCScheduler sched (set_c_structs structs prog) =
  (λ x, (x.1, set_c_structs structs x.2)) <$> lookupCScheduler sched prog.
Proof.
  intros Hcs. unfold lookupCScheduler. destruct (sched =? NULL)%N; [done|].
  simpl. by rewrite Hcs.
Qed.

Lemma call_driver_structs method sched cs d prog structs :
  call_driver method sched cs d (set_c_structs structs prog) =
  (set_c_structs structs (call_driver method sched cs d prog).1.1,
   (call_driver method sched cs d prog).1.2,
   (call_driver method sched cs d prog).2).
Proof.
  unfold call_driver. simpl. by destruct (method _) as [[s effs] r].
Qed.

(** X25. A struct is read once.  For a struct whose scheduler is in
    [c_schedulers], no function of the C API reads the struct again: a
    call does the same, and returns the same, whatever the user has
    written to the struct since.  The names that [nexus_sched_reg]
    registers with are those the struct held at the first call that
    named it, which may be a call that failed. *)
Theorem c_struct_read_once env c prog cs structs :
  c_schedulers prog !! c_target c = Some cs →
  c_call env c (set_c_structs structs prog) =
  (set_c_structs structs (c_call env c prog).1.1,
   (c_call env c prog).1.2, (c_call env c prog).2).
Proof.
  intros Hcs.
  destruct c as [sched|sched|sched master|sched|sched msg|sched tid|sched];
    simpl in *.
  - unfold nexus_sched_init. by destruct (sched =? NULL)%N.
  - unfold nexus_sched_destroy, removeCScheduler.
    destruct (sched =? NULL)%N; [done|]. simpl. by rewrite Hcs.
  - unfold nexus_sched_reg. destruct master as [master|]; [|done].
    destruct (sched =? NULL)%N eqn:Hn; [done|].
    rewrite (lookupCScheduler_structs _ _ cs) by done.
    unfold lookupCScheduler. rewrite Hn, Hcs. simpl.
    destruct (CScheduler.driver cs); [done|]. apply call_driver_structs.
  - unfold nexus_sched_unreg.
    destruct (sched =? NULL)%N eqn:Hn; [done|].
    rewrite (lookupCScheduler_structs _ _ cs) by done.
    unfold lookupCScheduler. rewrite Hn, Hcs. simpl.
    destruct (CScheduler.driver cs); [apply call_driver_structs | done].
  - unfold nexus_sched_send_message. destruct msg as [message|]; [|done].
    destruct (sched =? NULL)%N eqn:Hn; [done|].
    rewrite (lookupCScheduler_structs _ _ cs) by done.
    unfold lookupCScheduler. rewrite Hn, Hcs. simpl.
    destruct (CScheduler.driver cs); [apply call_driver_structs | done].
  - unfold nexus_sched_kill_task.
    destruct (sched =? NULL)%N eqn:Hn; [done|].
    rewrite (lookupCScheduler_structs _ _ cs) by done.
    unfold lookupCScheduler. rewrite Hn, Hcs. simpl.
    destruct (CScheduler.driver cs); [apply call_driver_structs | done].
  - unfold nexus_sched_revive_offers.
    destruct (sched =? NULL)%N eqn:Hn; [done|].
    rewrite (lookupCScheduler_structs _ _ cs) by done.
    unfold lookupCScheduler. rewrite Hn, Hcs. simpl.
    destruct (CScheduler.driver cs); [apply call_driver_structs | done].
Qed.

Lemma c_struct_read_once_witness :
  c_call example_env (c_reg 1 (Some "nexus://1@h:1"))
    (set_c_structs {[ 1%N := mk_nexus_sched "other" "exec" "arg" ]}
       (c_step example_env example_program (Call (c_unreg 1))).1)
  = (set_c_structs {[ 1%N := mk_nexus_sched "other" "exec" "arg" ]}
       (c_call example_env (c_reg 1 (Some "nexus://1@h:1"))
          (c_step example_env example_program (Call (c_unreg 1))).1).1.1,
     (c_call example_env (c_reg 1 (Some "nexus://1@h:1"))
        (c_step example_env example_program (Call (c_unreg 1))).1).1.2,
     (c_call example_env (c_reg 1 (Some "nexus://1@h:1"))
        (c_step example_env example_program (Call (c_unreg 1))).1).2).
Proof.
  apply (c_struct_read_once example_env (c_reg 1 (Some "nexus://1@h:1"))
           (c_step example_env example_program (Call (c_unreg 1))).1
           (CScheduler.mk "fw" (mkExecutorInfo "exec" "arg") 1 None)).
  by vm_compute.
Defined.

(** A failed [nexus_sched_unreg] makes the scheduler; the struct is then
    renamed, and the framework still registers as [fw]. *)
Example c_first_contact_names :
  frameworkName <$>
    last (c_heap
            (c_run example_env example_program
               [Call (c_unreg 1);
                Store 1 (mk_nexus_sched "other" "exec" "arg");
                Call (c_reg 1 (Some "nexus://1@h:1"))]).1)
  = Some "fw"
  ∧ c_returned
      (c_run example_env example_program
         [Call (c_unreg 1);
          Store 1 (mk_nexus_sched "other" "exec" "arg");
          Call (c_reg 1 (Some "nexus://1@h:1"))]).2
    = [(c_unreg 1, (-1)%Z); (c_reg 1 (Some "nexus://1@h:1"), 0%Z)].
Proof. split; by vm_compute. Qed.




(** ** The first iteration of an actor *)

(** X27. A driver that has just been started for a static master
    registers: the preamble of the actor posts NEW_MASTER_DETECTED with
    that master to the actor itself, and the first iteration of the loop
    dequeues it, links to the master and sends it F2M_REGISTER_FRAMEWORK
    with the name and the executor of the scheduler and the name of the
    user.  An actor for a coordinated master starts the detector
    instead and sends nothing: with nothing delivered, its first
    iteration is a timer tick. *)
Theorem first_iteration_registers env _sched _master s effs p user now :
  NexusSchedulerDriver_start env (NexusSchedulerDriver_new _sched _master)
    = (s, effs, Some 0%Z) →
  heap s !! 0%nat = Some p → pw_name env = Some user →
  (sys_run env s [Run 0; Check 0; Receive 0 now]).2 =
  if isFT p then [[]; []; [Received 0 PID_default PROCESS_TIMEOUT]]
  else
    [[Did (Some 0%nat) (Post 0 (NEW_MASTER_DETECTED "0" (master p)))];
     [];
     [Received 0 (self p) (NEW_MASTER_DETECTED "0" (master p));
      Did (Some 0%nat) (Link (master p));
      Did (Some 0%nat)
        (Send (master p)
           (F2M_REGISTER_FRAMEWORK (getFrameworkName _sched) user
                                   (getExecutorInfo _sched)))]].
Proof.
  unfold NexusSchedulerDriver_start, NexusSchedulerDriver_new. simpl.
  match goal with
  | |- context [SchedulerProcess_new ?e ?m ?fn ?ei] =>
      destruct (SchedulerProcess_new e m fn ei) as [p0|] eqn:Hnew
  end; [|done].
  intros [= <- _] [= <-] Hpw.
  assert (frameworkName p0 = getFrameworkName _sched
          ∧ execInfo p0 = getExecutorInfo _sched) as [Hfn Hei].
  { revert Hnew. unfold SchedulerProcess_new.
    destruct (UrlProcessor_process env _).1; repeat case_match;
      by intros [= <-]. }
  apply SchedulerProcess_new_fresh in Hnew as (Hfid & _ & _ & Hterm & Hpc & Hmail).
  destruct p0 as [self0 mailbox0 pc0 user0 master0 fid0 fn0 ei0 isFT0 zk0 md0
                    so0 ssp0 term0].
  simpl in *. subst.
  unfold sys_run, sys_step, actor_run, actor_check, receive. simpl.
  rewrite Hpw. simpl. by destruct isFT0.
Qed.

Lemma first_iteration_registers_witness :
  (sys_run example_env
     (NexusSchedulerDriver_start example_env example_system).1.1
     [Run 0; Check 0; Receive 0 0]).2 =
  if isFT (process_at
             (NexusSchedulerDriver_start example_env example_system).1.1 0)
  then [[]; []; [Received 0 PID_default PROCESS_TIMEOUT]]
  else
    [[Did (Some 0%nat)
        (Post 0 (NEW_MASTER_DETECTED "0"
                   (master (process_at
                      (NexusSchedulerDriver_start example_env example_system).1.1
                      0))))];
     [];
     [Received 0
        (self (process_at
                 (NexusSchedulerDriver_start example_env example_system).1.1 0))
        (NEW_MASTER_DETECTED "0"
           (master (process_at
              (NexusSchedulerDriver_start example_env example_system).1.1 0)));
      Did (Some 0%nat)
        (Link (master (process_at
                 (NexusSchedulerDriver_start example_env example_system).1.1 0)));
      Did (Some 0%nat)
        (Send (master (process_at
                 (NexusSchedulerDriver_start example_env example_system).1.1 0))
           (F2M_REGISTER_FRAMEWORK (getFrameworkName Scheduler_default) "u"
                                   (getExecutorInfo Scheduler_default)))]].
Proof.
  apply (first_iteration_registers example_env Scheduler_default "nexus://1@h:1"
           _ (NexusSchedulerDriver_start example_env example_system).1.2).
  - by vm_compute.
  - by vm_compute.
  - reflexivity.
Defined.

End SchedTheory.
